(** * uqfacedetect / uqfaceclient: the framed request protocol, the
      per-connection worker, admission statistics and the detector lock.

    The development embeds the two C programs of the repository:
    - [src/uqfaceclient.c]  (module [Client]),
    - [src/facedetect.c]    (modules [Server], [Admission], [Cascade]).

    Machine integers are [Z] with their wrap-around written out, bytes are
    [Byte.byte], byte buffers and socket streams are [list byte]. *)

From Stdlib Require Import ZArith Lia List String Ascii.
From Stdlib Require Strings.Byte.
From stdpp Require Import base option list strings gmap.

Local Open Scope Z_scope.

(* ===================================================================== *)
(** * Machine integers, bytes and the little-endian wire format *)
(* ===================================================================== *)

Module Wire.

Abbreviation byte := Init.Byte.byte.

#[global] Instance byte_eq_dec : EqDecision byte := Byte.byte_eq_dec.

Definition UINT32_MAX : Z := 4294967295.
Definition INT_MAX : Z := 2147483647.

(** Conversion to [uint32_t]: reduction modulo 2^32. *)
Definition wrap32 (z : Z) : Z := z mod 4294967296.

(** Conversion to [int] (32-bit two's complement, as gcc defines the
    conversion of an out-of-range value). *)
Definition wrap_int (z : Z) : Z := (z + 2147483648) mod 4294967296 - 2147483648.

Definition byte_to_Z (b : byte) : Z := Z.of_N (Byte.to_N b).

(** Conversion to [uint8_t]: reduction modulo 256. *)
Definition Z_to_byte (z : Z) : byte :=
  default Byte.x00 (Byte.of_N (Z.to_N (z mod 256))).

Definition blen (l : list byte) : Z := Z.of_nat (length l).

(** The four bytes a [uint32_t] occupies on the wire, least significant
    first: [v & 0xFF], [(v >> 8) & 0xFF], [(v >> 16) & 0xFF],
    [(v >> 24) & 0xFF]. *)
Definition le32_bytes (v : Z) : list byte :=
  [ Z_to_byte (Z.land v 255);
    Z_to_byte (Z.land (Z.shiftr v 8) 255);
    Z_to_byte (Z.land (Z.shiftr v 16) 255);
    Z_to_byte (Z.land (Z.shiftr v 24) 255) ].

(** [le32toh] applied to four bytes read from the wire. *)
Definition le32toh (bs : list byte) : Z :=
  match bs with
  | [b0; b1; b2; b3] =>
      Z.lor (byte_to_Z b0)
        (Z.lor (Z.shiftl (byte_to_Z b1) 8)
           (Z.lor (Z.shiftl (byte_to_Z b2) 16) (Z.shiftl (byte_to_Z b3) 24)))
  | _ => 0
  end.

(** [#define PREFIX 0x23107231] *)
Definition PREFIX : Z := 0x23107231.

(** The magic as it travels: 31 72 10 23. *)
Definition magic : list byte := [Byte.x31; Byte.x72; Byte.x10; Byte.x23].

Definition bytes_of_string (s : string) : list byte := list_byte_of_string s.

(** A frame as section 6.3 of the specification draws it: magic, operation,
    payload length, payload. *)
Definition frame (operation : byte) (payload : list byte) : list byte :=
  magic ++ [operation] ++ le32_bytes (blen payload) ++ payload.

(** The operation-3 frame whose payload is the text, character for
    character. *)
Definition error_frame (text : string) : list byte :=
  frame Byte.x03 (bytes_of_string text).

End Wire.

(* ===================================================================== *)
(** * The client, [src/uqfaceclient.c] *)
(* ===================================================================== *)

Module Client.
Import Wire.

Definition COMMAND_LINE_ERROR : Z := 16.
Definition INPUT_FILE_ERROR : Z := 13.
Definition OUTPUT_FILE_ERROR : Z := 5.
Definition PORT_ERROR : Z := 19.
Definition COMMUNICATION_ERROR : Z := 9.
Definition ERROR_MESSAGE : Z := 11.
Definition PREIMAGE_SIZE : Z := 9.
Definition FOUR : Z := 4.
Definition MASK : Z := 255.
Definition ONE_BYTE : Z := 8.
Definition TWO_BYTES : Z := 16.
Definition THREE_BYTES : Z := 24.
Definition PREFIX_ONE : byte := Byte.x23.
Definition PREFIX_TWO : byte := Byte.x10.
Definition PREFIX_THREE : byte := Byte.x72.
Definition PREFIX_FOUR : byte := Byte.x31.

(** [CmdLineParams]: the [char*] fields are [None] for a null pointer. *)
Record CmdLineParams := mkParams {
  portnum : option string;
  detectFileGiven : bool;
  detectFile : option string;
  replaceFileGiven : bool;
  replaceFile : option string;
  outputFileNameGiven : bool;
  outputFileName : option string
}.

(** [Buffer]: [data] with its [length]; the two fields of the C struct
    always describe the same bytes, so a buffer is its byte list. *)
Definition Buffer := list byte.

(** ** Writes into allocated memory *)

(** [buffer[i] = b] on a block of [length buf] bytes.  An index
    outside the block is an invalid access: [None]. *)
Definition store (buf : list byte) (i : Z) (b : byte) : option (list byte) :=
  if bool_decide (0 <= i < blen buf)
  then Some (<[Z.to_nat i := b]> buf)
  else None.

(** [memcpy(buffer + off, src, length src)]. *)
Fixpoint memcpy (buf : list byte) (off : Z) (src : list byte)
  : option (list byte) :=
  match src with
  | [] => Some buf
  | b :: src' => buf' ← store buf off b; memcpy buf' (off + 1) src'
  end.

(** [malloc(size)]: a fresh block; its initial content is never read
    before it is written. *)
Definition malloc (size : Z) : list byte := replicate (Z.to_nat size) Byte.x00.

(** ** [create_request] *)

(** The second half of [create_request], run when a replace file was
    given: [int index] holds the offset of the secondary length. *)
Definition write_replacement (imageOne imageTwo : Buffer) (buffer : list byte)
  : option (list byte) :=
  let length := wrap32 (blen imageTwo) in
  let index := wrap_int (PREIMAGE_SIZE + blen imageOne) in
  b1 ← store buffer index (Z_to_byte (Z.land length MASK));
  let index := wrap_int (index + 1) in
  b2 ← store b1 index (Z_to_byte (Z.land (Z.shiftr length ONE_BYTE) MASK));
  let index := wrap_int (index + 1) in
  b3 ← store b2 index (Z_to_byte (Z.land (Z.shiftr length TWO_BYTES) MASK));
  let index := wrap_int (index + 1) in
  b4 ← store b3 index (Z_to_byte (Z.land (Z.shiftr length THREE_BYTES) MASK));
  let index := wrap_int (index + 1) in
  memcpy b4 index imageTwo.

Definition create_request (imageOne imageTwo : Buffer) (params : CmdLineParams)
  : option Buffer :=
  let size := PREIMAGE_SIZE + blen imageOne in
  let size := if replaceFileGiven params
              then size + (FOUR + blen imageTwo) else size in
  let buffer := malloc size in
  b ← store buffer 0 PREFIX_FOUR;
  b ← store b 1 PREFIX_THREE;
  b ← store b 2 PREFIX_TWO;
  b ← store b 3 PREFIX_ONE;
  b ← store b 4 (if replaceFileGiven params then Byte.x01 else Byte.x00);
  let length := wrap32 (blen imageOne) in
  b ← store b 5 (Z_to_byte (Z.land length MASK));
  b ← store b 6 (Z_to_byte (Z.land (Z.shiftr length ONE_BYTE) MASK));
  b ← store b 7 (Z_to_byte (Z.land (Z.shiftr length TWO_BYTES) MASK));
  b ← store b 8 (Z_to_byte (Z.land (Z.shiftr length THREE_BYTES) MASK));
  b ← memcpy b PREIMAGE_SIZE imageOne;
  if replaceFileGiven params
  then write_replacement imageOne imageTwo b
  else Some b.


(** ** The process and its environment *)

(** A call returns, or ends the process through [exit], or faults on an
    invalid memory access. *)
Inductive Outcome (A : Type) : Type :=
| Return (a : A)
| Exit (code : Z)
| Fault.
Arguments Return {A} a.
Arguments Exit {A} code.
Arguments Fault {A}.

Record File := mkFile {
  content : list byte;
  readable : bool;
  writable : bool
}.

Inductive Event : Type :=
| EvOpenRead (name : string)
| EvOpenWrite (name : string)
| EvConnect (port : string)
| EvSend (request : list byte).

(** The files by name, what went to standard output and standard error,
    and the system calls made so far, oldest first. *)
Record World := mkWorld {
  files : gmap string File;
  stdout : list byte;
  stderr : list byte;
  log : list Event
}.

(** What the run does not change: whether a missing file of a given name
    may be created, the bytes on standard input, whether the server
    accepts the connection, whether [send] succeeds, and the bytes the
    server sends back for a request before it closes. *)
Record Env := mkEnv {
  creatable : string -> bool;
  stdin : list byte;
  connects : bool;
  send_ok : bool;
  reply : list byte -> list byte
}.

Definition P (A : Type) : Type := World -> Outcome A * World.

#[global] Instance P_ret : MRet P := fun A a w => (Return a, w).
#[global] Instance P_bind : MBind P :=
  fun A B k m w =>
    match m w with
    | (Return a, w') => k a w'
    | (Exit code, w') => (Exit code, w')
    | (Fault, w') => (Fault, w')
    end.

Definition exit {A} (code : Z) : P A := fun w => (Exit code, w).
Definition fault {A} : P A := fun w => (Fault, w).

Definition eprint (text : list byte) : P unit :=
  fun w => (Return tt, mkWorld (files w) (stdout w) (stderr w ++ text) (log w)).
Definition print (text : list byte) : P unit :=
  fun w => (Return tt, mkWorld (files w) (stdout w ++ text) (stderr w) (log w)).
Definition emit (e : Event) : P unit :=
  fun w => (Return tt, mkWorld (files w) (stdout w) (stderr w) (log w ++ [e])).
Definition set_file (name : string) (f : File) : P unit :=
  fun w => (Return tt,
            mkWorld (<[name := f]> (files w)) (stdout w) (stderr w) (log w)).
Definition get_files : P (gmap string File) := fun w => (Return (files w), w).

Definition newline : string := String (ascii_of_nat 10) EmptyString.
Definition quote : string := String (ascii_of_nat 34) EmptyString.

(** [fopen(name, "r")]: the content when the file opens, [None] for a
    null stream. *)
Definition fopen_r (name : string) : P (option (list byte)) :=
  emit (EvOpenRead name);;
  fs ← get_files;
  match fs !! name with
  | Some f => if readable f then mret (Some (content f)) else mret None
  | None => mret None
  end.

(** [fopen(name, "w")]: truncates the file to zero length or creates it;
    [false] for a null stream. *)
Definition fopen_w (env : Env) (name : string) : P bool :=
  emit (EvOpenWrite name);;
  fs ← get_files;
  match fs !! name with
  | Some f =>
      if writable f
      then set_file name (mkFile [] (readable f) (writable f));; mret true
      else mret false
  | None =>
      if creatable env name
      then set_file name (mkFile [] true true);; mret true
      else mret false
  end.

(** ** Command line *)

Definition cmd_line_error {A} : P A :=
  eprint (bytes_of_string
    ("Usage: ./uqfaceclient portnum [--replacefile filename] "
     ++ "[--outputfilename filename] [--detectfile filename]" ++ newline));;
  exit COMMAND_LINE_ERROR.

(** The [for] loop of [parse_command_line] over [argv[i..]]. *)
Fixpoint parse_flags (args : list string) (params : CmdLineParams)
  : option CmdLineParams :=
  match args with
  | [] => Some params
  | a :: rest =>
      match rest with
      | v :: rest' =>
          if String.eqb a "--replacefile" && negb (replaceFileGiven params)
             && negb (String.eqb v "")
          then parse_flags rest'
                 (mkParams (portnum params) (detectFileGiven params)
                    (detectFile params) true (Some v)
                    (outputFileNameGiven params) (outputFileName params))
          else if String.eqb a "--outputfilename"
                  && negb (outputFileNameGiven params)
                  && negb (String.eqb v "")
          then parse_flags rest'
                 (mkParams (portnum params) (detectFileGiven params)
                    (detectFile params) (replaceFileGiven params)
                    (replaceFile params) true (Some v))
          else if String.eqb a "--detectfile"
                  && negb (detectFileGiven params)
                  && negb (String.eqb v "")
          then parse_flags rest'
                 (mkParams (portnum params) true (Some v)
                    (replaceFileGiven params) (replaceFile params)
                    (outputFileNameGiven params) (outputFileName params))
          else None
      | [] => None
      end
  end.

(** [None] stands for the call of [cmd_line_error]. *)
Definition parse_args (argv : list string) : option CmdLineParams :=
  match argv with
  | _ :: port :: flags =>
      if String.eqb port "" then None
      else parse_flags flags
             (mkParams (Some port) false None false None false None)
  | _ => None
  end.

Definition parse_command_line (argv : list string) : P CmdLineParams :=
  match parse_args argv with
  | Some params => mret params
  | None => cmd_line_error
  end.

Definition name_of (o : option string) : string := default EmptyString o.

Definition input_file_error (fileName : string) : P unit :=
  eprint (bytes_of_string
    ("uqfaceclient: unable to open the input file " ++ quote ++ fileName
     ++ quote ++ " for reading" ++ newline));;
  exit INPUT_FILE_ERROR.

Definition output_file_error (fileName : string) : P unit :=
  eprint (bytes_of_string
    ("uqfaceclient: unable to open the output file " ++ quote ++ fileName
     ++ quote ++ " for writing" ++ newline));;
  exit OUTPUT_FILE_ERROR.

Definition check_files (env : Env) (params : CmdLineParams) : P unit :=
  (if detectFileGiven params then
     file ← fopen_r (name_of (detectFile params));
     if file is None then input_file_error (name_of (detectFile params))
     else mret tt
   else mret tt);;
  (if replaceFileGiven params then
     file ← fopen_r (name_of (replaceFile params));
     if file is None then input_file_error (name_of (replaceFile params))
     else mret tt
   else mret tt);;
  (if outputFileNameGiven params then
     file ← fopen_w env (name_of (outputFileName params));
     if file : bool then mret tt
     else output_file_error (name_of (outputFileName params))
   else mret tt).

Definition port_error (port : string) : P unit :=
  eprint (bytes_of_string
    ("uqfaceclient: cannot connect to the server on port " ++ quote ++ port
     ++ quote ++ newline));;
  exit PORT_ERROR.

Definition check_port (env : Env) (port : string) : P unit :=
  emit (EvConnect port);;
  if connects env then mret tt else port_error port.

Definition communication_error : P unit :=
  eprint (bytes_of_string
    ("uqfaceclient: unexpected communication error" ++ newline));;
  exit COMMUNICATION_ERROR.

(** [read_bytes(fd, buffer, size)] on the bytes still to come from the
    server: the bytes read and the rest, or [None] for -1. *)
Definition read_bytes (size : Z) (stream : list byte)
  : option (list byte * list byte) :=
  if size <=? blen stream
  then Some (take (Z.to_nat size) stream, drop (Z.to_nat size) stream)
  else None.

(** [recieve_response]; the host is little-endian, so the [uint32_t]
    values read from the socket are the little-endian readings. *)
Definition recieve_response (stream : list byte) (params : CmdLineParams)
  : P unit :=
  match read_bytes 4 stream with
  | None => communication_error
  | Some (prefix, stream) =>
      if negb (le32toh prefix =? PREFIX) then communication_error
      else
        match read_bytes 1 stream with
        | None => communication_error
        | Some (operation, stream) =>
            match read_bytes 4 stream with
            | None => communication_error
            | Some (imageSize, stream) =>
                match read_bytes (le32toh imageSize) stream with
                | None => communication_error
                | Some (image, _) =>
                    if bool_decide (operation = [Byte.x02]) then
                      if outputFileNameGiven params then
                        fs ← get_files;
                        let name := name_of (outputFileName params) in
                        match fs !! name with
                        | Some f =>
                            if writable f
                            then set_file name
                                   (mkFile image (readable f) (writable f))
                            else fault (A:=unit)
                        | None => set_file name (mkFile image true true)
                        end
                      else print image
                    else if bool_decide (operation = [Byte.x03]) then
                      eprint (bytes_of_string
                        ("uqfaceclient: received the following error message: "
                         ++ quote));;
                      eprint image;;
                      eprint (bytes_of_string (quote ++ newline));;
                      exit (A:=unit) ERROR_MESSAGE
                    else communication_error
                end
            end
        end
  end.

Definition read_input (name : string) : P Buffer :=
  file ← fopen_r name;
  match file with
  | Some bytes => mret bytes
  | None => fault
  end.

Definition main (env : Env) (argv : list string) : P Z :=
  params ← parse_command_line argv;
  check_files env params;;
  check_port env (name_of (portnum params));;
  imageOne ← (if detectFileGiven params
              then read_input (name_of (detectFile params))
              else mret (stdin env));
  imageTwo ← (if replaceFileGiven params
              then read_input (name_of (replaceFile params))
              else mret []);
  match create_request imageOne imageTwo params with
  | None => fault
  | Some request =>
      emit (EvSend request);;
      (if send_ok env then mret tt else communication_error);;
      recieve_response (reply env request) params;;
      mret 0
  end.

(** ** Vocabulary of the statements about the client *)

(** The nine bytes before the primary image. *)
Definition header (operation : byte) (len : Z) : list byte :=
  magic ++ [operation] ++ le32_bytes len.

(** The world after these system calls were logged. *)
Definition logged (es : list Event) (w : World) : World :=
  mkWorld (files w) (stdout w) (stderr w) (log w ++ es).

(** The input files the client opens, in the order it opens them; it does
    so twice, in [check_files] and again in [main]. *)
Definition input_opens (params : CmdLineParams) : list Event :=
  (if detectFileGiven params
   then [EvOpenRead (name_of (detectFile params))] else [])
  ++ (if replaceFileGiven params
      then [EvOpenRead (name_of (replaceFile params))] else []).

(** The parameters of [uqfaceclient 8080 --detectfile face.jpg] and of
    the same command with [--replacefile smiley.png] added. *)
Definition detect_params : CmdLineParams :=
  mkParams (Some "8080"%string) true (Some "face.jpg"%string) false None
    false None.
Definition replace_params : CmdLineParams :=
  mkParams (Some "8080"%string) true (Some "face.jpg"%string) true
    (Some "smiley.png"%string) false None.

(** A primary image of 2^31 - 9 bytes: with the nine header bytes before it,
    the secondary length starts at offset 2^31. *)
Definition two_gib_image : Buffer := replicate (Z.to_nat 2147483639) Byte.x00.

(** A run of [uqfaceclient 8080 --outputfilename out.jpg]: the image
    comes from standard input, [out.jpg] exists with two bytes in it, and
    the server answers with the error frame 'invalid image'. *)
Definition rejecting_env : Env :=
  mkEnv (fun _ => true) [Byte.x00; Byte.x01] true true
    (fun _ => error_frame "invalid image").
Definition old_output : World :=
  mkWorld {[ "out.jpg"%string := mkFile [Byte.xff; Byte.xd8] true true ]}
    [] [] [].
Definition output_argv : list string :=
  ["uqfaceclient"; "8080"; "--outputfilename"; "out.jpg"]%string.
Definition output_params : CmdLineParams :=
  mkParams (Some "8080"%string) false None false None true
    (Some "out.jpg"%string).

(** One of the two input checks of [check_files]. *)
Definition check_input (given : bool) (name : string) : P unit :=
  if given then
    file ← fopen_r name;
    if file is None then input_file_error name else mret tt
  else mret tt.

(** ** [create_image_buffer] *)

Definition DEFAULT_CAPACITY : Z := 1000.

(** Conversion to [size_t] (64 bits). *)
Definition wrap64 (z : Z) : Z := z mod 18446744073709551616.

(** [realloc(bytes, capacity)]: the old content, then fresh bytes. *)
Definition realloc (bytes : list byte) (capacity : Z) : list byte :=
  take (Z.to_nat capacity) bytes
  ++ replicate (Z.to_nat capacity - length bytes) Byte.x00.

(** [fread(p, 1, count, stream)]: the bytes stored at [p] and the stream
    left; fewer than [count] bytes only at the end of the stream. *)
Definition fread (count : Z) (stream : list byte) : list byte * list byte :=
  (take (Z.to_nat count) stream, drop (Z.to_nat count) stream).

(** The [while (1)] loop of [create_image_buffer]; [bytes] is the
    allocated block, [None] an access outside it. *)
Fixpoint image_buffer_loop (fuel : nat) (capacity size : Z)
    (bytes stream : list byte) : option Buffer :=
  match fuel with
  | O => None
  | S fuel' =>
      let capacity' :=
        if size =? capacity then wrap64 (capacity * 2) else capacity in
      let bytes' :=
        if size =? capacity then realloc bytes capacity' else bytes in
      let '(got, stream') := fread (wrap64 (capacity' - size)) stream in
      bytes'' ← memcpy bytes' size got;
      let new := blen got in
      let size' := wrap64 (size + new) in
      if new =? 0 then Some (take (Z.to_nat size') bytes'')
      else image_buffer_loop fuel' capacity' size' bytes'' stream'
  end.

(** [create_image_buffer(stream)]: every turn but the last reads at least
    one byte, so one turn more than the stream has bytes ends the loop. *)
Definition create_image_buffer (stream : list byte) : option Buffer :=
  image_buffer_loop (S (length stream)) DEFAULT_CAPACITY 0
    (malloc DEFAULT_CAPACITY) stream.

(** 2^62: below it no [size_t] of the loop wraps. *)
Definition SIZE_LIMIT : Z := 4611686018427387904.

(** ** Vocabulary of the statements about a run *)

(** What the client prints for an operation-3 reply with this payload. *)
Definition error_report (payload : list byte) : list byte :=
  bytes_of_string ("uqfaceclient: received the following error message: "
                   ++ quote)
  ++ payload ++ bytes_of_string (quote ++ newline).

Definition communication_report : list byte :=
  bytes_of_string ("uqfaceclient: unexpected communication error" ++ newline).



(** [fopen(name, "r")] gives a stream, respectively the null pointer. *)
Definition opens (w : World) (name : string) : Prop :=
  exists f, files w !! name = Some f /\ readable f = true.
Definition fails_to_open (w : World) (name : string) : Prop :=
  forall f, files w !! name = Some f -> readable f = false.

(** The input file is not asked for, or it opens. *)
Definition input_ready (w : World) (given : bool) (name : option string)
  : Prop :=
  given = true -> opens w (name_of name).

(** [fopen(name, "w")] gives the null pointer. *)
Definition fails_to_create (env : Env) (w : World) (name : string) : Prop :=
  match files w !! name with
  | Some f => writable f = false
  | None => creatable env name = false
  end.

(** The files after a successful [fopen(name, "w")] of the output file, if
    one was named. *)
Definition truncated (params : CmdLineParams) (w : World)
  : gmap string File :=
  if outputFileNameGiven params then
    let name := name_of (outputFileName params) in
    match files w !! name with
    | Some f => <[name := mkFile [] (readable f) (writable f)]> (files w)
    | None => <[name := mkFile [] true true]> (files w)
    end
  else files w.

Definition output_opens (params : CmdLineParams) : list Event :=
  if outputFileNameGiven params
  then [EvOpenWrite (name_of (outputFileName params))] else [].

Definition input_report (name : string) : list byte :=
  bytes_of_string ("uqfaceclient: unable to open the input file " ++ quote
                   ++ name ++ quote ++ " for reading" ++ newline).
Definition output_report (name : string) : list byte :=
  bytes_of_string ("uqfaceclient: unable to open the output file " ++ quote
                   ++ name ++ quote ++ " for writing" ++ newline).
Definition port_report (port : string) : list byte :=
  bytes_of_string ("uqfaceclient: cannot connect to the server on port "
                   ++ quote ++ port ++ quote ++ newline).

(** [uqfaceclient 8080 --detectfile face.jpg --outputfilename out.jpg],
    run where [face.jpg] does not exist. *)
Definition missing_input_argv : list string :=
  ["uqfaceclient"; "8080"; "--detectfile"; "face.jpg";
   "--outputfilename"; "out.jpg"]%string.
Definition missing_input_params : CmdLineParams :=
  mkParams (Some "8080"%string) true (Some "face.jpg"%string) false None true
    (Some "out.jpg"%string).

(** The number of options the parameters record. *)
Definition options_given (params : CmdLineParams) : nat :=
  ((if detectFileGiven params then 1 else 0)
   + (if replaceFileGiven params then 1 else 0)
   + (if outputFileNameGiven params then 1 else 0))%nat.

(** A name is recorded, and is not empty, exactly when its flag is set. *)
Definition recorded (given : bool) (name : option string) : Prop :=
  if given then exists s, name = Some s /\ s <> EmptyString
  else name = None.

Definition well_formed (params : CmdLineParams) : Prop :=
  recorded true (portnum params)
  /\ recorded (detectFileGiven params) (detectFile params)
  /\ recorded (replaceFileGiven params) (replaceFile params)
  /\ recorded (outputFileNameGiven params) (outputFileName params).

(** The arguments after the port, as pairs of an option and its value,
    written out again. *)
Fixpoint flatten (options : list (string * string)) : list string :=
  match options with
  | [] => []
  | (a, v) :: rest => a :: v :: flatten rest
  end.

(** Two options, and the same two the other way round. *)
Definition detect_then_output : list (string * string) :=
  [("--detectfile", "face.jpg"); ("--outputfilename", "out.jpg")]%string.
Definition output_then_detect : list (string * string) :=
  [("--outputfilename", "out.jpg"); ("--detectfile", "face.jpg")]%string.


End Client.

(* ===================================================================== *)
(** * The server, [src/facedetect.c]: command line and connection worker *)
(* ===================================================================== *)

Module Server.
Import Wire.

Definition ERROR_OPERATION : byte := Byte.x03.
Definition COMMAND_LINE_ERROR : Z := 19.
Definition PORTNUM_INDEX : Z := 3.
Definition EXTRA_CMD_LINE_ARGS : Z := 4.
Definition PORTNUM_INCLUDED : Z := 4.
Definition OPERATION_ERROR : Z := 5.
Definition MAX_CONNECTIONS : Z := 10000.
Definition FOUR_BYTES : Z := 4.
Definition ULONG_MAX : Z := 18446744073709551615.
Definition LONG_MAX : Z := 9223372036854775807.

(** ** Command line *)

Record CmdLineParams := mkParams {
  connectionLimit : Z;
  maxSize : Z;
  portnum : string;
  portnumGiven : bool
}.

(** A call either returns or ends the process through [exit]. *)
Inductive Outcome (A : Type) : Type :=
| Return (a : A)
| Exit (code : Z) (err : string).
Arguments Return {A} a.
Arguments Exit {A} code err.

Definition newline : string := String (ascii_of_nat 10) EmptyString.

Definition isdigit (c : ascii) : bool :=
  let n := Z.of_N (N_of_ascii c) in (48 <=? n) && (n <=? 57).

(** The [while (i < length)] loop of [valid_cmd_line_number]. *)
Fixpoint all_digits (s : string) : bool :=
  match s with
  | EmptyString => true
  | String c rest => if isdigit c then all_digits rest else false
  end.

Definition valid_cmd_line_number (number : option string) : bool :=
  match number with
  | None => false
  | Some s =>
      let length := Z.of_nat (String.length s) in
      if length =? 0 then false
      else match s with
           | String "+"%char rest =>
               if length =? 1 then false else all_digits rest
           | _ => all_digits s
           end
  end.

(** The value of the leading decimal digits, as [strtoul] and [atoi]
    accumulate it before they clamp. *)
Fixpoint digits_value (acc : Z) (s : string) : Z :=
  match s with
  | EmptyString => acc
  | String c rest =>
      if isdigit c
      then digits_value (10 * acc + (Z.of_N (N_of_ascii c) - 48)) rest
      else acc
  end.

Definition decimal (s : string) : Z :=
  match s with
  | String "+"%char rest => digits_value 0 rest
  | _ => digits_value 0 s
  end.

(** [strtoul(s, NULL, 10)] on an unsigned decimal string: the value and
    whether [errno] became [ERANGE] ([unsigned long] has 64 bits). *)
Definition strtoul (s : string) : Z * bool :=
  let v := decimal s in
  if v >? ULONG_MAX then (ULONG_MAX, true) else (v, false).

(** [atoi(s)] on an unsigned decimal string, as glibc computes it:
    [(int) strtol(s, NULL, 10)], where [strtol] clamps at [LONG_MAX]. *)
Definition atoi (s : string) : Z := wrap_int (Z.min (decimal s) LONG_MAX).

Definition command_line_error {A} : Outcome A :=
  Exit COMMAND_LINE_ERROR
    ("Usage: ./uqfacedetect connectionlimit maxsize [portnumber]" ++ newline).

(** [argv[i]]; the callers stay below [argc]. *)
Definition arg (argv : list string) (i : nat) : string :=
  default EmptyString (argv !! i).

Definition parse_command_line (argv : list string) : Outcome CmdLineParams :=
  let argc := Z.of_nat (length argv) in
  if (argc <? PORTNUM_INDEX) || (argc >? EXTRA_CMD_LINE_ARGS)
  then command_line_error
  else if negb (valid_cmd_line_number (argv !! 1%nat))
  then command_line_error
  else
    let connectionLimit := atoi (arg argv 1) in
    if connectionLimit >? MAX_CONNECTIONS then command_line_error
    else if negb (valid_cmd_line_number (argv !! 2%nat))
    then command_line_error
    else
      let '(test, erange) := strtoul (arg argv 2) in
      if erange || (test >? UINT32_MAX) then command_line_error
      else
        let maxSize := wrap32 test in
        let maxSize := if maxSize =? 0 then UINT32_MAX else maxSize in
        let params := mkParams connectionLimit maxSize "0" false in
        if argc =? PORTNUM_INCLUDED then
          if String.eqb (arg argv 3) "" then command_line_error
          else if valid_cmd_line_number (argv !! 3%nat)
                  && (atoi (arg argv 3) =? 0)
          then Return params
          else Return (mkParams connectionLimit maxSize (arg argv 3) true)
        else Return params.

(** ** The connection as the worker sees it *)

(** [Statistics], without its mutex (module [Admission] has the lock). *)
Record Statistics := mkStats {
  currClients : Z;
  prevClients : Z;
  faceDetections : Z;
  faceReplacements : Z;
  badRequests : Z
}.

(** What one worker touches: the bytes the peer has sent and the worker
    has not read yet (end of file follows them), the bytes the worker has
    handed to [send] so far, whether it called [shutdown(SHUT_WR)] and
    [close], the shared statistics and the admission semaphore. *)
Record World := mkWorld {
  input : list byte;
  sent : list byte;
  shut_wr : bool;
  closed : bool;
  stats : Statistics;
  semaphore : Z
}.

(** The fields of [ClientInfo] that decide control flow. *)
Record ClientInfo := mkInfo {
  limitConnections : bool;   (* is the semaphore pointer non-null *)
  info_maxSize : Z
}.

Definition M (A : Type) : Type := World -> A * World.

#[global] Instance M_ret : MRet M := fun A a w => (a, w).
#[global] Instance M_bind : MBind M :=
  fun A B k m w => let '(a, w') := m w in k a w'.

Definition run {A} (m : M A) (w : World) : World := snd (m w).

Definition set_input (i : list byte) : M unit :=
  fun w => (tt, mkWorld i (sent w) (shut_wr w) (closed w) (stats w) (semaphore w)).
Definition set_stats (s : Statistics) : M unit :=
  fun w => (tt, mkWorld (input w) (sent w) (shut_wr w) (closed w) s (semaphore w)).
Definition get_world : M World := fun w => (w, w).

(** [read_bytes(fd, buf, totalSize)]: [Some] of the bytes when all of them
    arrived, [None] for the result -1.  A short stream is consumed up to
    its end before [read] reports end of file. *)
Definition read_bytes (totalSize : Z) : M (option (list byte)) :=
  w ← get_world;
  if totalSize <=? blen (input w)
  then set_input (drop (Z.to_nat totalSize) (input w));;
       mret (Some (take (Z.to_nat totalSize) (input w)))
  else set_input [];; mret None.

(** [send_bytes(fd, buf, totalSize)]: the bytes are handed to [send];
    no caller looks at the result. *)
Definition send_bytes (bs : list byte) (totalSize : Z) : M unit :=
  fun w => (tt, mkWorld (input w) (sent w ++ take (Z.to_nat totalSize) bs)
                  (shut_wr w) (closed w) (stats w) (semaphore w)).

Definition shutdown_wr : M unit :=
  fun w => (tt, mkWorld (input w) (sent w) true (closed w) (stats w) (semaphore w)).
Definition close : M unit :=
  fun w => (tt, mkWorld (input w) (sent w) (shut_wr w) true (stats w) (semaphore w)).

Definition send_output (operation : byte) (output : list byte) (size : Z)
  : M unit :=
  let prefix := le32_bytes PREFIX in
  let length := le32_bytes size in
  send_bytes prefix FOUR_BYTES;;
  send_bytes [operation] 1;;
  send_bytes length FOUR_BYTES;;
  send_bytes output size.

(** [(uint32_t)(sizeof(text) - 1)] *)
Definition strlen32 (text : string) : Z := wrap32 (Z.of_nat (String.length text)).

(** The shape shared by [invalid_message], [wrong_operation],
    [invalid_image], [no_faces] and the two branches of
    [check_image_size]: one operation-3 frame, then half-close, close. *)
Definition error_reply (text : string) : M unit :=
  send_output ERROR_OPERATION (bytes_of_string text) (strlen32 text);;
  shutdown_wr;;
  close.

Definition invalid_message : M unit := error_reply "invalid message".
Definition wrong_operation : M unit := error_reply "invalid operation type".
Definition invalid_image : M unit := error_reply "invalid image".
Definition no_faces : M unit := error_reply "no faces detected in image".

(** The bytes a file of this content yields when its size goes through
    [(uint32_t)stat.st_size]. *)
Definition file_bytes_u32 (content : list byte) : list byte :=
  take (Z.to_nat (wrap32 (blen content))) content.

Definition send_prefix_file (responsefile : list byte) : M unit :=
  let fileSize := wrap32 (blen responsefile) in
  let output := take (Z.to_nat fileSize) responsefile in
  send_bytes output fileSize.

Definition bad_request (responsefile : list byte) : M unit :=
  w ← get_world;
  let s := stats w in
  set_stats (mkStats (currClients s) (prevClients s) (faceDetections s)
               (faceReplacements s) (wrap32 (badRequests s + 1)));;
  send_prefix_file responsefile;;
  shutdown_wr;;
  close.

(** Returns 1 ([true]) if invalid and 0 ([false]) if valid. *)
Definition check_image_size (imageSize : Z) (info : ClientInfo) : M bool :=
  if imageSize =? 0 then
    error_reply "image is 0 bytes";; mret true
  else if negb (info_maxSize info =? 0) && (imageSize >? info_maxSize info) then
    error_reply "image too large";; mret true
  else mret false.

(** Returns 0 ([false]) if the prefix is valid, else 1 ([true]). *)
Definition check_prefix (responsefile : list byte) : M bool :=
  r ← read_bytes FOUR_BYTES;
  match r with
  | None => invalid_message;; mret true
  | Some prefix =>
      if negb (le32toh prefix =? PREFIX)
      then bad_request responsefile;; mret true
      else mret false
  end.

(** Returns the operation (0, 1) if valid, else 5. *)
Definition check_operation : M Z :=
  r ← read_bytes 1;
  match r with
  | Some [operation] =>
      if byte_to_Z operation >? 1
      then wrong_operation;; mret OPERATION_ERROR
      else mret (byte_to_Z operation)
  | _ => invalid_message;; mret OPERATION_ERROR
  end.

(** Returns the validated image size, or 0 if an error occurs. *)
Definition determine_image_size (info : ClientInfo) : M Z :=
  r ← read_bytes FOUR_BYTES;
  match r with
  | None => invalid_message;; mret 0
  | Some imageOneSizeLittleEndian =>
      let imageOneSize := le32toh imageOneSizeLittleEndian in
      bad ← check_image_size imageOneSize info;
      if bad : bool then mret 0 else mret imageOneSize
  end.

(** ** The image pipeline behind its interface *)

(** The OpenCV calls of the worker.  [load_color] is [create_frame] (the
    scratch file written, then [cvLoadImage] in colour; [None] is the null
    frame), [load_unchanged] the same for the replacement image,
    [find_faces] the face detection ([None] is the null sequence, else
    [faces->total]), [detect_file] and [replace_file] the content of the
    scratch file after [cvSaveImage] of the annotated, respectively
    composited, frame. *)
Class Vision := {
  Frame : Type;
  load_color : list byte -> option Frame;
  load_unchanged : list byte -> option Frame;
  find_faces : Frame -> option Z;
  detect_file : Frame -> list byte;
  replace_file : Frame -> Frame -> list byte
}.

Section Worker.
Context `{V : Vision}.
Variable responsefile : list byte.
Variable info : ClientInfo.

Definition output_face_detection (file : list byte) : M unit :=
  let outputSize := wrap32 (blen file) in
  let output := take (Z.to_nat outputSize) file in
  send_output Byte.x02 output outputSize.

(** The reading half of [create_replacement]: [None] is a null result
    with the error already replied. *)
Definition read_replacement : M (option (list byte)) :=
  r ← read_bytes FOUR_BYTES;
  match r with
  | None => invalid_message;; mret None
  | Some imageTwoSizeLittleEndian =>
      let imageTwoSize := le32toh imageTwoSizeLittleEndian in
      bad ← check_image_size imageTwoSize info;
      if bad : bool then mret None
      else
        r ← read_bytes imageTwoSize;
        match r with
        | None => invalid_message;; mret None
        | Some image => mret (Some image)
        end
  end.

Definition create_replacement : M (option Frame) :=
  r ← read_replacement;
  match r with
  | None => mret None
  | Some image =>
      match load_unchanged image with
      | None => invalid_image;; mret None
      | Some frame => mret (Some frame)
      end
  end.

Definition bump_faceReplacements : M unit :=
  w ← get_world;
  let s := stats w in
  set_stats (mkStats (currClients s) (prevClients s) (faceDetections s)
               (wrap32 (faceReplacements s + 1)) (badRequests s)).

Definition bump_faceDetections : M unit :=
  w ← get_world;
  let s := stats w in
  set_stats (mkStats (currClients s) (prevClients s)
               (wrap32 (faceDetections s + 1)) (faceReplacements s)
               (badRequests s)).

(** Returns 0 ([false]) on success, 1 ([true]) on error. *)
Definition execute_replacement (frame : Frame) : M bool :=
  r ← create_replacement;
  match r with
  | None => mret true
  | Some replacement =>
      output_face_detection (replace_file frame replacement);;
      bump_faceReplacements;;
      mret false
  end.

(** Returns 0 ([false]) on success, 1 ([true]) on failure. *)
Definition image_executor (image : list byte) (operation : Z) : M bool :=
  match load_color image with
  | None => invalid_image;; mret true
  | Some frame =>
      match find_faces frame with
      | None => no_faces;; mret true
      | Some total =>
          if total =? 0 then no_faces;; mret true
          else if operation =? 0 then
            output_face_detection (detect_file frame);;
            bump_faceDetections;;
            mret false
          else execute_replacement frame
      end
  end.

(** One turn of the [while (1)] loop of [task_executor]: [true] when
    the loop goes round again, [false] on [break]. *)
Definition serve_request : M bool :=
  bad ← check_prefix responsefile;
  if bad : bool then mret false
  else
    operation ← check_operation;
    if operation =? OPERATION_ERROR then mret false
    else
      imageOneSize ← determine_image_size info;
      if 0 =? imageOneSize then mret false
      else
        r ← read_bytes imageOneSize;
        match r with
        | None => invalid_message;; mret false
        | Some image =>
            failed ← image_executor image operation;
            mret (negb failed)
        end.

(** The loop, bounded by a number of turns. *)
Fixpoint serve_loop (turns : nat) : M unit :=
  match turns with
  | O => mret tt
  | S turns' =>
      again ← serve_request;
      if again : bool then serve_loop turns' else mret tt
  end.

Definition sem_post : M unit :=
  fun w => (tt, mkWorld (input w) (sent w) (shut_wr w) (closed w)
                  (stats w) (semaphore w + 1)).

Definition update_client_stats : M unit :=
  w ← get_world;
  let s := stats w in
  set_stats (mkStats (wrap32 (currClients s - 1)) (wrap32 (prevClients s + 1))
               (faceDetections s) (faceReplacements s) (badRequests s)).

(** [task_executor]: every turn that goes round again has consumed
    input, so one turn more than the unread bytes ends the loop. *)
Definition task_executor : M unit :=
  w ← get_world;
  serve_loop (S (length (input w)));;
  (if limitConnections info then sem_post else mret tt);;
  update_client_stats.

End Worker.

(** ** Vocabulary of the statements about the worker *)

(** The same connection with these bytes left to read. *)
Definition with_input (i : list byte) (w : World) : World :=
  mkWorld i (sent w) (shut_wr w) (closed w) (stats w) (semaphore w).

(** The connection after one error frame with this text went out and the
    socket was half-closed and closed: nothing else changed. *)
Definition replied (text : string) (w : World) : World :=
  mkWorld (input w) (sent w ++ error_frame text) true true (stats w)
    (semaphore w).

(** The connection after [bad_request]: [badRequests] counted up, the
    response file sent, the socket half-closed and closed. *)
Definition bad_requested (responsefile : list byte) (w : World) : World :=
  mkWorld (input w) (sent w ++ file_bytes_u32 responsefile) true true
    (mkStats (currClients (stats w)) (prevClients (stats w))
       (faceDetections (stats w)) (faceReplacements (stats w))
       (wrap32 (badRequests (stats w) + 1)))
    (semaphore w).

(** A computation that leaves [badRequests] as it found it. *)
Definition keeps_badRequests {A} (m : M A) : Prop :=
  forall w, badRequests (stats (snd (m w))) = badRequests (stats w).

(** A stand-in for OpenCV: every byte string decodes, each frame shows one
    face, and saving a frame gives back the bytes it was loaded from
    (the replacement's, for a replace request). *)
Definition echo_vision : Vision :=
  {| Frame := list byte;
     load_color := Some;
     load_unchanged := Some;
     find_faces := fun _ => Some 1;
     detect_file := fun frame => frame;
     replace_file := fun _ replacement => replacement |}.

(** A connection just accepted, with all the peer will ever send. *)
Definition accepted_connection (bytes : list byte) : World :=
  mkWorld bytes [] false false (mkStats 1 0 0 0 0) 0.

(** A response file, and the worker's view of two configurations:
    [uqfacedetect 0 0] (no semaphore, cap [UINT32_MAX]) and
    [uqfacedetect 0 1000]. *)
Definition canned_response : list byte := bytes_of_string "bad request".
Definition uncapped : ClientInfo := mkInfo false UINT32_MAX.
Definition capped_1000 : ClientInfo := mkInfo false 1000.

(** A detect request carrying two bytes, and the reply to it under
    [echo_vision]. *)
Definition small_request : list byte := frame Byte.x00 [Byte.xff; Byte.xd8].
Definition small_reply : list byte := frame Byte.x02 [Byte.xff; Byte.xd8].

(** ** One turn of the loop, and the loop, as the statements see them *)

(** What a turn of the loop sends: the operation-2 frame of a served
    request, an operation-3 frame, or the response file. *)
Inductive Reply : Type :=
| Success (operation : Z) (file : list byte)
| Failure (text : string)
| Canned.

(** The loop goes round again after this reply. *)
Definition continues (r : Reply) : bool :=
  match r with Success _ _ => true | _ => false end.

(** The payloads of the error frames of [facedetect.c]. *)
Definition error_texts : list string :=
  [ "invalid message"; "invalid operation type"; "image is 0 bytes";
    "image too large"; "invalid image"; "no faces detected in image" ]%string.

(** The statistics after a request of this operation was served. *)
Definition count_success (operation : Z) (s : Statistics) : Statistics :=
  if operation =? 0
  then mkStats (currClients s) (prevClients s) (wrap32 (faceDetections s + 1))
         (faceReplacements s) (badRequests s)
  else mkStats (currClients s) (prevClients s) (faceDetections s)
         (wrap32 (faceReplacements s + 1)) (badRequests s).

(** The operation-2 frame that carries an output file. *)
Definition success_frame (file : list byte) : list byte :=
  frame Byte.x02 (file_bytes_u32 file).

(** The connection after a turn that read [n] bytes and sent [r]. *)
Definition turn (responsefile : list byte) (n : nat) (r : Reply) (w : World)
  : World :=
  let w1 := with_input (drop n (input w)) w in
  match r with
  | Success operation file =>
      mkWorld (input w1) (sent w1 ++ success_frame file)
        (shut_wr w1) (closed w1) (count_success operation (stats w1))
        (semaphore w1)
  | Failure text => replied text w1
  | Canned => bad_requested responsefile w1
  end.

(** The reply is one the code has. *)
Definition expected (r : Reply) : Prop :=
  match r with
  | Success operation _ => operation = 0 \/ operation = 1
  | Failure text => In text error_texts
  | Canned => True
  end.

(** A detect request for an image, as it travels. *)
Definition detect_request (image : list byte) : list byte :=
  frame Byte.x00 image.

Section Connection.
Context `{V : Vision}.
Variable responsefile : list byte.
Variable info : ClientInfo.

(** The [while (1)] loop of [task_executor] with no bound on its turns:
    it ends when a turn breaks; [n] counts the turns that went round. *)
Inductive loop_ends : nat -> World -> World -> Prop :=
| loop_break w w' :
    serve_request responsefile info w = (false, w') -> loop_ends 0 w w'
| loop_again n w w1 w' :
    serve_request responsefile info w = (true, w1) ->
    loop_ends n w1 w' -> loop_ends (S n) w w'.

(** What the turns of a loop that ended add up to. *)
Record Transcript (n : nat) (w w' : World) : Prop := {
  tr_closed : closed w' = true /\ shut_wr w' = true;
  tr_slot : currClients (stats w') = currClients (stats w)
            /\ prevClients (stats w') = prevClients (stats w)
            /\ semaphore w' = semaphore w;
  tr_sent : exists files final detections replacements,
      sent w' = sent w ++ concat (map success_frame files) ++ final
      /\ length files = n
      /\ (detections + replacements = n)%nat
      /\ wrap32 (faceDetections (stats w'))
         = wrap32 (faceDetections (stats w) + Z.of_nat detections)
      /\ wrap32 (faceReplacements (stats w'))
         = wrap32 (faceReplacements (stats w) + Z.of_nat replacements)
      /\ ((final = file_bytes_u32 responsefile
           /\ badRequests (stats w') = wrap32 (badRequests (stats w) + 1))
          \/ (exists text, In text error_texts /\ final = error_frame text
                           /\ badRequests (stats w') = badRequests (stats w)))
}.

(** The image passes the size checks of [check_image_size]. *)
Definition acceptable (image : list byte) : Prop :=
  0 < blen image <= UINT32_MAX
  /\ (info_maxSize info = 0 \/ blen image <= info_maxSize info).

(** The image decodes and the detector finds a face in it. *)
Definition shows_face (image : list byte) : Prop :=
  exists decoded total,
    load_color image = Some decoded /\ find_faces decoded = Some total
    /\ total <> 0.

(** The reply to a detect request for an image that shows a face. *)
Definition detect_reply (image : list byte) : list byte :=
  match load_color image with
  | Some decoded => success_frame (detect_file decoded)
  | None => []
  end.


End Connection.

(** Two images to detect faces in, one request after the other. *)
Definition two_detect_requests : list (list byte) :=
  [[Byte.xff; Byte.xd8]; [Byte.x89]].

(** A connection on which the peer sent these two requests and closed. *)
Definition two_requests_connection : World :=
  accepted_connection (concat (map detect_request two_detect_requests)).

(** The port argument stands for the ephemeral port. *)
Definition ephemeral (port : string) : bool :=
  valid_cmd_line_number (Some port) && (decimal port =? 0).


End Server.

(* ===================================================================== *)
(** * Admission and the statistics mutex: [new_connection],
      [task_executor], [update_client_stats] as interleaved threads *)
(* ===================================================================== *)

Module Admission.
Import Wire.

Inductive Thread : Type :=
| Acceptor
| Worker (n : nat).

#[global] Instance Thread_eq_dec : EqDecision Thread.
Proof. solve_decision. Defined.

(** Where the accept loop of [new_connection] stands. *)
Inductive APc : Type :=
| ASemWait   (* if (limitConnections) sem_wait(limitConnections); *)
| AAccept    (* accept(listenfd, NULL, NULL) *)
| ALock      (* pthread_mutex_lock(&stats->statsLock) *)
| AInc       (* (stats->currClients)++ *)
| AUnlock    (* pthread_mutex_unlock(&stats->statsLock) *)
| ASpawn.    (* pthread_create(..., task_executor, clientInfo) *)

(** The per-request counters a worker bumps while it serves. *)
Inductive Counter : Type := Detections | Replacements | BadRequests.

(** Where a worker stands in [task_executor]. *)
Inductive WPc : Type :=
| WServe                  (* inside the while (1) loop *)
| WReqLock (c : Counter)  (* lock before a per-request counter *)
| WReqInc (c : Counter)   (* the counter's ++ *)
| WReqUnlock              (* unlock after it *)
| WPost                   (* if (info->limitConnections != NULL) sem_post *)
| WLock                   (* update_client_stats: lock *)
| WDec                    (* (info->stats->currClients)-- *)
| WInc                    (* (info->stats->prevClients)++ *)
| WUnlock.                (* unlock, then the thread returns *)

Record State := mkState {
  stats : Server.Statistics;
  statsLock : option Thread;        (* the owner, when locked *)
  limitConnections : option Z;      (* the semaphore's value; None: null *)
  acceptor : APc;
  workers : gmap nat WPc;
  accepted : nat                    (* connections accept has returned *)
}.

(** [main]: the semaphore exists when [connectionLimit] is not 0. *)
Definition init (connectionLimit : Z) : State :=
  mkState (Server.mkStats 0 0 0 0 0) None
    (if connectionLimit =? 0 then None else Some connectionLimit)
    ASemWait ∅ 0.

Definition curr_incr (s : Server.Statistics) : Server.Statistics :=
  Server.mkStats (wrap32 (Server.currClients s + 1)) (Server.prevClients s)
    (Server.faceDetections s) (Server.faceReplacements s) (Server.badRequests s).
Definition curr_decr (s : Server.Statistics) : Server.Statistics :=
  Server.mkStats (wrap32 (Server.currClients s - 1)) (Server.prevClients s)
    (Server.faceDetections s) (Server.faceReplacements s) (Server.badRequests s).
Definition prev_incr (s : Server.Statistics) : Server.Statistics :=
  Server.mkStats (Server.currClients s) (wrap32 (Server.prevClients s + 1))
    (Server.faceDetections s) (Server.faceReplacements s) (Server.badRequests s).
Definition bump (c : Counter) (s : Server.Statistics) : Server.Statistics :=
  match c with
  | Detections =>
      Server.mkStats (Server.currClients s) (Server.prevClients s)
        (wrap32 (Server.faceDetections s + 1)) (Server.faceReplacements s)
        (Server.badRequests s)
  | Replacements =>
      Server.mkStats (Server.currClients s) (Server.prevClients s)
        (Server.faceDetections s) (wrap32 (Server.faceReplacements s + 1))
        (Server.badRequests s)
  | BadRequests =>
      Server.mkStats (Server.currClients s) (Server.prevClients s)
        (Server.faceDetections s) (Server.faceReplacements s)
        (wrap32 (Server.badRequests s + 1))
  end.

Definition sem_post_value (sem : option Z) : option Z :=
  match sem with Some n => Some (n + 1) | None => None end.

(** One atomic action of one thread. *)
Inductive step : Thread -> State -> State -> Prop :=
| a_sem_wait st l n w k :
    0 < n ->
    step Acceptor (mkState st l (Some n) ASemWait w k)
                  (mkState st l (Some (n - 1)) AAccept w k)
| a_no_sem st l w k :
    step Acceptor (mkState st l None ASemWait w k)
                  (mkState st l None AAccept w k)
| a_accept st l sem w k :
    step Acceptor (mkState st l sem AAccept w k)
                  (mkState st l sem ALock w (S k))
| a_lock st sem w k :
    step Acceptor (mkState st None sem ALock w k)
                  (mkState st (Some Acceptor) sem AInc w k)
| a_inc st l sem w k :
    step Acceptor (mkState st l sem AInc w k)
                  (mkState (curr_incr st) l sem AUnlock w k)
| a_unlock st l sem w k :
    step Acceptor (mkState st l sem AUnlock w k)
                  (mkState st None sem ASpawn w k)
| a_spawn st l sem w k :
    step Acceptor (mkState st l sem ASpawn w k)
                  (mkState st l sem ASemWait (<[pred k := WServe]> w) k)
| w_request t c st l sem a w k :
    w !! t = Some WServe ->
    step (Worker t) (mkState st l sem a w k)
                    (mkState st l sem a (<[t := WReqLock c]> w) k)
| w_req_lock t c st sem a w k :
    w !! t = Some (WReqLock c) ->
    step (Worker t) (mkState st None sem a w k)
                    (mkState st (Some (Worker t)) sem a (<[t := WReqInc c]> w) k)
| w_req_inc t c st l sem a w k :
    w !! t = Some (WReqInc c) ->
    step (Worker t) (mkState st l sem a w k)
                    (mkState (bump c st) l sem a (<[t := WReqUnlock]> w) k)
| w_req_unlock t st l sem a w k :
    w !! t = Some WReqUnlock ->
    step (Worker t) (mkState st l sem a w k)
                    (mkState st None sem a (<[t := WServe]> w) k)
| w_break t st l sem a w k :
    w !! t = Some WServe ->
    step (Worker t) (mkState st l sem a w k)
                    (mkState st l sem a (<[t := WPost]> w) k)
| w_post t st l sem a w k :
    w !! t = Some WPost ->
    step (Worker t) (mkState st l sem a w k)
                    (mkState st l (sem_post_value sem) a (<[t := WLock]> w) k)
| w_lock t st sem a w k :
    w !! t = Some WLock ->
    step (Worker t) (mkState st None sem a w k)
                    (mkState st (Some (Worker t)) sem a (<[t := WDec]> w) k)
| w_dec t st l sem a w k :
    w !! t = Some WDec ->
    step (Worker t) (mkState st l sem a w k)
                    (mkState (curr_decr st) l sem a (<[t := WInc]> w) k)
| w_inc t st l sem a w k :
    w !! t = Some WInc ->
    step (Worker t) (mkState st l sem a w k)
                    (mkState (prev_incr st) l sem a (<[t := WUnlock]> w) k)
| w_unlock t st l sem a w k :
    w !! t = Some WUnlock ->
    step (Worker t) (mkState st l sem a w k)
                    (mkState st None sem a (delete t w) k).

Inductive reachable (connectionLimit : Z) : State -> Prop :=
| reach_init : reachable connectionLimit (init connectionLimit)
| reach_step t s s' :
    reachable connectionLimit s -> step t s s' ->
    reachable connectionLimit s'.

(** Updates that are under way: the acceptor between the return of
    [accept] and its [currClients++], and the worker that holds the mutex
    between its [currClients--] and its [prevClients++]. *)
Definition pending_accept (s : State) : Z :=
  match acceptor s with
  | ALock | AInc => 1
  | _ => 0
  end.

Definition pending_exit (s : State) : Z :=
  match statsLock s with
  | Some (Worker t) =>
      match workers s !! t with
      | Some WInc => 1
      | _ => 0
      end
  | _ => 0
  end.

(** No update of [currClients] or [prevClients] is under way. *)
Definition settled (s : State) : Prop :=
  pending_accept s = 0 /\ pending_exit s = 0.

(** ** The invariants behind the statements *)

(** The worker is between a lock and the unlock that follows it. *)
Definition critical (pc : WPc) : bool :=
  match pc with
  | WReqInc _ | WReqUnlock | WDec | WInc | WUnlock => true
  | _ => false
  end.

Definition acceptor_critical (a : APc) : bool :=
  match a with AInc | AUnlock => true | _ => false end.

(** The acceptor has a connection in hand whose worker is not started. *)
Definition acceptor_holds (a : APc) : bool :=
  match a with ALock | AInc | AUnlock | ASpawn => true | _ => false end.

Record LockInv (s : State) : Prop := {
  inv_acc_lock :
    acceptor_critical (acceptor s) = true <-> statsLock s = Some Acceptor;
  inv_wrk_lock : forall t pc, workers s !! t = Some pc ->
    (critical pc = true <-> statsLock s = Some (Worker t));
  inv_lock_wrk : forall t, statsLock s = Some (Worker t) ->
    is_Some (workers s !! t);
  inv_fresh : forall t, is_Some (workers s !! t) ->
    (t < accepted s)%nat /\
    (acceptor_holds (acceptor s) = true -> t <> pred (accepted s));
  inv_held : acceptor_holds (acceptor s) = true -> (0 < accepted s)%nat
}.

(** The worker's connection is still counted in [currClients]. *)
Definition counted (pc : WPc) : bool :=
  match pc with WInc | WUnlock => false | _ => true end.

Definition cnt (w : gmap nat WPc) : nat :=
  size (filter (fun p => counted p.2 = true) w).

Definition acceptor_counted (a : APc) : nat :=
  match a with AUnlock | ASpawn => 1 | _ => 0 end.

(** The connections [currClients] stands for, before any wrap-around. *)
Definition live (s : State) : nat :=
  (cnt (workers s) + acceptor_counted (acceptor s))%nat.

(** The counters are the wrapped images of the true numbers of live and of
    exited connections, which add up to the accepted ones. *)
Record Exact (s : State) (exited : nat) : Prop := {
  exact_curr : Server.currClients (stats s) = wrap32 (Z.of_nat (live s));
  exact_prev : Server.prevClients (stats s) = wrap32 (Z.of_nat exited);
  exact_sum : Z.of_nat (live s) + Z.of_nat exited
              + pending_accept s + pending_exit s = Z.of_nat (accepted s)
}.

(** [pending_exit], read off the lock's owner and the workers. *)
Definition pexit (l : option Thread) (w : gmap nat WPc) : Z :=
  match l with
  | Some (Worker t) => match w !! t with Some WInc => 1 | _ => 0 end
  | _ => 0
  end.

(** The state after [n] connections were accepted, served and closed one
    after the other, with no connection limit. *)
Definition served (n : nat) : State :=
  mkState (Server.mkStats 0 (wrap32 (Z.of_nat n)) 0 0 0) None None
    ASemWait ∅ n.

(** The first connection was accepted a moment ago: [accept] has returned
    and the acceptor stands before its lock. *)
Definition just_accepted : State :=
  mkState (Server.mkStats 0 0 0 0 0) None None ALock ∅ 1.

(** 2^32 connections were accepted, served and closed. *)
Definition wrapped_around : State :=
  mkState (Server.mkStats 0 0 0 0 0) None None ASemWait ∅
    (Z.to_nat 4294967296).

(** ** The admission semaphore *)

#[global] Instance Counter_eq_dec : EqDecision Counter.
Proof. solve_decision. Defined.

#[global] Instance WPc_eq_dec : EqDecision WPc.
Proof. solve_decision. Defined.








End Admission.

(* ===================================================================== *)
(** * The cascade mutex: [find_faces] and [draw_faces] as interleaved
      threads *)
(* ===================================================================== *)

Module Cascade.

(** Where a worker stands with respect to the detector. *)
Inductive Pc : Type :=
| Idle                    (* not in find_faces or draw_faces *)
| FLock                   (* find_faces: pthread_mutex_lock(cascadeLock) *)
| FCheck                  (* find_faces: the test of storage against NULL *)
| FReturnNull             (* find_faces: return NULL, mutex still held *)
| FDetect                 (* find_faces: inside cvHaarDetectObjects *)
| FUnlock                 (* find_faces: pthread_mutex_unlock *)
| DLoop (faces : nat)     (* draw_faces: loop head, faces still to draw *)
| DLock (faces : nat)     (* draw_faces: pthread_mutex_lock(cascadeLock) *)
| DDetect (faces : nat)   (* draw_faces: inside cvHaarDetectObjects *)
| DUnlock (faces : nat)   (* draw_faces: pthread_mutex_unlock *)
| Exited.                 (* the worker thread has returned *)

Record State := mkState {
  cascadeLock : option nat;   (* the owner, when locked *)
  threads : gmap nat Pc
}.

Definition init : State := mkState None ∅.

(** A thread is inside the detector. *)
Definition in_detector (pc : Pc) : bool :=
  match pc with
  | FDetect | DDetect _ => true
  | _ => false
  end.

Inductive step : nat -> State -> State -> Prop :=
| spawn t l th :
    th !! t = None ->
    step t (mkState l th) (mkState l (<[t := Idle]> th))
| enter_find_faces t l th :
    th !! t = Some Idle ->
    step t (mkState l th) (mkState l (<[t := FLock]> th))
| find_lock t th :
    th !! t = Some FLock ->
    step t (mkState None th) (mkState (Some t) (<[t := FCheck]> th))
| find_storage_null t l th :
    th !! t = Some FCheck ->
    step t (mkState l th) (mkState l (<[t := FReturnNull]> th))
| find_call t l th :
    th !! t = Some FCheck ->
    step t (mkState l th) (mkState l (<[t := FDetect]> th))
| find_return t l th :
    th !! t = Some FDetect ->
    step t (mkState l th) (mkState l (<[t := FUnlock]> th))
| find_unlock_none t l th :       (* no face: no_faces, the loop breaks *)
    th !! t = Some FUnlock ->
    step t (mkState l th) (mkState None (<[t := Exited]> th))
| find_unlock_detect t l th n :   (* operation 0: draw_faces *)
    th !! t = Some FUnlock ->
    step t (mkState l th) (mkState None (<[t := DLoop (S n)]> th))
| find_unlock_replace t l th :    (* operation 1: no further detection *)
    th !! t = Some FUnlock ->
    step t (mkState l th) (mkState None (<[t := Idle]> th))
| null_exit t l th :              (* faces == NULL: no_faces, break *)
    th !! t = Some FReturnNull ->
    step t (mkState l th) (mkState l (<[t := Exited]> th))
| draw_next t l th n :
    th !! t = Some (DLoop (S n)) ->
    step t (mkState l th) (mkState l (<[t := DLock n]> th))
| draw_done t l th :
    th !! t = Some (DLoop O) ->
    step t (mkState l th) (mkState l (<[t := Idle]> th))
| draw_lock t th n :
    th !! t = Some (DLock n) ->
    step t (mkState None th) (mkState (Some t) (<[t := DDetect n]> th))
| draw_return t l th n :
    th !! t = Some (DDetect n) ->
    step t (mkState l th) (mkState l (<[t := DUnlock n]> th))
| draw_unlock t l th n :
    th !! t = Some (DUnlock n) ->
    step t (mkState l th) (mkState None (<[t := DLoop n]> th))
| leave t l th :                  (* the connection ends elsewhere *)
    th !! t = Some Idle ->
    step t (mkState l th) (mkState l (<[t := Exited]> th)).

Inductive reachable : State -> Prop :=
| reach_init : reachable init
| reach_step t s s' : reachable s -> step t s s' -> reachable s'.

(** The thread is between its lock and its unlock of the cascade mutex. *)
Definition holds (pc : Pc) : bool :=
  match pc with
  | FCheck | FReturnNull | FDetect | FUnlock | DDetect _ | DUnlock _ => true
  | _ => false
  end.

Definition owner_inv (s : State) : Prop :=
  forall t pc, threads s !! t = Some pc -> holds pc = true ->
               cascadeLock s = Some t.

(** Worker 0 is inside the face detection and worker 1 waits at the lock
    of [find_faces]. *)
Definition one_detecting : State :=
  mkState (Some 0%nat) (<[1%nat := FLock]> (<[0%nat := FDetect]> ∅)).

(** ** After an early return of [find_faces] *)

(** Some thread takes a step. *)
Definition next (s s' : State) : Prop := exists t, step t s s'.

(** The thread left [find_faces] through its early return, or has ended
    since, and the mutex is still its own. *)
Definition abandoned (t : nat) (s : State) : Prop :=
  cascadeLock s = Some t
  /\ (threads s !! t = Some FReturnNull \/ threads s !! t = Some Exited).

(** The thread stands before a [pthread_mutex_lock(cascadeLock)]. *)
Definition at_lock (pc : Pc) : bool :=
  match pc with FLock | DLock _ => true | _ => false end.

(** Worker 0 has returned early from [find_faces]; worker 1 waits at the
    lock of [find_faces]. *)
Definition early_returned : State :=
  mkState (Some 0%nat) (<[1%nat := FLock]> (<[0%nat := FReturnNull]> ∅)).


End Cascade.

(* ===================================================================== *)
(** * The scratch file [/tmp/imagefile.jpg] and its mutex: [create_frame],
      [create_replacement], [output_face_detection] as interleaved
      threads *)
(* ===================================================================== *)

Module Scratch.
Import Wire.

(** Where a worker stands with respect to the scratch file.  A program
    point carries the worker's own data: the bytes it is to write and,
    once it has read the file back, the bytes it read. *)
Inductive Pc : Type :=
| Idle
| CLock (image : list byte)       (* pthread_mutex_lock(fileLock) *)
| COpen (image : list byte)       (* open(..., O_RDWR | O_CREAT | O_TRUNC) *)
| CWrite (image : list byte)      (* write_bytes(filefd, image, size) *)
| CLoad (image : list byte)       (* cvLoadImage("/tmp/imagefile.jpg") *)
| CUnlock (image loaded : list byte)  (* pthread_mutex_unlock(fileLock) *)
| OLock (encoded : list byte)     (* output_face_detection: lock *)
| OTruncate (encoded : list byte) (* fopen(..., "w"); fclose *)
| OSave (encoded : list byte)     (* cvSaveImage *)
| ORead (encoded : list byte)     (* open, fstat, read_bytes *)
| OSend (encoded output : list byte)  (* send_output(..., 2, output, ...) *)
| OUnlock.                        (* pthread_mutex_unlock(fileLock) *)

Record State := mkState {
  file : list byte;            (* the content of /tmp/imagefile.jpg *)
  fileLock : option nat;       (* the owner, when locked *)
  threads : gmap nat Pc
}.

Definition init (content : list byte) : State := mkState content None ∅.

Inductive step : nat -> State -> State -> Prop :=
| spawn t f l th :
    th !! t = None ->
    step t (mkState f l th) (mkState f l (<[t := Idle]> th))
| enter_create t image f l th :   (* create_frame, create_replacement *)
    th !! t = Some Idle ->
    step t (mkState f l th) (mkState f l (<[t := CLock image]> th))
| create_lock t image f th :
    th !! t = Some (CLock image) ->
    step t (mkState f None th) (mkState f (Some t) (<[t := COpen image]> th))
| create_open t image f l th :
    th !! t = Some (COpen image) ->
    step t (mkState f l th) (mkState [] l (<[t := CWrite image]> th))
| create_write t image f l th :
    th !! t = Some (CWrite image) ->
    step t (mkState f l th) (mkState image l (<[t := CLoad image]> th))
| create_write_fails t image n f l th :  (* a short write: unlock, NULL *)
    th !! t = Some (CWrite image) ->
    step t (mkState f l th) (mkState (take n image) None (<[t := Idle]> th))
| create_load t image f l th :
    th !! t = Some (CLoad image) ->
    step t (mkState f l th) (mkState f l (<[t := CUnlock image f]> th))
| create_unlock t image loaded f l th :
    th !! t = Some (CUnlock image loaded) ->
    step t (mkState f l th) (mkState f None (<[t := Idle]> th))
| enter_output t encoded f l th :
    th !! t = Some Idle ->
    step t (mkState f l th) (mkState f l (<[t := OLock encoded]> th))
| output_lock t encoded f th :
    th !! t = Some (OLock encoded) ->
    step t (mkState f None th)
           (mkState f (Some t) (<[t := OTruncate encoded]> th))
| output_truncate t encoded f l th :
    th !! t = Some (OTruncate encoded) ->
    step t (mkState f l th) (mkState [] l (<[t := OSave encoded]> th))
| output_save t encoded f l th :
    th !! t = Some (OSave encoded) ->
    step t (mkState f l th) (mkState encoded l (<[t := ORead encoded]> th))
| output_read t encoded f l th :
    th !! t = Some (ORead encoded) ->
    step t (mkState f l th) (mkState f l (<[t := OSend encoded f]> th))
| output_send t encoded output f l th :
    th !! t = Some (OSend encoded output) ->
    step t (mkState f l th) (mkState f l (<[t := OUnlock]> th))
| output_unlock t f l th :
    th !! t = Some OUnlock ->
    step t (mkState f l th) (mkState f None (<[t := Idle]> th)).

Inductive reachable (content : list byte) : State -> Prop :=
| reach_init : reachable content (init content)
| reach_step t s s' :
    reachable content s -> step t s s' -> reachable content s'.

(** The thread is between its lock and its unlock of the file mutex. *)
Definition holds (pc : Pc) : bool :=
  match pc with
  | Idle | CLock _ | OLock _ => false
  | _ => true
  end.

(** What the file holds while the thread stands there, if that is
    determined by the thread's own writes. *)
Definition written (pc : Pc) : option (list byte) :=
  match pc with
  | CLoad image => Some image
  | ORead encoded => Some encoded
  | _ => None
  end.

(** The thread read back what it wrote. *)
Definition read_back (pc : Pc) : Prop :=
  match pc with
  | CUnlock image loaded => loaded = image
  | OSend encoded output => output = encoded
  | _ => True
  end.

Record Inv (s : State) : Prop := {
  inv_owner : forall t pc, threads s !! t = Some pc -> holds pc = true ->
                           fileLock s = Some t;
  inv_file : forall t pc content, threads s !! t = Some pc ->
                                  written pc = Some content -> file s = content;
  inv_read : forall t pc, threads s !! t = Some pc -> read_back pc
}.

(** Worker 0 has loaded the two bytes it wrote while worker 1 waits to
    write its own image. *)
Definition one_loading : State :=
  mkState [Byte.xff; Byte.xd8] (Some 0%nat)
    (<[1%nat := CLock [Byte.x89]]>
       (<[0%nat := CUnlock [Byte.xff; Byte.xd8] [Byte.xff; Byte.xd8]]> ∅)).

End Scratch.

(* ===================================================================== *)
(** * The loops over [read], [send] and [write]: [read_bytes],
      [send_bytes], [write_bytes], [send_without_signals] *)
(* ===================================================================== *)

Module Io.
Import Wire.

(** What the kernel decides for one call of [read], [send] or [write]:
    the call fails, or it transfers at most [S limit] bytes. *)
Inductive Kernel : Type :=
| Error
| Chunk (limit : nat).

(** [read(fd, p, count)] on a stream that ends after [stream]: the result,
    the bytes stored at [p], the stream left.  A read returns at least one
    byte while there is one, and 0 at the end of the stream. *)
Definition read (k : Kernel) (stream : list byte) (count : Z)
  : Z * list byte * list byte :=
  match k with
  | Error => (-1, [], stream)
  | Chunk limit =>
      let n := Nat.min (S limit) (Nat.min (Z.to_nat count) (length stream)) in
      (Z.of_nat n, take n stream, drop n stream)
  end.

(** [send(fd, p, count, MSG_NOSIGNAL)] and [write(fd, p, count)] from the
    bytes at [p]: the result and the bytes the kernel took. *)
Definition send (k : Kernel) (bytes : list byte) (count : Z)
  : Z * list byte :=
  match k with
  | Error => (-1, [])
  | Chunk limit =>
      let n := Nat.min (S limit) (Z.to_nat count) in
      (Z.of_nat n, take n bytes)
  end.

(** The decision for the next call; a schedule that has run out lets
    every call through in full. *)
Definition next_call (kernel : list Kernel) (count : Z) : Kernel :=
  match kernel with
  | k :: _ => k
  | [] => Chunk (Z.to_nat count)
  end.

(** The loop of [read_bytes]: [stored] are the bytes at [input[0..curr)]. *)
Fixpoint read_loop (fuel : nat) (kernel : list Kernel) (stream : list byte)
    (stored : list byte) (curr totalSize : Z)
  : option (Z * list byte * list byte) :=
  if curr <? totalSize then
    match fuel with
    | O => None
    | S fuel' =>
        let '(new, got, stream') :=
          read (next_call kernel (totalSize - curr)) stream (totalSize - curr) in
        if new <=? 0 then Some (-1, stored, stream')
        else read_loop fuel' (tl kernel) stream' (stored ++ got) (curr + new)
               totalSize
    end
  else Some (curr, stored, stream).

(** [read_bytes(fd, input, totalSize)]: every turn of the loop adds at
    least one byte, so [totalSize] turns are enough. *)
Definition read_bytes (kernel : list Kernel) (stream : list byte)
    (totalSize : Z) : option (Z * list byte * list byte) :=
  read_loop (Z.to_nat totalSize) kernel stream [] 0 totalSize.

(** The loop of [send_bytes], [write_bytes] and the client's
    [send_without_signals]: [taken] are the bytes the kernel has. *)
Fixpoint send_loop (fuel : nat) (kernel : list Kernel) (input : list byte)
    (taken : list byte) (curr totalSize : Z) : option (Z * list byte) :=
  if curr <? totalSize then
    match fuel with
    | O => None
    | S fuel' =>
        let '(new, got) :=
          send (next_call kernel (totalSize - curr))
            (drop (Z.to_nat curr) input) (totalSize - curr) in
        if new <=? 0 then Some (-1, taken)
        else send_loop fuel' (tl kernel) input (taken ++ got) (curr + new)
               totalSize
    end
  else Some (curr, taken).

Definition send_bytes (kernel : list Kernel) (input : list byte)
    (totalSize : Z) : option (Z * list byte) :=
  send_loop (Z.to_nat totalSize) kernel input [] 0 totalSize.

(** No call of the schedule fails. *)
Definition reliable (kernel : list Kernel) : Prop :=
  Forall (fun k => k <> Error) kernel.

(** Three calls that hand over one, two and then up to eight bytes. *)
Definition trickle : list Kernel := [Chunk 0; Chunk 1; Chunk 7].

End Io.

(* ===================================================================== *)
(** * The pixel loops of [replace_face] *)
(* ===================================================================== *)

Module Pixels.
Import Wire.

(** The fields of [IplImage] the pixel loops of [replace_face] use. *)
Record IplImage := mkImage {
  nChannels : Z;
  width : Z;
  height : Z;
  widthStep : Z;
  imageData : list byte
}.

Record CvRect := mkRect {
  rect_x : Z;
  rect_y : Z;
  rect_width : Z;
  rect_height : Z
}.

Definition bgraChannels : Z := 4.
Definition alphaIndex : Z := 3.

(** [int] arithmetic. *)
Definition int_add (a b : Z) : Z := wrap_int (a + b).
Definition int_mul (a b : Z) : Z := wrap_int (a * b).

(** [data[i]] read from a block of [length data] bytes; an index outside
    the block is an invalid access. *)
Definition load (data : list byte) (i : Z) : option byte :=
  if bool_decide (0 <= i < blen data) then data !! Z.to_nat i else None.

(** The body of the two [for] loops of [replace_face] at the pixel
    ([x], [y]) of the face: the new [frame->imageData]. *)
Definition paste_pixel (frame resized : IplImage) (face : CvRect) (y x : Z)
    (frameData : list byte) : option (list byte) :=
  let faceData := imageData resized in
  let faceIndex :=
    int_add (int_mul (widthStep resized) y) (int_mul x (nChannels resized)) in
  transparent ←
    (if nChannels resized =? bgraChannels
     then alpha ← load faceData (int_add faceIndex alphaIndex);
          Some (bool_decide (alpha = Byte.x00))
     else Some false);
  if transparent : bool then Some frameData
  else
    let frameIndex :=
      int_add (int_mul (widthStep frame) (int_add (rect_y face) y))
        (int_mul (int_add (rect_x face) x) (nChannels frame)) in
    b0 ← load faceData (int_add faceIndex 0);
    d ← Client.store frameData (int_add frameIndex 0) b0;
    b1 ← load faceData (int_add faceIndex 1);
    d ← Client.store d (int_add frameIndex 1) b1;
    b2 ← load faceData (int_add faceIndex 2);
    Client.store d (int_add frameIndex 2) b2.

(** [for (int x = ...; x < face->width; x++)], with [n] turns to go. *)
Fixpoint paste_row (frame resized : IplImage) (face : CvRect) (y : Z)
    (n : nat) (x : Z) (frameData : list byte) : option (list byte) :=
  match n with
  | O => Some frameData
  | S n' =>
      d ← paste_pixel frame resized face y x frameData;
      paste_row frame resized face y n' (int_add x 1) d
  end.

(** [for (int y = ...; y < face->height; y++)], with [m] turns to go. *)
Fixpoint paste_rows (frame resized : IplImage) (face : CvRect)
    (m : nat) (y : Z) (frameData : list byte) : option (list byte) :=
  match m with
  | O => Some frameData
  | S m' =>
      d ← paste_row frame resized face y (Z.to_nat (rect_width face)) 0
             frameData;
      paste_rows frame resized face m' (int_add y 1) d
  end.

(** One turn of the loop over the faces, after [cvResize] made
    [resized]. *)
Definition paste_face (frame resized : IplImage) (face : CvRect)
  : option (list byte) :=
  paste_rows frame resized face (Z.to_nat (rect_height face)) 0
    (imageData frame).



(** ** Vocabulary *)

(** The offset of channel [c] of the face pixel ([x], [y]) in the resized
    image, and of the frame pixel under it in the frame. *)
Definition source (resized : IplImage) (y x c : Z) : Z :=
  widthStep resized * y + x * nChannels resized + c.
Definition target (frame : IplImage) (face : CvRect) (y x c : Z) : Z :=
  widthStep frame * (rect_y face + y) + (rect_x face + x) * nChannels frame + c.

(** The pixel of the resized image has no alpha channel, or an alpha
    other than 0. *)
Definition opaque (resized : IplImage) (y x : Z) : bool :=
  negb ((nChannels resized =? bgraChannels)
        && bool_decide (imageData resized
                          !! Z.to_nat (source resized y x alphaIndex)
                        = Some Byte.x00)).

(** A byte of a pixel of the resized image. *)
Definition colour (resized : IplImage) (y x c : Z) : byte :=
  default Byte.x00 (imageData resized !! Z.to_nat (source resized y x c)).

(** The pixel ([x], [y]) lies in the face, the channel is a colour. *)
Definition in_face (face : CvRect) (y x c : Z) : Prop :=
  0 <= y < rect_height face /\ 0 <= x < rect_width face /\ 0 <= c < 3.

(** The images are laid out as OpenCV lays them out, the face lies in the
    frame, and the resized image has the size of the face. *)
Record Fits (frame resized : IplImage) (face : CvRect) : Prop := {
  fits_face : 0 <= rect_x face /\ 0 <= rect_y face
              /\ 0 <= rect_width face /\ 0 <= rect_height face
              /\ rect_x face + rect_width face <= width frame
              /\ rect_y face + rect_height face <= height frame;
  fits_frame : 3 <= nChannels frame
               /\ width frame <= INT_MAX /\ height frame <= INT_MAX
               /\ nChannels frame * width frame <= widthStep frame
               /\ blen (imageData frame) = widthStep frame * height frame
               /\ widthStep frame * height frame <= INT_MAX;
  fits_resized : 3 <= nChannels resized
                 /\ nChannels resized * rect_width face <= widthStep resized
                 /\ blen (imageData resized)
                    = widthStep resized * rect_height face
                 /\ widthStep resized * rect_height face <= INT_MAX
}.

(** The pixels the loops have dealt with when they stand at ([x], [y]). *)
Definition before (y x y' x' : Z) : Prop := y' < y \/ (y' = y /\ x' < x).

Record Pasted (frame resized : IplImage) (face : CvRect) (y x : Z)
    (data : list byte) : Prop := {
  pasted_length : length data = length (imageData frame);
  pasted_done : forall y' x' c, in_face face y' x' c -> before y x y' x' ->
    data !! Z.to_nat (target frame face y' x' c)
    = if opaque resized y' x'
      then imageData resized !! Z.to_nat (source resized y' x' c)
      else imageData frame !! Z.to_nat (target frame face y' x' c);
  pasted_rest : forall i : nat,
    (forall y' x' c, in_face face y' x' c -> before y x y' x' ->
                     opaque resized y' x' = true ->
                     Z.of_nat i <> target frame face y' x' c) ->
    data !! i = imageData frame !! i
}.

(** A frame of two BGR pixels in one row of eight bytes, a face that is
    its first pixel, and a BGRA overlay of one opaque pixel. *)
Definition two_pixel_frame : IplImage :=
  mkImage 3 2 1 8
    [Byte.x10; Byte.x11; Byte.x12; Byte.x20; Byte.x21; Byte.x22;
     Byte.x00; Byte.x00].
Definition one_pixel_overlay : IplImage :=
  mkImage 4 1 1 4 [Byte.x01; Byte.x02; Byte.x03; Byte.xff].
Definition first_pixel : CvRect := mkRect 0 0 1 1.

End Pixels.

(* ===================================================================== *)
(** * Facts about the wire format *)
(* ===================================================================== *)

Section WireFacts.
Import Wire.

Lemma blen_app (a b : list byte) : blen (a ++ b) = blen a + blen b.
Proof. unfold blen. rewrite length_app. lia. Qed.

Lemma blen_nonneg (a : list byte) : 0 <= blen a.
Proof. unfold blen. lia. Qed.

Lemma wrap32_small z : 0 <= z <= UINT32_MAX -> wrap32 z = z.
Proof. unfold UINT32_MAX, wrap32. intros. apply Z.mod_small. lia. Qed.

Lemma wrap32_range z : 0 <= wrap32 z <= UINT32_MAX.
Proof.
  unfold wrap32, UINT32_MAX.
  pose proof (Z.mod_pos_bound z 4294967296 ltac:(lia)). lia.
Qed.

Lemma wrap32_eq z : exists q, wrap32 z = z + 4294967296 * q.
Proof.
  exists (- (z / 4294967296)). unfold wrap32.
  pose proof (Z.div_mod z 4294967296 ltac:(lia)). lia.
Qed.

Lemma wrap32_congr a b k : a = b + 4294967296 * k -> wrap32 a = wrap32 b.
Proof.
  intros ->. unfold wrap32. rewrite Z.mul_comm. apply Z_mod_plus_full.
Qed.

Lemma wrap32_succ z : wrap32 (wrap32 z + 1) = wrap32 (z + 1).
Proof. unfold wrap32. rewrite Zplus_mod_idemp_l. reflexivity. Qed.

Lemma wrap32_pred z : wrap32 (wrap32 z - 1) = wrap32 (z - 1).
Proof. unfold wrap32. rewrite Zminus_mod_idemp_l. reflexivity. Qed.

(** A 32-bit counter never keeps its value when it is incremented. *)
Lemma wrap32_succ_neq z : wrap32 (z + 1) <> z.
Proof.
  intros Heq. pose proof (wrap32_range (z + 1)) as Hr. rewrite Heq in Hr.
  unfold wrap32, UINT32_MAX in *.
  destruct (Z.eq_dec z 4294967295) as [->|Hne]; [discriminate|].
  rewrite Z.mod_small in Heq by lia. lia.
Qed.

Lemma wrap_int_small z : - 2147483648 <= z <= INT_MAX -> wrap_int z = z.
Proof.
  unfold wrap_int, INT_MAX. intros H. rewrite Z.mod_small by lia. lia.
Qed.

Lemma byte_to_Z_range b : 0 <= byte_to_Z b < 256.
Proof. unfold byte_to_Z. pose proof (Byte.to_N_bounded b). lia. Qed.

Lemma Z_to_byte_to_Z b : Z_to_byte (byte_to_Z b) = b.
Proof.
  unfold Z_to_byte. pose proof (byte_to_Z_range b).
  rewrite Z.mod_small by lia. unfold byte_to_Z.
  rewrite N2Z.id, Byte.of_to_N. reflexivity.
Qed.

Lemma byte_to_Z_to_byte z : byte_to_Z (Z_to_byte z) = z mod 256.
Proof.
  unfold Z_to_byte, byte_to_Z.
  pose proof (Z.mod_pos_bound z 256 ltac:(lia)) as Hr.
  destruct (Byte.of_N (Z.to_N (z mod 256))) as [b|] eqn:E.
  - apply Byte.to_of_N in E. simpl. rewrite E. lia.
  - apply Byte.of_N_None_iff in E. lia.
Qed.

Lemma land_255 z : Z.land z 255 = z mod 256.
Proof. change 255 with (Z.ones 8). rewrite Z.land_ones by lia. reflexivity. Qed.

Lemma byte_bits_high b n : 8 <= n -> Z.testbit (byte_to_Z b) n = false.
Proof.
  intros Hn. pose proof (byte_to_Z_range b).
  rewrite <- (Z.mod_small (byte_to_Z b) (2 ^ 8)) by lia.
  apply Z.mod_pow2_bits_high. lia.
Qed.

Ltac bits_cases n :=
  destruct (Z.ltb_spec n 8);
  [|destruct (Z.ltb_spec n 16);
    [|destruct (Z.ltb_spec n 24); [| destruct (Z.ltb_spec n 32)]]].

(** Reading back what was written keeps the low 32 bits. *)
Lemma le32toh_le32_bytes v : le32toh (le32_bytes v) = wrap32 v.
Proof.
  unfold le32toh, le32_bytes, wrap32.
  rewrite !byte_to_Z_to_byte, !land_255, !Z.mod_mod by lia.
  change 256 with (2 ^ 8). change 4294967296 with (2 ^ 32).
  apply Z.bits_inj'. intros n Hn.
  rewrite !Z.lor_spec.
  rewrite !Z.shiftl_spec by lia.
  bits_cases n;
  repeat first [ rewrite Z.mod_pow2_bits_low by lia
               | rewrite Z.mod_pow2_bits_high by lia
               | rewrite (Z.testbit_neg_r _ (n - 8)) by lia
               | rewrite (Z.testbit_neg_r _ (n - 16)) by lia
               | rewrite (Z.testbit_neg_r _ (n - 24)) by lia
               | rewrite Z.shiftr_spec by lia ];
  rewrite ?orb_false_r, ?orb_false_l; try reflexivity; f_equal; lia.
Qed.

Lemma le32toh_bits b0 b1 b2 b3 n :
  0 <= n ->
  Z.testbit (le32toh [b0; b1; b2; b3]) n =
    if n <? 8 then Z.testbit (byte_to_Z b0) n
    else if n <? 16 then Z.testbit (byte_to_Z b1) (n - 8)
    else if n <? 24 then Z.testbit (byte_to_Z b2) (n - 16)
    else Z.testbit (byte_to_Z b3) (n - 24).
Proof.
  intros Hn. unfold le32toh.
  rewrite !Z.lor_spec, !Z.shiftl_spec by lia.
  bits_cases n;
  repeat first [ rewrite (Z.testbit_neg_r _ (n - 8)) by lia
               | rewrite (Z.testbit_neg_r _ (n - 16)) by lia
               | rewrite (Z.testbit_neg_r _ (n - 24)) by lia
               | rewrite (byte_bits_high _ n) by lia
               | rewrite (byte_bits_high _ (n - 8)) by lia
               | rewrite (byte_bits_high _ (n - 16)) by lia ];
  rewrite ?orb_false_r, ?orb_false_l; reflexivity.
Qed.

Lemma le32toh_byte b0 b1 b2 b3 k (b : byte) :
  0 <= k ->
  (forall n, 0 <= n < 8 ->
     Z.testbit (le32toh [b0; b1; b2; b3]) (n + k) = Z.testbit (byte_to_Z b) n) ->
  Z_to_byte (Z.land (Z.shiftr (le32toh [b0; b1; b2; b3]) k) 255) = b.
Proof.
  intros Hk Hbits. rewrite <- (Z_to_byte_to_Z b). f_equal.
  pose proof (byte_to_Z_range b).
  rewrite land_255. rewrite <- (Z.mod_small (byte_to_Z b) 256) by lia.
  change 256 with (2 ^ 8).
  apply Z.bits_inj'. intros n Hn.
  destruct (Z.ltb_spec n 8).
  - rewrite !Z.mod_pow2_bits_low by lia.
    rewrite Z.shiftr_spec by lia. apply Hbits. lia.
  - rewrite !Z.mod_pow2_bits_high by lia. reflexivity.
Qed.

(** Writing back what was read gives the same four bytes. *)
Lemma le32_bytes_le32toh b0 b1 b2 b3 :
  le32_bytes (le32toh [b0; b1; b2; b3]) = [b0; b1; b2; b3].
Proof.
  unfold le32_bytes.
  rewrite <- (Z.shiftr_0_r (le32toh _)) at 1.
  rewrite (le32toh_byte b0 b1 b2 b3 0 b0), (le32toh_byte b0 b1 b2 b3 8 b1),
    (le32toh_byte b0 b1 b2 b3 16 b2), (le32toh_byte b0 b1 b2 b3 24 b3);
    try reflexivity; try lia;
    intros n Hn; rewrite le32toh_bits by lia;
    repeat match goal with
    | |- context [?a <? ?c] => destruct (Z.ltb_spec a c); try lia
    end; f_equal; lia.
Qed.

Lemma le32toh_magic p :
  length p = 4%nat -> (le32toh p = PREFIX <-> p = magic).
Proof.
  intros Hp.
  destruct p as [|b0 [|b1 [|b2 [|b3 [|]]]]]; try discriminate.
  split.
  - intros Heq. rewrite <- (le32_bytes_le32toh b0 b1 b2 b3), Heq. reflexivity.
  - intros ->. reflexivity.
Qed.

Lemma le32toh_range p : 0 <= le32toh p <= UINT32_MAX.
Proof.
  destruct p as [|b0 [|b1 [|b2 [|b3 [|]]]]]; try (cbn; unfold UINT32_MAX; lia).
  assert (H : le32toh [b0; b1; b2; b3] = wrap32 (le32toh [b0; b1; b2; b3]))
    by (rewrite <- le32toh_le32_bytes, le32_bytes_le32toh; reflexivity).
  rewrite H. apply wrap32_range.
Qed.

Lemma le32_bytes_PREFIX : le32_bytes PREFIX = magic.
Proof. reflexivity. Qed.

Lemma length_le32_bytes v : length (le32_bytes v) = 4%nat.
Proof. reflexivity. Qed.

Lemma length_bytes_of_string s :
  length (bytes_of_string s) = String.length s.
Proof.
  unfold bytes_of_string, list_byte_of_string.
  rewrite length_map. induction s; cbn; congruence.
Qed.

End WireFacts.

(* ===================================================================== *)
(** * The client's request: [create_request] *)
(* ===================================================================== *)

Section ClientFacts.
Import Wire Client.

Lemma store_middle pre x post i b :
  i = blen pre ->
  store (pre ++ x :: post) i b = Some (pre ++ b :: post).
Proof.
  intros ->. unfold store.
  rewrite bool_decide_true.
  - f_equal. unfold blen. rewrite Nat2Z.id.
    rewrite insert_app_r_alt by lia. rewrite Nat.sub_diag. reflexivity.
  - rewrite blen_app. unfold blen. cbn [length]. lia.
Qed.

Lemma store_negative buf i b : i < 0 -> store buf i b = None.
Proof.
  intros H. unfold store. rewrite bool_decide_false by lia. reflexivity.
Qed.

Lemma memcpy_middle src : forall pre old post off,
  off = blen pre -> length old = length src ->
  memcpy (pre ++ old ++ post) off src = Some (pre ++ src ++ post).
Proof.
  induction src as [|b src IH]; intros pre old post off Hoff Hlen.
  - destruct old; [reflexivity | discriminate].
  - destruct old as [|x old]; [discriminate|].
    cbn [memcpy app]. rewrite store_middle by exact Hoff.
    cbn [mbind option_bind].
    replace (pre ++ b :: old ++ post) with ((pre ++ [b]) ++ old ++ post)
      by (rewrite <- app_assoc; reflexivity).
    rewrite (IH (pre ++ [b]) old post).
    + rewrite <- app_assoc. reflexivity.
    + rewrite blen_app. subst off. reflexivity.
    + cbn in Hlen. lia.
Qed.

Lemma zeros_split a b :
  0 <= a -> 0 <= b ->
  replicate (Z.to_nat (a + b)) Byte.x00
  = replicate (Z.to_nat a) Byte.x00 ++ replicate (Z.to_nat b) Byte.x00.
Proof.
  intros. rewrite Z2Nat.inj_add by lia. apply replicate_add.
Qed.

Lemma length_zeros (l : list byte) :
  length (replicate (Z.to_nat (blen l)) Byte.x00) = length l.
Proof. unfold blen. rewrite Nat2Z.id. apply length_replicate. Qed.

(** The nine single-byte writes at the head of [create_request]. *)
Lemma header_stores {B} op l0 l1 l2 l3 rest (k : list byte -> option B) :
  (b ← store (replicate 9 Byte.x00 ++ rest) 0 PREFIX_FOUR;
   b ← store b 1 PREFIX_THREE;
   b ← store b 2 PREFIX_TWO;
   b ← store b 3 PREFIX_ONE;
   b ← store b 4 op;
   b ← store b 5 l0;
   b ← store b 6 l1;
   b ← store b 7 l2;
   b ← store b 8 l3;
   k b)
  = k ([PREFIX_FOUR; PREFIX_THREE; PREFIX_TWO; PREFIX_ONE; op; l0; l1; l2; l3]
       ++ rest).
Proof.
  cbn [replicate app].
  unfold store.
  repeat (rewrite bool_decide_true
            by (unfold blen; rewrite ?length_insert; cbn [length]; lia);
          cbn [mbind option_bind]).
  reflexivity.
Qed.

Lemma create_request_detect imageOne imageTwo params :
  replaceFileGiven params = false ->
  create_request imageOne imageTwo params
  = Some (header Byte.x00 (wrap32 (blen imageOne)) ++ imageOne).
Proof.
  intros Hflag. unfold create_request. rewrite Hflag.
  pose proof (blen_nonneg imageOne).
  unfold PREIMAGE_SIZE, malloc. rewrite zeros_split by lia.
  change (Z.to_nat 9) with 9%nat.
  rewrite header_stores.
  rewrite <- (app_nil_r (replicate _ _)).
  rewrite memcpy_middle; [ | reflexivity | apply length_zeros ].
  rewrite app_nil_r. reflexivity.
Qed.

Lemma write_replacement_fits hd imageOne imageTwo :
  blen hd = PREIMAGE_SIZE ->
  PREIMAGE_SIZE + blen imageOne + FOUR <= INT_MAX ->
  write_replacement imageOne imageTwo
    (hd ++ imageOne ++ replicate 4 Byte.x00
        ++ replicate (Z.to_nat (blen imageTwo)) Byte.x00)
  = Some (hd ++ imageOne ++ le32_bytes (wrap32 (blen imageTwo)) ++ imageTwo).
Proof.
  intros Hhd Hfit. unfold write_replacement.
  pose proof (blen_nonneg imageOne).
  unfold PREIMAGE_SIZE, FOUR, INT_MAX in *.
  rewrite (wrap_int_small (9 + blen imageOne)) by (unfold INT_MAX; lia).
  rewrite (wrap_int_small (9 + blen imageOne + 1)) by (unfold INT_MAX; lia).
  rewrite (wrap_int_small (9 + blen imageOne + 1 + 1))
    by (unfold INT_MAX; lia).
  rewrite (wrap_int_small (9 + blen imageOne + 1 + 1 + 1))
    by (unfold INT_MAX; lia).
  rewrite (wrap_int_small (9 + blen imageOne + 1 + 1 + 1 + 1))
    by (unfold INT_MAX; lia).
  cbn [replicate app].
  rewrite (app_assoc hd imageOne).
  set (pre := hd ++ imageOne).
  assert (Hpre : blen pre = 9 + blen imageOne)
    by (unfold pre; rewrite blen_app; lia).
  rewrite (store_middle pre) by lia.
  cbn [mbind option_bind].
  rewrite (cons_middle _ pre), app_assoc.
  rewrite (store_middle (pre ++ [_]))
    by (rewrite blen_app, Hpre; reflexivity).
  cbn [mbind option_bind].
  rewrite (cons_middle _ (pre ++ _)), app_assoc.
  rewrite (store_middle ((pre ++ [_]) ++ [_]))
    by (rewrite !blen_app, Hpre; reflexivity).
  cbn [mbind option_bind].
  rewrite (cons_middle _ ((pre ++ _) ++ _)), app_assoc.
  rewrite (store_middle (((pre ++ [_]) ++ [_]) ++ [_]))
    by (rewrite !blen_app, Hpre; reflexivity).
  cbn [mbind option_bind].
  rewrite (cons_middle _ (((pre ++ _) ++ _) ++ _)), app_assoc.
  rewrite <- (app_nil_r (replicate _ _)).
  rewrite memcpy_middle;
    [ | rewrite !blen_app, Hpre; reflexivity | apply length_zeros ].
  f_equal. unfold pre, le32_bytes, MASK, ONE_BYTE, TWO_BYTES, THREE_BYTES.
  rewrite app_nil_r, <- !app_assoc. reflexivity.
Qed.

Lemma create_request_replace imageOne imageTwo params :
  replaceFileGiven params = true ->
  PREIMAGE_SIZE + blen imageOne + FOUR <= INT_MAX ->
  create_request imageOne imageTwo params
  = Some (header Byte.x01 (wrap32 (blen imageOne)) ++ imageOne
          ++ le32_bytes (wrap32 (blen imageTwo)) ++ imageTwo).
Proof.
  intros Hflag Hfit. unfold create_request. rewrite Hflag.
  pose proof (blen_nonneg imageOne). pose proof (blen_nonneg imageTwo).
  unfold malloc. unfold PREIMAGE_SIZE, FOUR at 1.
  rewrite <- Z.add_assoc.
  rewrite !zeros_split by lia.
  change (Z.to_nat 9) with 9%nat. change (Z.to_nat 4) with 4%nat.
  rewrite header_stores.
  rewrite memcpy_middle; [ | reflexivity | apply length_zeros ].
  cbn [mbind option_bind].
  rewrite write_replacement_fits; [ reflexivity | reflexivity | exact Hfit ].
Qed.

(** The offset [9 + length] does not fit [int]: the first indexed write
    lands before the block. *)
Lemma write_replacement_overflow imageOne imageTwo buffer :
  INT_MAX < PREIMAGE_SIZE + blen imageOne <= UINT32_MAX ->
  write_replacement imageOne imageTwo buffer = None.
Proof.
  intros Hbig. unfold write_replacement.
  rewrite store_negative; [reflexivity|].
  unfold wrap_int, PREIMAGE_SIZE, INT_MAX, UINT32_MAX in *.
  replace (9 + blen imageOne + 2147483648)
    with ((9 + blen imageOne - 2147483648) + 1 * 4294967296) by lia.
  rewrite Z.mod_add by lia. rewrite Z.mod_small by lia. lia.
Qed.

Lemma create_request_overflow imageOne imageTwo params :
  replaceFileGiven params = true ->
  INT_MAX < PREIMAGE_SIZE + blen imageOne <= UINT32_MAX ->
  create_request imageOne imageTwo params = None.
Proof.
  intros Hflag Hbig. unfold create_request. rewrite Hflag.
  repeat match goal with
  | |- (?m ≫= _) = None => destruct m; cbn [mbind option_bind]; [|reflexivity]
  end.
  apply write_replacement_overflow. exact Hbig.
Qed.

Lemma blen_two_gib_image : blen two_gib_image = 2147483639.
Proof.
  unfold blen, two_gib_image. rewrite length_replicate, Z2Nat.id by lia.
  reflexivity.
Qed.

(** C2 (the code at the failing input).  With a replace file and a primary
    image of 2^31 - 9 bytes, [create_request] does not build the request the
    claim describes: [int index = PREIMAGE_SIZE + imageOne.length] is
    -2^31, and the write of the secondary length through it is outside the
    allocated block. *)
Theorem create_request_index_overflow :
  create_request two_gib_image [Byte.x01] replace_params = None.
Proof.
  apply create_request_overflow; [reflexivity|].
  rewrite blen_two_gib_image.
  unfold INT_MAX, PREIMAGE_SIZE, UINT32_MAX. lia.
Qed.

(** The layout of the request, for images whose lengths fit the 32-bit
    length fields and, with a replace file, whose offsets fit [int]:
    the size is 9 + len1 (+ 4 + len2), and the bytes are the magic, the
    operation (1 exactly with a replace file), len1 little-endian, the
    primary image and, for operation 1, len2 little-endian and the
    secondary image. *)
Theorem create_request_layout imageOne imageTwo params :
  blen imageOne <= UINT32_MAX ->
  blen imageTwo <= UINT32_MAX ->
  (replaceFileGiven params = true ->
   PREIMAGE_SIZE + blen imageOne + FOUR <= INT_MAX) ->
  exists request len1 len2,
    create_request imageOne imageTwo params = Some request
    /\ request
       = magic ++ [if replaceFileGiven params then Byte.x01 else Byte.x00]
         ++ len1 ++ imageOne
         ++ (if replaceFileGiven params then len2 ++ imageTwo else [])
    /\ blen request
       = 9 + blen imageOne
         + (if replaceFileGiven params then 4 + blen imageTwo else 0)
    /\ length len1 = 4%nat /\ le32toh len1 = blen imageOne
    /\ length len2 = 4%nat /\ le32toh len2 = blen imageTwo.
Proof.
  intros H1 H2 Hfit.
  pose proof (blen_nonneg imageOne). pose proof (blen_nonneg imageTwo).
  exists (default [] (create_request imageOne imageTwo params)),
    (le32_bytes (blen imageOne)), (le32_bytes (blen imageTwo)).
  rewrite !le32toh_le32_bytes, !wrap32_small by lia.
  destruct (replaceFileGiven params) eqn:Hflag.
  - rewrite create_request_replace by auto.
    rewrite !wrap32_small by lia. cbn [default].
    repeat split; unfold header; rewrite <- ?app_assoc; try reflexivity.
    unfold blen. cbn [id]. rewrite !length_app. cbn [length magic le32_bytes]. lia.
  - rewrite create_request_detect by auto.
    rewrite !wrap32_small by lia. cbn [default].
    repeat split; unfold header; rewrite <- ?app_assoc, ?app_nil_r; try reflexivity.
    unfold blen. cbn [id]. rewrite !length_app. cbn [length magic le32_bytes]. lia.
Qed.

Lemma create_request_layout_witness :
  exists request len1 len2,
    create_request [Byte.xff; Byte.xd8] [Byte.x89] replace_params = Some request
    /\ request
       = magic ++ [Byte.x01] ++ len1 ++ [Byte.xff; Byte.xd8]
         ++ (len2 ++ [Byte.x89])
    /\ blen request = 9 + 2 + (4 + 1)
    /\ length len1 = 4%nat /\ le32toh len1 = 2
    /\ length len2 = 4%nat /\ le32toh len2 = 1.
Proof.
  apply (create_request_layout [Byte.xff; Byte.xd8] [Byte.x89] replace_params);
    vm_compute; congruence.
Defined.

End ClientFacts.

(* ===================================================================== *)
(** * The server's command line *)
(* ===================================================================== *)

Section CommandLineFacts.
Import Wire Server.

(** Whatever the arguments, a returned [maxSize] is a non-zero 32-bit
    value: 0 on the command line became [UINT32_MAX]. *)
Lemma parse_command_line_maxSize argv params :
  parse_command_line argv = Return params ->
  0 < maxSize params <= UINT32_MAX.
Proof.
  unfold parse_command_line, command_line_error.
  repeat match goal with
  | |- context [if ?b then _ else _] => destruct b eqn:?; try discriminate
  | |- context [let '(_, _) := ?p in _] => destruct p eqn:?
  end.
  all: intros [= <-]; cbn [maxSize].
  all: pose proof (wrap32_range z); unfold UINT32_MAX in *; lia.
Qed.

(** With 0 as the maxsize argument the cap is [UINT32_MAX]. *)
Lemma parse_command_line_zero_maxSize argv params :
  parse_command_line argv = Return params ->
  fst (strtoul (arg argv 2)) = 0 ->
  maxSize params = UINT32_MAX.
Proof.
  unfold parse_command_line, command_line_error. intros Hparse Hzero.
  revert Hparse.
  destruct (strtoul (arg argv 2)) as [test erange]. cbn in Hzero. subst test.
  repeat match goal with
  | |- context [if ?b then _ else _] => destruct b eqn:?; try discriminate
  end.
  all: intros [= <-]; reflexivity.
Qed.

(** C7 (counterexample).  With connection limit 5 and cap 1000, an empty
    fourth argument ends in the usage line and exit code 19, while leaving
    the argument out gives the ephemeral port. *)
Lemma empty_portnum_is_a_usage_error :
  parse_command_line ["./uqfacedetect"; "5"; "1000"; ""]%string
  = Exit 19
      ("Usage: ./uqfacedetect connectionlimit maxsize [portnumber]" ++ newline)
  /\ parse_command_line ["./uqfacedetect"; "5"; "1000"]%string
     = Return (mkParams 5 1000 "0" false).
Proof. split; reflexivity. Qed.

(** C7 (amended).  An empty portnum argument is a command-line failure
    (usage line, exit code 19) whatever the other arguments are; the
    argument "0" is treated exactly as an omitted one, and an omitted one
    gives the port string "0" with [portnumGiven] clear: the ephemeral
    port. *)
Theorem portnum_argument prog limit size :
  parse_command_line [prog; limit; size; ""%string]
  = Exit COMMAND_LINE_ERROR
      ("Usage: ./uqfacedetect connectionlimit maxsize [portnumber]" ++ newline)
  /\ parse_command_line [prog; limit; size; "0"%string]
     = parse_command_line [prog; limit; size]
  /\ forall params,
       parse_command_line [prog; limit; size] = Return params ->
       portnum params = "0"%string /\ portnumGiven params = false.
Proof.
  unfold parse_command_line, command_line_error.
  cbn [length Z.of_nat Pos.of_succ_nat Pos.succ Z.ltb Z.gtb Z.eqb Z.compare
       Pos.compare Pos.compare_cont orb PORTNUM_INDEX EXTRA_CMD_LINE_ARGS
       PORTNUM_INCLUDED Pos.eqb].
  change (arg [prog; limit; size; ""%string] 3) with ""%string.
  change (arg [prog; limit; size; "0"%string] 3) with "0"%string.
  change ([prog; limit; size; ""%string] !! 1%nat) with (Some limit).
  change ([prog; limit; size; "0"%string] !! 1%nat) with (Some limit).
  change ([prog; limit; size] !! 1%nat) with (Some limit).
  change ([prog; limit; size; ""%string] !! 2%nat) with (Some size).
  change ([prog; limit; size; "0"%string] !! 2%nat) with (Some size).
  change ([prog; limit; size] !! 2%nat) with (Some size).
  change ([prog; limit; size; "0"%string] !! 3%nat) with (Some "0"%string).
  change (arg [prog; limit; size; ""%string] 1) with limit.
  change (arg [prog; limit; size; "0"%string] 1) with limit.
  change (arg [prog; limit; size] 1) with limit.
  change (arg [prog; limit; size; ""%string] 2) with size.
  change (arg [prog; limit; size; "0"%string] 2) with size.
  change (arg [prog; limit; size] 2) with size.
  destruct (valid_cmd_line_number (Some limit)); cbn [negb];
    [|repeat split; try reflexivity; discriminate].
  destruct (atoi limit >? MAX_CONNECTIONS);
    [repeat split; try reflexivity; discriminate|].
  destruct (valid_cmd_line_number (Some size)); cbn [negb];
    [|repeat split; try reflexivity; discriminate].
  destruct (strtoul size) as [test erange].
  destruct (erange || (test >? UINT32_MAX));
    [repeat split; try reflexivity; discriminate|].
  split; [reflexivity | split; [reflexivity|]].
  intros params [= <-]. split; reflexivity.
Qed.

Lemma portnum_argument_witness :
  parse_command_line ["./uqfacedetect"; "5"; "1000"; ""]%string
  = Exit COMMAND_LINE_ERROR
      ("Usage: ./uqfacedetect connectionlimit maxsize [portnumber]" ++ newline)
  /\ parse_command_line ["./uqfacedetect"; "5"; "1000"; "0"]%string
     = parse_command_line ["./uqfacedetect"; "5"; "1000"]%string
  /\ forall params,
       parse_command_line ["./uqfacedetect"; "5"; "1000"]%string
       = Return params ->
       portnum params = "0"%string /\ portnumGiven params = false.
Proof.
  exact (portnum_argument "./uqfacedetect" "5" "1000").
Defined.

End CommandLineFacts.

(* ===================================================================== *)
(** * The connection worker, one call at a time *)
(* ===================================================================== *)

Section WorkerFacts.
Import Wire Server.
Context `{V : Vision}.

Ltac mstep := unfold mbind, M_bind, mret, M_ret; cbn beta iota.

Lemma with_input_same w : with_input (input w) w = w.
Proof. destruct w; reflexivity. Qed.

Lemma read_bytes_enough n pre post w :
  input w = pre ++ post -> blen pre = n ->
  read_bytes n w = (Some pre, with_input post w).
Proof.
  intros Hin Hn. unfold read_bytes, get_world, set_input, with_input.
  mstep. rewrite Hin, blen_app.
  pose proof (blen_nonneg post).
  destruct (Z.leb_spec n (blen pre + blen post)); [|lia].
  mstep. subst n. unfold blen. rewrite Nat2Z.id.
  rewrite take_app_length, drop_app_length. reflexivity.
Qed.

Lemma read_bytes_short n w :
  blen (input w) < n ->
  read_bytes n w = (None, with_input [] w).
Proof.
  intros Hn. unfold read_bytes, get_world, set_input, with_input.
  mstep. destruct (Z.leb_spec n (blen (input w))); [lia|]. reflexivity.
Qed.

(** An error reply is one operation-3 frame whose payload is the text as
    it stands, then the half-close and the close. *)
Lemma error_reply_run text w :
  Z.of_nat (String.length text) <= UINT32_MAX ->
  error_reply text w = (tt, replied text w).
Proof.
  intros Hlen.
  unfold error_reply, send_output, send_bytes, shutdown_wr, close, replied.
  mstep. cbn [input sent shut_wr closed stats semaphore].
  f_equal. f_equal.
  unfold strlen32. rewrite wrap32_small by lia. unfold FOUR_BYTES.
  rewrite Nat2Z.id.
  rewrite <- length_bytes_of_string, firstn_all.
  rewrite le32_bytes_PREFIX.
  rewrite <- !app_assoc. unfold error_frame, frame, blen.
  reflexivity.
Qed.

Lemma invalid_message_run w :
  invalid_message w = (tt, replied "invalid message" w).
Proof. apply error_reply_run. vm_compute. discriminate. Qed.

Lemma bad_request_run rf w : bad_request rf w = (tt, bad_requested rf w).
Proof.
  unfold bad_request, send_prefix_file, send_bytes, shutdown_wr, close,
    get_world, set_stats, bad_requested, file_bytes_u32.
  mstep. cbn [input sent shut_wr closed stats semaphore].
  rewrite take_take, Nat.min_id. reflexivity.
Qed.

Lemma check_prefix_short rf w :
  blen (input w) < 4 ->
  check_prefix rf w = (true, replied "invalid message" (with_input [] w)).
Proof.
  intros Hlen. unfold check_prefix. mstep.
  rewrite read_bytes_short by exact Hlen.
  rewrite invalid_message_run. reflexivity.
Qed.

Lemma check_prefix_magic rf w rest :
  input w = magic ++ rest ->
  check_prefix rf w = (false, with_input rest w).
Proof.
  intros Hin. unfold check_prefix. mstep.
  rewrite (read_bytes_enough 4 magic rest) by (exact Hin || reflexivity).
  reflexivity.
Qed.

Lemma check_prefix_mismatch rf w p rest :
  input w = p ++ rest -> length p = 4%nat -> p <> magic ->
  check_prefix rf w = (true, bad_requested rf (with_input rest w)).
Proof.
  intros Hin Hlen Hne. unfold check_prefix. mstep.
  rewrite (read_bytes_enough 4 p rest)
    by (exact Hin || (unfold blen; rewrite Hlen; reflexivity)).
  destruct (Z.eqb_spec (le32toh p) PREFIX) as [Heq|_].
  - apply le32toh_magic in Heq; [contradiction | exact Hlen].
  - cbn [negb]. rewrite bad_request_run. reflexivity.
Qed.

Lemma check_operation_eof w :
  input w = [] ->
  check_operation w
  = (OPERATION_ERROR, replied "invalid message" (with_input [] w)).
Proof.
  intros Hin. unfold check_operation. mstep.
  rewrite read_bytes_short by (rewrite Hin; reflexivity).
  rewrite invalid_message_run. reflexivity.
Qed.

Lemma check_operation_wrong w op rest :
  input w = op :: rest -> 1 < byte_to_Z op ->
  check_operation w
  = (OPERATION_ERROR, replied "invalid operation type" (with_input rest w)).
Proof.
  intros Hin Hop. unfold check_operation. mstep.
  rewrite (read_bytes_enough 1 [op] rest) by (exact Hin || reflexivity).
  destruct (Z.gtb_spec (byte_to_Z op) 1); [|lia].
  unfold wrong_operation. rewrite error_reply_run by (vm_compute; discriminate).
  reflexivity.
Qed.

Lemma check_operation_valid w op rest :
  input w = op :: rest -> byte_to_Z op <= 1 ->
  check_operation w = (byte_to_Z op, with_input rest w).
Proof.
  intros Hin Hop. unfold check_operation. mstep.
  rewrite (read_bytes_enough 1 [op] rest) by (exact Hin || reflexivity).
  destruct (Z.gtb_spec (byte_to_Z op) 1); [lia|]. reflexivity.
Qed.

Lemma check_image_size_zero info w :
  check_image_size 0 info w = (true, replied "image is 0 bytes" w).
Proof.
  unfold check_image_size. cbn [Z.eqb]. mstep.
  rewrite error_reply_run by (vm_compute; discriminate). reflexivity.
Qed.

Lemma check_image_size_large imageSize info w :
  imageSize <> 0 -> info_maxSize info <> 0 -> info_maxSize info < imageSize ->
  check_image_size imageSize info w = (true, replied "image too large" w).
Proof.
  intros Hnz Hcap Hbig. unfold check_image_size.
  destruct (Z.eqb_spec imageSize 0); [contradiction|].
  destruct (Z.eqb_spec (info_maxSize info) 0); [contradiction|].
  destruct (Z.gtb_spec imageSize (info_maxSize info)); [|lia].
  cbn [negb andb]. mstep.
  rewrite error_reply_run by (vm_compute; discriminate). reflexivity.
Qed.

Lemma check_image_size_valid imageSize info w :
  imageSize <> 0 -> (info_maxSize info = 0 \/ imageSize <= info_maxSize info) ->
  check_image_size imageSize info w = (false, w).
Proof.
  intros Hnz Hcap. unfold check_image_size.
  destruct (Z.eqb_spec imageSize 0); [contradiction|].
  destruct (Z.eqb_spec (info_maxSize info) 0); [reflexivity|].
  destruct (Z.gtb_spec imageSize (info_maxSize info)); [lia|]. reflexivity.
Qed.

Lemma determine_image_size_short info w :
  blen (input w) < 4 ->
  determine_image_size info w
  = (0, replied "invalid message" (with_input [] w)).
Proof.
  intros Hlen. unfold determine_image_size. mstep.
  rewrite read_bytes_short by exact Hlen.
  rewrite invalid_message_run. reflexivity.
Qed.

Lemma determine_image_size_run info w l rest :
  input w = l ++ rest -> length l = 4%nat ->
  determine_image_size info w
  = let '(bad, w') := check_image_size (le32toh l) info (with_input rest w) in
    (if bad : bool then 0 else le32toh l, w').
Proof.
  intros Hin Hlen. unfold determine_image_size. mstep.
  rewrite (read_bytes_enough 4 l rest)
    by (exact Hin || (unfold blen; rewrite Hlen; reflexivity)).
  destruct (check_image_size _ _ _) as [[] w']; reflexivity.
Qed.

Lemma read_replacement_run info w l image rest :
  input w = l ++ image ++ rest -> length l = 4%nat ->
  le32toh l = blen image -> blen image <> 0 ->
  (info_maxSize info = 0 \/ blen image <= info_maxSize info) ->
  read_replacement info w = (Some image, with_input rest w).
Proof.
  intros Hin Hlen Hsize Hnz Hcap. unfold read_replacement. mstep.
  rewrite (read_bytes_enough 4 l (image ++ rest))
    by (exact Hin || (unfold blen; rewrite Hlen; reflexivity)).
  rewrite Hsize, check_image_size_valid by assumption.
  rewrite (read_bytes_enough (blen image) image rest) by reflexivity.
  reflexivity.
Qed.

End WorkerFacts.

(* ===================================================================== *)
(** * Claims about one request on a connection *)
(* ===================================================================== *)

Section WorkerClaims.
Import Wire Server.
Context `{V : Vision}.
Variable responsefile : list byte.
Variable info : ClientInfo.

Ltac mstep := unfold mbind, M_bind, mret, M_ret; cbn beta iota.

(** C1.  On a request whose prefix matches the magic the server checks, in
    this order: the operation byte (neither 0 nor 1: 'invalid operation
    type'), the little-endian primary length (0: 'image is 0 bytes'; above
    the configured cap: 'image too large'), and the payload (shorter than
    the length: 'invalid message').  Each reply is one operation-3 frame
    whose payload is the text alone, followed by the half-close and the
    close, and the loop ends. *)
Theorem request_validation_order argv params w op rest :
  parse_command_line argv = Return params ->
  info_maxSize info = maxSize params ->
  input w = magic ++ op :: rest ->
  (1 < byte_to_Z op ->
   serve_request responsefile info w
   = (false, replied "invalid operation type" (with_input rest w)))
  /\ (byte_to_Z op <= 1 ->
      forall len payload, rest = len ++ payload -> length len = 4%nat ->
        (le32toh len = 0 ->
         serve_request responsefile info w
         = (false, replied "image is 0 bytes" (with_input payload w)))
        /\ (maxSize params < le32toh len ->
            serve_request responsefile info w
            = (false, replied "image too large" (with_input payload w)))
        /\ (0 < le32toh len <= maxSize params ->
            blen payload < le32toh len ->
            serve_request responsefile info w
            = (false, replied "invalid message" (with_input [] w)))).
Proof.
  intros Hparse Hcap Hin.
  pose proof (parse_command_line_maxSize _ _ Hparse) as Hmax.
  unfold serve_request. mstep.
  rewrite (check_prefix_magic _ _ (op :: rest)) by exact Hin.
  split.
  - intros Hop.
    rewrite (check_operation_wrong _ op rest) by (reflexivity || exact Hop).
    reflexivity.
  - intros Hop len payload -> Hlen.
    rewrite (check_operation_valid _ op (len ++ payload))
      by (reflexivity || exact Hop).
    pose proof (byte_to_Z_range op).
    destruct (Z.eqb_spec (byte_to_Z op) OPERATION_ERROR) as [E|_];
      [unfold OPERATION_ERROR in E; lia|].
    rewrite (determine_image_size_run _ _ len payload)
      by (reflexivity || exact Hlen).
    split; [|split].
    + intros ->. rewrite check_image_size_zero. reflexivity.
    + intros Hbig.
      rewrite check_image_size_large by lia. reflexivity.
    + intros Hok Hshort.
      rewrite check_image_size_valid by lia.
      destruct (Z.eqb_spec 0 (le32toh len)); [lia|].
      rewrite read_bytes_short by exact Hshort.
      rewrite invalid_message_run. reflexivity.
Qed.

(** C5 (amended).  When the peer has closed and no byte of a next request
    arrives, the worker sends one operation-3 frame with the payload
    'invalid message', half-closes and closes, and the loop ends: in this
    turn and so in the whole run. *)
Theorem eof_at_prefix_boundary w :
  input w = [] ->
  serve_request responsefile info w = (false, replied "invalid message" w)
  /\ sent (run (task_executor responsefile info) w)
     = sent w ++ error_frame "invalid message".
Proof.
  intros Hin.
  assert (Hturn : serve_request responsefile info w
                  = (false, replied "invalid message" w)).
  { unfold serve_request. mstep.
    rewrite check_prefix_short by (rewrite Hin; reflexivity).
    rewrite <- Hin, with_input_same. reflexivity. }
  split; [exact Hturn|].
  unfold run, task_executor, get_world. mstep. rewrite Hin.
  cbn [length serve_loop]. mstep. rewrite Hturn.
  unfold sem_post, update_client_stats, get_world, set_stats. mstep.
  destruct (limitConnections info); reflexivity.
Qed.

(** ** What leaves [badRequests] alone *)

Lemma keeps_ret {A} (a : A) : keeps_badRequests (mret a).
Proof. intros w. reflexivity. Qed.

Lemma keeps_bind {A B} (m : M A) (k : A -> M B) :
  keeps_badRequests m -> (forall a, keeps_badRequests (k a)) ->
  keeps_badRequests (m ≫= k).
Proof.
  intros Hm Hk w. unfold mbind, M_bind.
  specialize (Hm w). destruct (m w) as [a w1]. cbn [snd] in Hm.
  rewrite <- Hm. apply Hk.
Qed.

Lemma keeps_read_bytes n : keeps_badRequests (read_bytes n).
Proof.
  intros w. unfold read_bytes, get_world, set_input. mstep.
  destruct (n <=? blen (input w)); reflexivity.
Qed.

Lemma keeps_send_output op output size :
  keeps_badRequests (send_output op output size).
Proof. intros w. reflexivity. Qed.

Lemma keeps_error_reply text : keeps_badRequests (error_reply text).
Proof. intros w. reflexivity. Qed.

Lemma keeps_bump_faceDetections : keeps_badRequests bump_faceDetections.
Proof. intros w. reflexivity. Qed.

Lemma keeps_bump_faceReplacements : keeps_badRequests bump_faceReplacements.
Proof. intros w. reflexivity. Qed.

Create HintDb keeps.
Hint Resolve keeps_read_bytes keeps_send_output keeps_error_reply
  keeps_bump_faceDetections keeps_bump_faceReplacements : keeps.

Ltac keeps :=
  repeat first
    [ apply keeps_ret
    | apply keeps_bind
    | solve [auto with keeps]
    | match goal with
      | |- forall _, _ => intro
      | |- keeps_badRequests (match ?x with _ => _ end) => destruct x
      | |- keeps_badRequests (if ?b then _ else _) => destruct b
      end ].

Lemma keeps_check_image_size imageSize :
  keeps_badRequests (check_image_size imageSize info).
Proof. unfold check_image_size. keeps. Qed.

Lemma keeps_check_operation : keeps_badRequests check_operation.
Proof.
  unfold check_operation, invalid_message, wrong_operation. keeps.
Qed.

Hint Resolve keeps_check_image_size keeps_check_operation : keeps.

Lemma keeps_determine_image_size :
  keeps_badRequests (determine_image_size info).
Proof. unfold determine_image_size, invalid_message. keeps. Qed.

Lemma keeps_read_replacement : keeps_badRequests (read_replacement info).
Proof. unfold read_replacement, invalid_message. keeps. Qed.

Hint Resolve keeps_determine_image_size keeps_read_replacement : keeps.

Lemma keeps_image_executor image operation :
  keeps_badRequests (image_executor info image operation).
Proof.
  unfold image_executor, execute_replacement, create_replacement,
    output_face_detection, invalid_image, no_faces.
  keeps.
Qed.

Hint Resolve keeps_image_executor : keeps.

(** After a matching prefix nothing in the turn touches [badRequests]. *)
Lemma serve_request_magic_keeps w rest :
  input w = magic ++ rest ->
  badRequests (stats (snd (serve_request responsefile info w)))
  = badRequests (stats w).
Proof.
  intros Hin. unfold serve_request.
  unfold mbind at 1, M_bind at 1.
  rewrite (check_prefix_magic _ _ rest) by exact Hin. cbn beta iota.
  match goal with
  | |- badRequests (stats (snd (?m ?w1))) = _ =>
      assert (H : keeps_badRequests m)
        by (unfold invalid_message; keeps);
      exact (H w1)
  end.
Qed.

(** C4 (amended).  At the start of every request of a connection, the first
    or a later one: the worker counts a malformed request, sends the
    response file as it is (a file of fewer than 2^32 bytes) with no error
    frame, half-closes and closes, exactly when four bytes arrive and differ
    from the magic. *)
Theorem bad_prefix_path_at_every_request w :
  blen responsefile <= UINT32_MAX ->
  (exists p rest, input w = p ++ rest /\ length p = 4%nat /\ p <> magic)
  <->
  (let w' := snd (serve_request responsefile info w) in
   badRequests (stats w') = wrap32 (badRequests (stats w) + 1)
   /\ sent w' = sent w ++ responsefile
   /\ shut_wr w' = true /\ closed w' = true).
Proof.
  intros Hfile. split.
  - intros (p & rest & Hin & Hlen & Hne).
    unfold serve_request. mstep.
    rewrite (check_prefix_mismatch _ _ p rest) by assumption.
    cbn [snd bad_requested with_input stats sent shut_wr closed badRequests].
    unfold file_bytes_u32.
    rewrite (wrap32_small (blen responsefile))
      by (pose proof (blen_nonneg responsefile); lia).
    unfold blen. rewrite Nat2Z.id, firstn_all. auto.
  - cbn zeta. intros (Hbad & _).
    destruct (Z.ltb_spec (blen (input w)) 4) as [Hshort|Hlong].
    + exfalso. revert Hbad. unfold serve_request. mstep.
      rewrite check_prefix_short by exact Hshort. cbn.
      intros Heq. symmetry in Heq. exact (wrap32_succ_neq _ Heq).
    + exists (take 4 (input w)), (drop 4 (input w)).
      assert (Hlen : length (take 4 (input w)) = 4%nat)
        by (rewrite length_take; unfold blen in Hlong; lia).
      split; [symmetry; apply take_drop|]. split; [exact Hlen|].
      intros Hmagic. 
      pose proof (serve_request_magic_keeps w (drop 4 (input w))) as Hkeep.
      rewrite <- Hmagic, take_drop in Hkeep. specialize (Hkeep eq_refl).
      rewrite Hkeep in Hbad. symmetry in Hbad.
      exact (wrap32_succ_neq _ Hbad).
Qed.

(** C6.  A server started with 0 as its maxsize argument has the cap
    [UINT32_MAX]; for every length a request can declare, [check_image_size]
    then replies 'image is 0 bytes' to 0 and accepts every other length
    without sending anything: 'image too large' never goes out. *)
Theorem zero_maxsize_never_too_large argv params imageSize w :
  parse_command_line argv = Return params ->
  fst (strtoul (arg argv 2)) = 0 ->
  info_maxSize info = maxSize params ->
  0 <= imageSize <= UINT32_MAX ->
  maxSize params = UINT32_MAX
  /\ check_image_size imageSize info w
     = (if imageSize =? 0
        then (true, replied "image is 0 bytes" w) else (false, w))
  /\ snd (check_image_size imageSize info w) <> replied "image too large" w.
Proof.
  intros Hparse Hzero Hcap Hsize.
  pose proof (parse_command_line_zero_maxSize _ _ Hparse Hzero) as Hmax.
  assert (Hrun : check_image_size imageSize info w
                 = (if imageSize =? 0
                    then (true, replied "image is 0 bytes" w) else (false, w))).
  { destruct (Z.eqb_spec imageSize 0) as [->|Hnz].
    - apply check_image_size_zero.
    - apply check_image_size_valid; [exact Hnz | right; lia]. }
  split; [exact Hmax | split; [exact Hrun|]].
  rewrite Hrun. destruct (imageSize =? 0); cbn [snd].
  - intros Heq. apply (f_equal sent) in Heq. cbn [sent replied] in Heq.
    apply app_inv_head in Heq. vm_compute in Heq. discriminate.
  - intros Heq. apply (f_equal sent) in Heq. cbn [sent replied] in Heq.
    rewrite <- (app_nil_r (sent w)) in Heq at 1.
    apply app_inv_head in Heq. vm_compute in Heq. discriminate.
Qed.

(** Round trip, for images within the cap and, with a replace file, with
    offsets that fit [int]: on the bytes [create_request] built, the
    server's reads accept the prefix, return the operation and the primary
    length, read the primary image as it was and, for operation 1, read the
    secondary image as it was; the request is consumed to its last byte and
    nothing is sent. *)
Theorem request_round_trip imageOne imageTwo params request w :
  0 < info_maxSize info <= UINT32_MAX ->
  0 < blen imageOne <= info_maxSize info ->
  (Client.replaceFileGiven params = true ->
   0 < blen imageTwo <= info_maxSize info
   /\ Client.PREIMAGE_SIZE + blen imageOne + Client.FOUR <= INT_MAX) ->
  Client.create_request imageOne imageTwo params = Some request ->
  input w = request ->
  exists r1 r2 r3 r4,
    check_prefix responsefile w = (false, with_input r1 w)
    /\ check_operation (with_input r1 w)
       = (if Client.replaceFileGiven params then 1 else 0, with_input r2 w)
    /\ determine_image_size info (with_input r2 w)
       = (blen imageOne, with_input r3 w)
    /\ read_bytes (blen imageOne) (with_input r3 w)
       = (Some imageOne, with_input r4 w)
    /\ if Client.replaceFileGiven params
       then read_replacement info (with_input r4 w)
            = (Some imageTwo, with_input [] w)
       else r4 = [].
Proof.
  intros Hcap H1 H2 Hreq Hin.
  destruct (Client.replaceFileGiven params) eqn:Hflag.
  - destruct (H2 eq_refl) as [H2' Hfit].
    rewrite create_request_replace in Hreq by assumption.
    injection Hreq as <-. unfold Client.header in Hin.
    rewrite !wrap32_small in Hin by lia.
    rewrite <- ?app_assoc in Hin.
    set (len1 := le32_bytes (blen imageOne)) in *.
    set (len2 := le32_bytes (blen imageTwo)) in *.
    assert (Hl1 : le32toh len1 = blen imageOne)
      by (unfold len1; rewrite le32toh_le32_bytes, wrap32_small by lia;
          reflexivity).
    assert (Hl2 : le32toh len2 = blen imageTwo)
      by (unfold len2; rewrite le32toh_le32_bytes, wrap32_small by lia;
          reflexivity).
    exists ([Byte.x01] ++ len1 ++ imageOne ++ len2 ++ imageTwo),
      (len1 ++ imageOne ++ len2 ++ imageTwo),
      (imageOne ++ len2 ++ imageTwo), (len2 ++ imageTwo).
    split; [apply check_prefix_magic; exact Hin|].
    split.
    { rewrite (check_operation_valid _ Byte.x01
                 (len1 ++ imageOne ++ len2 ++ imageTwo));
        [reflexivity | reflexivity | vm_compute; discriminate]. }
    split.
    { rewrite (determine_image_size_run _ _ len1
                 (imageOne ++ len2 ++ imageTwo)) by reflexivity.
      rewrite Hl1, check_image_size_valid by lia. reflexivity. }
    split.
    { rewrite (read_bytes_enough _ imageOne (len2 ++ imageTwo))
        by reflexivity. reflexivity. }
    rewrite (read_replacement_run _ _ len2 imageTwo []);
      cbn [input with_input]; rewrite ?app_nil_r;
      try reflexivity; try lia.
  - rewrite create_request_detect in Hreq by assumption.
    injection Hreq as <-. unfold Client.header in Hin.
    rewrite !wrap32_small in Hin by lia.
    rewrite <- ?app_assoc in Hin.
    set (len1 := le32_bytes (blen imageOne)) in *.
    assert (Hl1 : le32toh len1 = blen imageOne)
      by (unfold len1; rewrite le32toh_le32_bytes, wrap32_small by lia;
          reflexivity).
    exists ([Byte.x00] ++ len1 ++ imageOne), (len1 ++ imageOne), imageOne, [].
    split; [apply check_prefix_magic; exact Hin|].
    split.
    { rewrite (check_operation_valid _ Byte.x00 (len1 ++ imageOne));
        [reflexivity | reflexivity | vm_compute; discriminate]. }
    split.
    { rewrite (determine_image_size_run _ _ len1 imageOne) by reflexivity.
      rewrite Hl1, check_image_size_valid by lia. reflexivity. }
    split; [|reflexivity].
    rewrite (read_bytes_enough _ imageOne [])
      by (cbn [input with_input]; rewrite ?app_nil_r; reflexivity).
    reflexivity.
Qed.

End WorkerClaims.

(* ===================================================================== *)
(** * The claims on concrete connections *)
(* ===================================================================== *)

Section WorkerExamples.
Import Wire Server.

Lemma request_validation_order_witness :
  serve_request (V:=echo_vision) canned_response capped_1000
    (accepted_connection (magic ++ [Byte.x07]))
  = (false, replied "invalid operation type"
              (with_input [] (accepted_connection (magic ++ [Byte.x07]))))
  /\ serve_request (V:=echo_vision) canned_response capped_1000
       (accepted_connection
          (magic ++ [Byte.x00; Byte.x00; Byte.x00; Byte.x00; Byte.x00]))
     = (false, replied "image is 0 bytes"
                 (with_input []
                    (accepted_connection
                       (magic ++ [Byte.x00; Byte.x00; Byte.x00; Byte.x00;
                                  Byte.x00]))))
  /\ serve_request (V:=echo_vision) canned_response capped_1000
       (accepted_connection
          (magic ++ [Byte.x00; Byte.xd0; Byte.x07; Byte.x00; Byte.x00]))
     = (false, replied "image too large"
                 (with_input []
                    (accepted_connection
                       (magic ++ [Byte.x00; Byte.xd0; Byte.x07; Byte.x00;
                                  Byte.x00]))))
  /\ serve_request (V:=echo_vision) canned_response capped_1000
       (accepted_connection
          (magic ++ [Byte.x01; Byte.x03; Byte.x00; Byte.x00; Byte.x00;
                     Byte.xff]))
     = (false, replied "invalid message"
                 (with_input []
                    (accepted_connection
                       (magic ++ [Byte.x01; Byte.x03; Byte.x00; Byte.x00;
                                  Byte.x00; Byte.xff])))).
Proof.
  pose (argv := ["./uqfacedetect"; "0"; "1000"]%string).
  pose (params := mkParams 0 1000 "0" false).
  split; [|split; [|split]].
  - apply (proj1 (request_validation_order (V:=echo_vision) canned_response
                    capped_1000 argv params
                    (accepted_connection (magic ++ [Byte.x07])) Byte.x07 []
                    eq_refl eq_refl eq_refl)).
    reflexivity.
  - apply (proj2 (request_validation_order (V:=echo_vision) canned_response
                    capped_1000 argv params
                    (accepted_connection
                       (magic ++ [Byte.x00; Byte.x00; Byte.x00; Byte.x00;
                                  Byte.x00])) Byte.x00
                    [Byte.x00; Byte.x00; Byte.x00; Byte.x00]
                    eq_refl eq_refl eq_refl)
             ltac:(vm_compute; discriminate)
             [Byte.x00; Byte.x00; Byte.x00; Byte.x00] [] eq_refl eq_refl).
    reflexivity.
  - apply (proj2 (request_validation_order (V:=echo_vision) canned_response
                    capped_1000 argv params
                    (accepted_connection
                       (magic ++ [Byte.x00; Byte.xd0; Byte.x07; Byte.x00;
                                  Byte.x00])) Byte.x00
                    [Byte.xd0; Byte.x07; Byte.x00; Byte.x00]
                    eq_refl eq_refl eq_refl)
             ltac:(vm_compute; discriminate)
             [Byte.xd0; Byte.x07; Byte.x00; Byte.x00] [] eq_refl eq_refl).
    reflexivity.
  - apply (proj2 (request_validation_order (V:=echo_vision) canned_response
                    capped_1000 argv params
                    (accepted_connection
                       (magic ++ [Byte.x01; Byte.x03; Byte.x00; Byte.x00;
                                  Byte.x00; Byte.xff])) Byte.x01
                    [Byte.x03; Byte.x00; Byte.x00; Byte.x00; Byte.xff]
                    eq_refl eq_refl eq_refl)
             ltac:(vm_compute; discriminate)
             [Byte.x03; Byte.x00; Byte.x00; Byte.x00] [Byte.xff]
             eq_refl eq_refl).
    + vm_compute. split; [reflexivity | discriminate].
    + reflexivity.
Defined.

(** C5 (counterexample).  A peer sends one detect request, reads the
    reply and closes: end of file comes exactly where the next prefix would
    start.  After the image reply the worker still sends the error frame
    'invalid message'. *)
Lemma eof_between_requests_sends_error_frame :
  sent (run (task_executor (V:=echo_vision) canned_response uncapped)
          (accepted_connection small_request))
  = small_reply ++ error_frame "invalid message".
Proof. vm_compute. reflexivity. Qed.

Lemma eof_at_prefix_boundary_witness :
  input (accepted_connection []) = []
  /\ serve_request (V:=echo_vision) canned_response uncapped
       (accepted_connection [])
     = (false, replied "invalid message" (accepted_connection []))
  /\ sent (run (task_executor (V:=echo_vision) canned_response uncapped)
             (accepted_connection []))
     = sent (accepted_connection []) ++ error_frame "invalid message".
Proof.
  split; [reflexivity|].
  apply (eof_at_prefix_boundary (V:=echo_vision) canned_response uncapped
           (accepted_connection [])).
  reflexivity.
Defined.

(** C4 (counterexample).  The first four bytes of the connection are the
    magic and the first request is served; the four zero bytes that follow
    it, at the start of the second request, take the response-file path all
    the same: the file goes out after the image reply and [badRequests]
    becomes 1. *)
Lemma bad_prefix_on_second_request :
  take 4 (small_request ++ [Byte.x00; Byte.x00; Byte.x00; Byte.x00]) = magic
  /\ sent (run (task_executor (V:=echo_vision) canned_response uncapped)
             (accepted_connection
                (small_request ++ [Byte.x00; Byte.x00; Byte.x00; Byte.x00])))
     = small_reply ++ canned_response
  /\ badRequests
       (stats (run (task_executor (V:=echo_vision) canned_response uncapped)
                 (accepted_connection
                    (small_request
                     ++ [Byte.x00; Byte.x00; Byte.x00; Byte.x00]))))
     = 1.
Proof. vm_compute. repeat split; reflexivity. Qed.

Lemma bad_prefix_path_at_every_request_witness :
  blen canned_response <= UINT32_MAX
  /\ ((exists p rest,
         input (accepted_connection
                  [Byte.x00; Byte.x00; Byte.x00; Byte.x00]) = p ++ rest
         /\ length p = 4%nat /\ p <> magic)
      <->
      (let w' := snd (serve_request (V:=echo_vision) canned_response uncapped
                        (accepted_connection
                           [Byte.x00; Byte.x00; Byte.x00; Byte.x00])) in
       badRequests (stats w')
       = wrap32 (badRequests
                   (stats (accepted_connection
                             [Byte.x00; Byte.x00; Byte.x00; Byte.x00])) + 1)
       /\ sent w'
          = sent (accepted_connection
                    [Byte.x00; Byte.x00; Byte.x00; Byte.x00])
            ++ canned_response
       /\ shut_wr w' = true /\ closed w' = true)).
Proof.
  assert (Hfile : blen canned_response <= UINT32_MAX)
    by (vm_compute; discriminate).
  split; [exact Hfile|].
  exact (bad_prefix_path_at_every_request (V:=echo_vision) canned_response
           uncapped
           (accepted_connection [Byte.x00; Byte.x00; Byte.x00; Byte.x00])
           Hfile).
Defined.

Lemma zero_maxsize_never_too_large_witness :
  parse_command_line ["./uqfacedetect"; "5"; "0"]%string
  = Return (mkParams 5 UINT32_MAX "0" false)
  /\ check_image_size UINT32_MAX uncapped (accepted_connection [])
     = (false, accepted_connection [])
  /\ snd (check_image_size UINT32_MAX uncapped (accepted_connection []))
     <> replied "image too large" (accepted_connection []).
Proof.
  split; [reflexivity|].
  apply (zero_maxsize_never_too_large
           uncapped ["./uqfacedetect"; "5"; "0"]%string
           (mkParams 5 UINT32_MAX "0" false) UINT32_MAX
           (accepted_connection []));
    [reflexivity | reflexivity | reflexivity | vm_compute; split; discriminate].
Defined.

(** C3 (the code at the failing input).  Under the cap [UINT32_MAX] a
    replace request with a primary image of 2^31 - 9 bytes and a secondary
    image of one byte is valid, [check_image_size] accepts both lengths
    without a reply, but [create_request] builds no request for it, so
    there is nothing for the server to decode. *)
Theorem round_trip_lost_above_int_max :
  check_image_size (blen Client.two_gib_image) uncapped
    (accepted_connection [])
  = (false, accepted_connection [])
  /\ check_image_size (blen [Byte.x01]) uncapped (accepted_connection [])
     = (false, accepted_connection [])
  /\ Client.create_request Client.two_gib_image [Byte.x01]
       Client.replace_params = None.
Proof.
  rewrite blen_two_gib_image.
  split; [reflexivity | split; [reflexivity|]].
  apply create_request_overflow; [reflexivity|].
  rewrite blen_two_gib_image.
  unfold INT_MAX, Client.PREIMAGE_SIZE, UINT32_MAX. lia.
Qed.

Lemma request_round_trip_witness :
  exists r1 r2 r3 r4,
    check_prefix canned_response (accepted_connection small_request)
    = (false, with_input r1 (accepted_connection small_request))
    /\ check_operation (with_input r1 (accepted_connection small_request))
       = (0, with_input r2 (accepted_connection small_request))
    /\ determine_image_size capped_1000
         (with_input r2 (accepted_connection small_request))
       = (2, with_input r3 (accepted_connection small_request))
    /\ read_bytes 2 (with_input r3 (accepted_connection small_request))
       = (Some [Byte.xff; Byte.xd8],
          with_input r4 (accepted_connection small_request))
    /\ r4 = [].
Proof.
  apply (request_round_trip canned_response capped_1000
           [Byte.xff; Byte.xd8] [] Client.detect_params small_request
           (accepted_connection small_request));
    try reflexivity;
    try (vm_compute; split; [reflexivity | discriminate]).
  intros H. vm_compute in H. discriminate H.
Defined.

End WorkerExamples.

(* ===================================================================== *)
(** * Admission: the statistics follow the accepted connections *)
(* ===================================================================== *)

Section AdmissionFacts.
Import Wire Admission.

Lemma LockInv_init limit : LockInv (init limit).
Proof.
  unfold init. constructor; cbn.
  - split; discriminate.
  - intros t pc H. rewrite lookup_empty in H. discriminate.
  - discriminate.
  - intros t [pc H]. rewrite lookup_empty in H. discriminate.
  - discriminate.
Qed.

Ltac lookup_cases :=
  repeat match goal with
  | H : context [<[?i := _]> _ !! ?j] |- _ =>
      destruct (decide (i = j)) as [->|?];
      [ rewrite lookup_insert_eq in H
      | rewrite lookup_insert_ne in H by assumption ]
  | |- context [<[?i := _]> _ !! ?j] =>
      destruct (decide (i = j)) as [->|?];
      [ rewrite lookup_insert_eq | rewrite lookup_insert_ne by assumption ]
  | H : context [delete ?i _ !! ?j] |- _ =>
      destruct (decide (i = j)) as [->|?];
      [ rewrite lookup_delete_eq in H
      | rewrite lookup_delete_ne in H by assumption ]
  | |- context [delete ?i _ !! ?j] =>
      destruct (decide (i = j)) as [->|?];
      [ rewrite lookup_delete_eq | rewrite lookup_delete_ne by assumption ]
  end.

Lemma is_Some_update (w : gmap nat WPc) t pc pc' t' :
  w !! t = Some pc -> is_Some (<[t := pc']> w !! t') -> is_Some (w !! t').
Proof.
  intros Ht. destruct (decide (t = t')) as [->|Hne].
  - intros _. eauto.
  - rewrite lookup_insert_ne by exact Hne. auto.
Qed.

Lemma is_Some_delete (w : gmap nat WPc) t t' :
  is_Some (delete t w !! t') -> is_Some (w !! t').
Proof.
  destruct (decide (t = t')) as [->|Hne].
  - rewrite lookup_delete_eq. intros [? ?]. discriminate.
  - rewrite lookup_delete_ne by exact Hne. auto.
Qed.

Ltac use_worker Hw Hf :=
  repeat match goal with
  | H : ?w !! ?t = Some ?pc |- _ =>
      lazymatch goal with
      | _ : critical pc = true <-> _ = Some (Worker t) |- _ => fail
      | _ => pose proof (Hw _ _ H); pose proof (Hf t (mk_is_Some _ _ H))
      end
  end.

(** Mutual exclusion on the statistics mutex, and fresh worker numbers. *)
Lemma LockInv_step t s s' : LockInv s -> step t s s' -> LockInv s'.
Proof.
  intros [Ha Hw Hl Hf Hh] Hstep.
  destruct Hstep; cbn in *; constructor; cbn.
  all: try solve [intros; (assumption || lia || auto)].
  (* the acceptor and the mutex *)
  all: try match goal with
       | |- _ = true <-> _ = Some Acceptor =>
           use_worker Hw Hf; cbn in *; intuition congruence
       end.
  (* a worker and the mutex *)
  all: try match goal with
       | |- forall t pc, _ !! t = Some pc -> _ =>
           intros t' pc' Hpc'; lookup_cases; simplify_eq;
           use_worker Hw Hf; cbn in *;
           try solve [intuition (congruence || lia)]
       end.
  (* the owner is a live worker *)
  all: try match goal with
       | |- forall t, _ = Some (Worker t) -> is_Some _ =>
           intros t' Hown; lookup_cases; simplify_eq;
           use_worker Hw Hf; cbn in *;
           try solve [eauto | intuition (congruence || lia)]
       end.
  (* worker numbers are below the number of accepted connections *)
  all: try match goal with
       | |- forall t, is_Some _ -> _ /\ _ =>
           intros t' Hsome;
           try (eapply is_Some_update in Hsome; [|eassumption]);
           try apply is_Some_delete in Hsome;
           try solve [pose proof (Hf t' Hsome); cbn in *; intuition lia]
       end.
  - (* pthread_create: the new worker *)
    destruct (decide (pred k = t')) as [E|E].
    + rewrite E, lookup_insert_eq in Hpc'. simplify_eq. cbn.
      split; [discriminate|]. intros Hown.
      destruct (Hf _ (Hl _ Hown)) as [_ Hne]. exfalso. apply Hne; reflexivity.
    + rewrite lookup_insert_ne in Hpc' by exact E. apply Hw. exact Hpc'.
  - specialize (Hh eq_refl).
    destruct (decide (pred k = t')) as [E|E].
    + split; [lia | discriminate].
    + rewrite lookup_insert_ne in Hsome by exact E.
      destruct (Hf _ Hsome). split; [assumption | discriminate].
Qed.

Lemma reachable_LockInv limit s : reachable limit s -> LockInv s.
Proof.
  induction 1 as [|t s s' _ IH Hstep].
  - apply LockInv_init.
  - eapply LockInv_step; eassumption.
Qed.

(** ** Counting the workers that [currClients] stands for *)

Lemma cnt_update_same w t pc pc' :
  w !! t = Some pc -> counted pc = counted pc' ->
  cnt (<[t := pc']> w) = cnt w.
Proof.
  intros Ht Hc. unfold cnt. rewrite map_filter_insert. cbn.
  destruct (decide (counted pc' = true)) as [Hp|Hp].
  - apply map_size_insert_Some. exists pc.
    apply map_lookup_filter_Some. split; [exact Ht | cbn; congruence].
  - f_equal. apply map_filter_delete_not. intros y Hy. cbn. congruence.
Qed.

Lemma cnt_update_drop w t pc pc' :
  w !! t = Some pc -> counted pc = true -> counted pc' = false ->
  S (cnt (<[t := pc']> w)) = cnt w.
Proof.
  intros Ht Hc Hc'. unfold cnt.
  rewrite map_filter_insert_False by (cbn; congruence).
  rewrite map_filter_delete.
  assert (Hin : filter (fun p => counted p.2 = true) w !! t = Some pc)
    by (apply map_lookup_filter_Some; split; [exact Ht | exact Hc]).
  rewrite map_size_delete, Hin.
  assert (size (filter (fun p => counted p.2 = true) w) <> 0)%nat; [|lia].
  apply map_size_non_empty_iff. intros Hempty.
  rewrite Hempty, lookup_empty in Hin. discriminate.
Qed.

Lemma cnt_insert_new w t pc :
  w !! t = None -> counted pc = true -> cnt (<[t := pc]> w) = S (cnt w).
Proof.
  intros Ht Hc. unfold cnt. rewrite map_filter_insert_True by exact Hc.
  apply map_size_insert_None. apply map_lookup_filter_None. left. exact Ht.
Qed.

Lemma cnt_delete_uncounted w t pc :
  w !! t = Some pc -> counted pc = false -> cnt (delete t w) = cnt w.
Proof.
  intros Ht Hc. unfold cnt. f_equal. apply map_filter_delete_not.
  intros y Hy. cbn. congruence.
Qed.

Lemma bump_curr c st : Server.currClients (bump c st) = Server.currClients st.
Proof. destruct c; reflexivity. Qed.

Lemma bump_prev c st : Server.prevClients (bump c st) = Server.prevClients st.
Proof. destruct c; reflexivity. Qed.

Lemma pexit_owner t (w : gmap nat WPc) pc :
  w !! t = Some pc ->
  pexit (Some (Worker t)) w = match pc with WInc => 1 | _ => 0 end.
Proof. intros H. unfold pexit. rewrite H. reflexivity. Qed.

(** A step of a worker that does not own the mutex. *)
Lemma pexit_other l t (w : gmap nat WPc) pc' :
  l <> Some (Worker t) -> pexit l (<[t := pc']> w) = pexit l w.
Proof.
  intros Hne. destruct l as [[|t']|]; try reflexivity.
  unfold pexit. rewrite lookup_insert_ne by congruence. reflexivity.
Qed.

Lemma Exact_step t s s' e :
  LockInv s -> Exact s e -> step t s s' -> exists e', Exact s' e'.
Proof.
  intros HL [Hcurr Hprev Hsum] Hstep.
  destruct HL as [Ha Hw Hl Hf Hh].
  unfold live, pending_accept in *.
  change (pending_exit s) with (pexit (statsLock s) (workers s)) in Hsum.
  destruct Hstep; cbn in *; use_worker Hw Hf; cbn in *.
  all: [> exists e | exists e | exists e | exists e | exists e | exists e
        | exists e | exists e | exists e | exists e | exists e | exists e
        | exists e | exists e | exists e | exists (S e) | exists e ].
  all: constructor; unfold live; cbn;
       change (pending_exit ?s) with (pexit (statsLock s) (workers s)); cbn;
       rewrite ?bump_curr, ?bump_prev.
  all: try match goal with
       | H : _ <-> ?l = Some (Worker ?t) |- _ =>
           first [ assert (l = Some (Worker t)) by (apply H; reflexivity);
                   subst l
                 | assert (l <> Some (Worker t))
                     by (intros E; apply H in E; discriminate) ]
       end.
  all: try match goal with
       | H : true = true <-> ?l = Some Acceptor |- _ =>
           assert (l = Some Acceptor) by (apply H; reflexivity); subst l
       end.
  all: try (erewrite pexit_owner in Hsum by eassumption).
  all: repeat match goal with
       | H : ?w !! ?t = Some _ |- context [cnt (<[?t := ?pc']> ?w)] =>
           first [ rewrite (cnt_update_same w t _ pc' H eq_refl)
                 | pose proof (cnt_update_drop w t _ pc' H eq_refl eq_refl);
                   generalize dependent (cnt (<[t := pc']> w)); intros ]
       | H : ?w !! ?t = Some _ |- context [cnt (delete ?t ?w)] =>
           rewrite (cnt_delete_uncounted w t _ H eq_refl)
       end.
  all: unfold pending_accept in *; cbn in *.
  all: rewrite ?lookup_insert_eq; rewrite ?pexit_other by assumption.
  all: try (erewrite (pexit_owner _ _ _ (lookup_insert_eq _ _ _))).
  all: try assumption; try lia.
  all: try (rewrite Hcurr, ?wrap32_succ, ?wrap32_pred; f_equal; lia).
  all: try (rewrite Hprev, ?wrap32_succ; f_equal; lia).
  (* pthread_create: the new worker's number is unused *)
  all: assert (Hnew : w !! pred k = None)
    by (destruct (w !! pred k) eqn:E; [|reflexivity];
        destruct (Hf (pred k) (mk_is_Some _ _ E)) as [_ Hne];
        exfalso; apply Hne; reflexivity).
  all: rewrite (cnt_insert_new w (pred k) WServe Hnew eq_refl).
  - rewrite Hcurr. f_equal. lia.
  - rewrite pexit_other; [lia|].
    intros ->. destruct (Hl _ eq_refl) as [pc Hpc]. congruence.
Qed.

Lemma Exact_init limit : Exact (init limit) 0.
Proof. constructor; reflexivity. Qed.

Lemma reachable_Exact limit s : reachable limit s -> exists e, Exact s e.
Proof.
  induction 1 as [|t s s' Hreach [e IH] Hstep].
  - exists 0%nat. apply Exact_init.
  - eapply Exact_step; eauto using reachable_LockInv.
Qed.

Lemma pending_accept_nonneg s : 0 <= pending_accept s.
Proof. unfold pending_accept. destruct (acceptor s); lia. Qed.

Lemma pending_exit_nonneg s : 0 <= pending_exit s.
Proof.
  unfold pending_exit. destruct (statsLock s) as [[|t]|]; try lia.
  destruct (workers s !! t) as [[]|]; lia.
Qed.

(** C8 (amended).  In every reachable state of the accept/worker steps,
    [currClients + prevClients], plus the updates that are under way (a
    connection accepted whose [currClients++] is still to come, a worker
    between its [currClients--] and its [prevClients++]), equals the number
    of accepted connections modulo 2^32, and equals it outright while that
    number fits 32 bits; every step that changes a counter is made by the
    thread that holds the statistics mutex. *)
Theorem stats_track_accepted limit s :
  reachable limit s ->
  wrap32 (Server.currClients (stats s) + Server.prevClients (stats s)
          + pending_accept s + pending_exit s)
  = wrap32 (Z.of_nat (accepted s))
  /\ (Z.of_nat (accepted s) <= UINT32_MAX ->
      Server.currClients (stats s) + Server.prevClients (stats s)
      + pending_accept s + pending_exit s = Z.of_nat (accepted s))
  /\ (forall t s', step t s s' -> stats s' <> stats s -> statsLock s = Some t).
Proof.
  intros Hreach.
  destruct (reachable_Exact _ _ Hreach) as [e [Hcurr Hprev Hsum]].
  pose proof (reachable_LockInv _ _ Hreach) as [Ha Hw Hl Hf Hh].
  pose proof (pending_accept_nonneg s). pose proof (pending_exit_nonneg s).
  split; [|split].
  - destruct (wrap32_eq (Z.of_nat (live s))) as [q1 H1].
    destruct (wrap32_eq (Z.of_nat e)) as [q2 H2].
    rewrite Hcurr, Hprev, H1, H2.
    apply (wrap32_congr _ _ (q1 + q2)). lia.
  - intros Hsmall. rewrite Hcurr, Hprev.
    rewrite !wrap32_small by lia. exact Hsum.
  - intros t s' Hstep Hne.
    destruct Hstep; cbn in *; try congruence.
    + apply Ha. reflexivity.
    + eapply Hw; [eassumption | reflexivity].
    + eapply Hw; [eassumption | reflexivity].
    + eapply Hw; [eassumption | reflexivity].
Qed.

Lemma just_accepted_reachable : reachable 0 just_accepted.
Proof.
  pose proof (reach_init 0) as H0. unfold init in H0. cbn in H0.
  pose proof (reach_step _ _ _ _ H0 (a_no_sem _ _ _ _)) as H1.
  exact (reach_step _ _ _ _ H1 (a_accept _ _ _ _ _)).
Qed.

(** One connection after the other: accept, count, spawn, then the worker
    leaves its loop and counts itself out. *)
Lemma served_reachable n : reachable 0 (served n).
Proof.
  induction n as [|n IH].
  - apply reach_init.
  - unfold served in *.
    pose proof (reach_step _ _ _ _ IH (a_no_sem _ _ _ _)) as H1.
    pose proof (reach_step _ _ _ _ H1 (a_accept _ _ _ _ _)) as H2.
    pose proof (reach_step _ _ _ _ H2 (a_lock _ _ _ _)) as H3.
    pose proof (reach_step _ _ _ _ H3 (a_inc _ _ _ _ _)) as H4.
    pose proof (reach_step _ _ _ _ H4 (a_unlock _ _ _ _ _)) as H5.
    pose proof (reach_step _ _ _ _ H5 (a_spawn _ _ _ _ _)) as H6.
    cbn [pred] in H6.
    pose proof (reach_step _ _ _ _ H6
                  (w_break n _ _ _ _ _ _ (lookup_insert_eq _ _ _))) as H7.
    pose proof (reach_step _ _ _ _ H7
                  (w_post n _ _ _ _ _ _ (lookup_insert_eq _ _ _))) as H8.
    pose proof (reach_step _ _ _ _ H8
                  (w_lock n _ _ _ _ _ (lookup_insert_eq _ _ _))) as H9.
    pose proof (reach_step _ _ _ _ H9
                  (w_dec n _ _ _ _ _ _ (lookup_insert_eq _ _ _))) as H10.
    pose proof (reach_step _ _ _ _ H10
                  (w_inc n _ _ _ _ _ _ (lookup_insert_eq _ _ _))) as H11.
    pose proof (reach_step _ _ _ _ H11
                  (w_unlock n _ _ _ _ _ _ (lookup_insert_eq _ _ _))) as H12.
    cbn [sem_post_value] in H12.
    rewrite !delete_insert_eq, delete_empty in H12.
    unfold prev_incr, curr_decr, curr_incr in H12.
    cbn [Server.currClients Server.prevClients Server.faceDetections
         Server.faceReplacements Server.badRequests] in H12.
    rewrite wrap32_succ in H12.
    change (wrap32 (wrap32 (0 + 1) - 1)) with 0 in H12.
    rewrite Nat2Z.inj_succ. unfold Z.succ. exact H12.
Qed.

Lemma wrapped_around_reachable : reachable 0 wrapped_around.
Proof.
  pose proof (served_reachable (Z.to_nat 4294967296)) as H.
  unfold served in H. rewrite Z2Nat.id in H by lia. exact H.
Qed.

(** C8 (counterexample).  Two reachable states in which the sum of the two
    counters is not the number of accepted connections: the state right
    after the first [accept] has returned (0 against 1), and the state
    after 2^32 connections came and went, where the 32-bit [prevClients]
    has wrapped to 0 while nothing is under way. *)
Lemma accepted_count_not_tracked :
  (reachable 0 just_accepted
   /\ Server.currClients (stats just_accepted)
      + Server.prevClients (stats just_accepted)
      <> Z.of_nat (accepted just_accepted))
  /\ (reachable 0 wrapped_around
      /\ settled wrapped_around
      /\ Server.currClients (stats wrapped_around)
         + Server.prevClients (stats wrapped_around)
         <> Z.of_nat (accepted wrapped_around)).
Proof.
  split; [split|split; [|split]].
  - apply just_accepted_reachable.
  - cbn. discriminate.
  - apply wrapped_around_reachable.
  - split; reflexivity.
  - unfold wrapped_around.
    cbn [stats accepted Server.currClients Server.prevClients].
    rewrite Z2Nat.id by lia. discriminate.
Qed.

Lemma stats_track_accepted_witness :
  reachable 0 just_accepted
  /\ wrap32 (Server.currClients (stats just_accepted)
             + Server.prevClients (stats just_accepted)
             + pending_accept just_accepted + pending_exit just_accepted)
     = wrap32 (Z.of_nat (accepted just_accepted))
  /\ (Z.of_nat (accepted just_accepted) <= UINT32_MAX ->
      Server.currClients (stats just_accepted)
      + Server.prevClients (stats just_accepted)
      + pending_accept just_accepted + pending_exit just_accepted
      = Z.of_nat (accepted just_accepted))
  /\ (forall t s', step t just_accepted s' ->
        stats s' <> stats just_accepted ->
        statsLock just_accepted = Some t).
Proof.
  split; [apply just_accepted_reachable|].
  exact (stats_track_accepted 0 just_accepted just_accepted_reachable).
Defined.

End AdmissionFacts.

(* ===================================================================== *)
(** * The detector is entered under the cascade mutex *)
(* ===================================================================== *)

Section CascadeFacts.
Import Cascade.

Lemma owner_inv_init : owner_inv init.
Proof. intros t pc H. cbn in H. rewrite lookup_empty in H. discriminate. Qed.

Lemma owner_inv_step t s s' : owner_inv s -> step t s s' -> owner_inv s'.
Proof.
  intros Hinv Hstep.
  destruct Hstep; intros t' pc' Hpc' Hholds; cbn in *;
    (destruct (decide (t = t')) as [->|Hne];
     [ rewrite lookup_insert_eq in Hpc'; simplify_eq; cbn in *;
       try discriminate; try reflexivity;
       try (eapply (Hinv t'); [eassumption | reflexivity])
     | rewrite lookup_insert_ne in Hpc' by exact Hne;
       pose proof (Hinv _ _ Hpc' Hholds) as Hown; cbn in Hown;
       try assumption; try discriminate ]).
  (* an unlock: the unlocking thread is the only one inside *)
  all: match goal with
       | H : ?th !! ?t = Some _, Hne : ?t <> _ |- _ =>
           pose proof (Hinv t _ H eq_refl) as Hmine; cbn in Hmine; congruence
       end.
Qed.

Lemma reachable_owner_inv s : reachable s -> owner_inv s.
Proof.
  induction 1; [apply owner_inv_init | eapply owner_inv_step; eassumption].
Qed.

Lemma in_detector_holds pc : in_detector pc = true -> holds pc = true.
Proof. destruct pc; cbn; congruence. Qed.

(** C9.  In every reachable state, a worker that is inside
    [cvHaarDetectObjects], for faces or for eyes, owns the cascade mutex, so
    two workers are never inside at once.  The early return of [find_faces]
    makes no call (and keeps the mutex locked). *)
Theorem detector_calls_hold_the_mutex s :
  reachable s ->
  (forall t pc, threads s !! t = Some pc -> in_detector pc = true ->
                cascadeLock s = Some t)
  /\ (forall t1 t2 pc1 pc2,
        threads s !! t1 = Some pc1 -> threads s !! t2 = Some pc2 ->
        in_detector pc1 = true -> in_detector pc2 = true -> t1 = t2).
Proof.
  intros Hreach. pose proof (reachable_owner_inv s Hreach) as Hinv.
  split.
  - intros t pc Hpc Hin. eapply Hinv; eauto using in_detector_holds.
  - intros t1 t2 pc1 pc2 H1 H2 Hin1 Hin2.
    pose proof (Hinv _ _ H1 (in_detector_holds _ Hin1)) as E1.
    pose proof (Hinv _ _ H2 (in_detector_holds _ Hin2)) as E2.
    congruence.
Qed.

Lemma one_detecting_reachable : reachable one_detecting.
Proof.
  pose proof reach_init as H0. unfold init in H0.
  pose proof (reach_step _ _ _ H0 (spawn 0 _ _ (lookup_empty _))) as H1.
  pose proof (reach_step _ _ _ H1
                (enter_find_faces 0 _ _ (lookup_insert_eq _ _ _))) as H2.
  pose proof (reach_step _ _ _ H2
                (find_lock 0 _ (lookup_insert_eq _ _ _))) as H3.
  pose proof (reach_step _ _ _ H3
                (find_call 0 _ _ (lookup_insert_eq _ _ _))) as H4.
  rewrite !insert_insert_eq in H4.
  assert (Hfree : (<[0%nat := FDetect]> (∅ : gmap nat Pc)) !! 1%nat = None)
    by reflexivity.
  pose proof (reach_step _ _ _ H4 (spawn 1 _ _ Hfree)) as H5.
  pose proof (reach_step _ _ _ H5
                (enter_find_faces 1 _ _ (lookup_insert_eq _ _ _))) as H6.
  rewrite insert_insert_eq in H6. exact H6.
Qed.

Lemma detector_calls_hold_the_mutex_witness :
  reachable one_detecting
  /\ (forall t pc, threads one_detecting !! t = Some pc ->
                   in_detector pc = true -> cascadeLock one_detecting = Some t)
  /\ (forall t1 t2 pc1 pc2,
        threads one_detecting !! t1 = Some pc1 ->
        threads one_detecting !! t2 = Some pc2 ->
        in_detector pc1 = true -> in_detector pc2 = true -> t1 = t2).
Proof.
  split; [apply one_detecting_reachable|].
  exact (detector_calls_hold_the_mutex one_detecting one_detecting_reachable).
Defined.

End CascadeFacts.

(* ===================================================================== *)
(** * The client's run: the output file is truncated before the network *)
(* ===================================================================== *)

Section ClientRun.
Import Wire Client.

Ltac prun := unfold mbind, P_bind, mret, P_ret; cbn beta iota.

Lemma fopen_r_run name w :
  exists r, fopen_r name w = (Return r, logged [EvOpenRead name] w).
Proof.
  unfold fopen_r, emit, get_files, logged. prun. cbn [files stdout stderr log].
  destruct (files w !! name) as [f|]; [destruct (readable f)|]; eauto.
Qed.

(** An input check leaves the files alone and fails only with code 13. *)
Lemma check_input_run given name w :
  match check_input given name w with
  | (Return _, w') =>
      w' = logged (if given then [EvOpenRead name] else []) w
  | (Exit code, _) => code = INPUT_FILE_ERROR
  | (Fault, _) => False
  end.
Proof.
  unfold check_input. destruct given.
  - prun. destruct (fopen_r_run name w) as [r ->].
    destruct r; cbn; [reflexivity|].
    unfold input_file_error, eprint, exit. prun. reflexivity.
  - unfold logged. prun. rewrite app_nil_r. destruct w; reflexivity.
Qed.

(** A successful [fopen(name, "w")] leaves the file empty. *)
Lemma fopen_w_run env name w :
  match fopen_w env name w with
  | (Return true, w') =>
      (exists f, files w' !! name = Some f /\ content f = []
                 /\ writable f = true)
      /\ log w' = log w ++ [EvOpenWrite name]
  | (Return false, _) => True
  | _ => False
  end.
Proof.
  unfold fopen_w, emit, get_files, set_file. prun. cbn [files stdout stderr log].
  destruct (files w !! name) as [f|] eqn:E.
  - destruct (writable f) eqn:Ew; prun; cbn; [|exact I].
    split; [|reflexivity]. eexists. rewrite lookup_insert_eq. eauto.
  - destruct (creatable env name); prun; cbn; [|exact I].
    split; [|reflexivity]. eexists. rewrite lookup_insert_eq. eauto.
Qed.

Lemma check_files_run env params w :
  outputFileNameGiven params = true ->
  match check_files env params w with
  | (Return _, w') =>
      (exists f, files w' !! name_of (outputFileName params) = Some f
                 /\ content f = [] /\ writable f = true)
      /\ log w' = log w ++ input_opens params
                    ++ [EvOpenWrite (name_of (outputFileName params))]
  | (Exit code, _) => code <> ERROR_MESSAGE
  | (Fault, _) => False
  end.
Proof.
  intros Hout. unfold check_files. rewrite Hout.
  change (if detectFileGiven params then _ else mret tt)
    with (check_input (detectFileGiven params) (name_of (detectFile params))).
  change (if replaceFileGiven params then _ else mret tt)
    with (check_input (replaceFileGiven params)
            (name_of (replaceFile params))).
  prun.
  pose proof (check_input_run (detectFileGiven params)
                (name_of (detectFile params)) w) as H1.
  destruct (check_input _ _ w) as [[[]|code|] w1];
    [|subst code; discriminate|contradiction].
  pose proof (check_input_run (replaceFileGiven params)
                (name_of (replaceFile params)) w1) as H2.
  destruct (check_input _ _ w1) as [[[]|code|] w2];
    [|subst code; discriminate|contradiction].
  pose proof (fopen_w_run env (name_of (outputFileName params)) w2) as H3.
  destruct (fopen_w _ _ w2) as [[[]|code|] w3]; try contradiction.
  - destruct H3 as [Hf Hlog]. split; [exact Hf|].
    rewrite Hlog. subst w2 w1. unfold input_opens, logged. cbn [log].
    rewrite <- !app_assoc. reflexivity.
  - unfold output_file_error, eprint, exit. prun. discriminate.
Qed.

Lemma check_port_run env port w :
  match check_port env port w with
  | (Return _, w') => w' = logged [EvConnect port] w
  | (Exit code, _) => code = PORT_ERROR
  | (Fault, _) => False
  end.
Proof.
  unfold check_port, emit, port_error, eprint, exit, logged. prun.
  destruct (connects env); reflexivity.
Qed.

Lemma read_input_run name w :
  match read_input name w with
  | (Return _, w') => w' = logged [EvOpenRead name] w
  | (Exit _, _) => False
  | (Fault, _) => True
  end.
Proof.
  unfold read_input. prun. destruct (fopen_r_run name w) as [r ->].
  destruct r; [reflexivity | exact I].
Qed.

(** The only exit with code 11 leaves the files and the log as they
    were. *)
Lemma recieve_response_run stream params w :
  match recieve_response stream params w with
  | (Exit code, w') =>
      code = ERROR_MESSAGE -> files w' = files w /\ log w' = log w
  | _ => True
  end.
Proof.
  unfold recieve_response, communication_error, eprint, exit, print,
    get_files, set_file, fault.
  repeat match goal with
  | |- context [match read_bytes ?n ?s with _ => _ end] =>
      destruct (read_bytes n s) as [[? ?]|]
  | |- context [if ?b then _ else _] => destruct b
  | |- context [match ?m !! ?k with _ => _ end] => destruct (m !! k)
  end; prun; cbn; try exact I; try discriminate; auto.
  destruct (files w !! _) as [f|]; [destruct (writable f)|]; exact I.
Qed.

(** C10.  When the client was given an output file name and ends with exit
    code 11, the message of an operation-3 reply, then that file exists and is
    empty at exit, and the system calls of the run are, in order: the opens
    of the input files, the open of the output file for writing, the
    connect, the input files again, the send of the request.  The output
    file was truncated in the preflight, before the connection and the
    request. *)
Theorem output_file_truncated_before_connecting env argv w params :
  parse_args argv = Some params ->
  outputFileNameGiven params = true ->
  forall w', main env argv w = (Exit ERROR_MESSAGE, w') ->
    (exists f, files w' !! name_of (outputFileName params) = Some f
               /\ content f = [])
    /\ exists request,
         log w' = log w ++ input_opens params
                    ++ [EvOpenWrite (name_of (outputFileName params));
                        EvConnect (name_of (portnum params))]
                    ++ input_opens params ++ [EvSend request].
Proof.
  intros Hparse Hout w' Hrun.
  unfold main, parse_command_line in Hrun. rewrite Hparse in Hrun.
  revert Hrun. prun.
  pose proof (check_files_run env params w Hout) as H1.
  destruct (check_files env params w) as [[[]|code|] w1]; cbn beta iota;
    [|intros [= -> _]; congruence|contradiction].
  destruct H1 as [[f (Hf & Hempty & _)] Hlog1].
  pose proof (check_port_run env (name_of (portnum params)) w1) as H2.
  destruct (check_port _ _ w1) as [[[]|code|] w2]; cbn beta iota;
    [|intros [= -> _]; vm_compute in H2; discriminate H2|contradiction].
  assert (Hopens : input_opens params =
            (if detectFileGiven params
             then [EvOpenRead (name_of (detectFile params))] else [])
            ++ (if replaceFileGiven params
                then [EvOpenRead (name_of (replaceFile params))] else []))
    by reflexivity.
  destruct (detectFileGiven params), (replaceFileGiven params);
    repeat match goal with
    | |- context [read_input ?n ?w0] =>
        let H := fresh "Hread" in
        pose proof (read_input_run n w0) as H;
        destruct (read_input n w0) as [[?|?|] ?]; cbn beta iota;
        [|contradiction|intros [=]]; subst
    end.
  all: match goal with
       | |- context [create_request ?a ?b ?p] =>
           destruct (create_request a b p) as [request|]; [|intros [=]]
       end.
  all: unfold emit; prun.
  all: (destruct (send_ok env); prun;
    [|unfold communication_error, eprint, exit; prun; intros [=]]).
  all: match goal with
  | |- context [recieve_response ?s ?p ?w0] =>
      pose proof (recieve_response_run s p w0) as H5;
      destruct (recieve_response s p w0) as [[[]|code|] w5]
  end; cbn beta iota; try (intros [=]; fail).
  all: intros [= -> ->]; destruct (H5 eq_refl) as [Hfiles Hlog5].
  all: subst; cbn [files log logged] in *.
  all: (split;
    [ exists f; rewrite Hfiles; auto
    | exists request; rewrite Hlog5, Hlog1, Hopens;
      rewrite <- ?app_assoc; cbn [app]; rewrite ?app_nil_r; reflexivity ]).
Qed.

Lemma output_file_truncated_before_connecting_witness :
  parse_args output_argv = Some output_params
  /\ outputFileNameGiven output_params = true
  /\ fst (main rejecting_env output_argv old_output) = Exit ERROR_MESSAGE
  /\ (exists f,
        files (snd (main rejecting_env output_argv old_output))
          !! name_of (outputFileName output_params) = Some f
        /\ content f = [])
  /\ exists request,
       log (snd (main rejecting_env output_argv old_output))
       = log old_output ++ input_opens output_params
           ++ [EvOpenWrite (name_of (outputFileName output_params));
               EvConnect (name_of (portnum output_params))]
           ++ input_opens output_params ++ [EvSend request].
Proof.
  split; [reflexivity | split; [reflexivity | split; [vm_compute; reflexivity|]]].
  apply (output_file_truncated_before_connecting rejecting_env output_argv
           old_output output_params eq_refl eq_refl).
  vm_compute. reflexivity.
Defined.

End ClientRun.

(* ===================================================================== *)
(** * One turn of the worker's loop, whatever the peer sent *)
(* ===================================================================== *)

Section Turn.
Import Wire Server.
Context `{V : Vision}.
Variable responsefile : list byte.
Variable info : ClientInfo.

Ltac mstep := unfold mbind, M_bind, mret, M_ret; cbn beta iota.

Lemma with_input_twice a b w : with_input a (with_input b w) = with_input a w.
Proof. reflexivity. Qed.

Lemma input_with_input a w : input (with_input a w) = a.
Proof. reflexivity. Qed.

Lemma read_bytes_cases n w :
  0 <= n ->
  (n <= blen (input w)
   /\ read_bytes n w = (Some (take (Z.to_nat n) (input w)),
                        with_input (drop (Z.to_nat n) (input w)) w))
  \/ (blen (input w) < n /\ read_bytes n w = (None, with_input [] w)).
Proof.
  intros Hn. unfold read_bytes, get_world, set_input, with_input. mstep.
  destruct (Z.leb_spec n (blen (input w))); [left|right]; split; auto.
Qed.

Lemma file_frame file :
  le32_bytes PREFIX ++ [Byte.x02] ++ le32_bytes (wrap32 (blen file))
    ++ take (Z.to_nat (wrap32 (blen file)))
         (take (Z.to_nat (wrap32 (blen file))) file)
  = frame Byte.x02 (file_bytes_u32 file).
Proof.
  unfold frame, file_bytes_u32. rewrite take_take, Nat.min_id.
  rewrite le32_bytes_PREFIX. repeat f_equal.
  unfold blen at 2. rewrite length_take.
  pose proof (wrap32_range (blen file)).
  assert (wrap32 (blen file) <= blen file).
  { unfold wrap32. apply Z.mod_le; [apply blen_nonneg | lia]. }
  unfold blen in *. lia.
Qed.

Lemma output_face_detection_run file w :
  output_face_detection file w
  = (tt, mkWorld (input w) (sent w ++ frame Byte.x02 (file_bytes_u32 file))
           (shut_wr w) (closed w) (stats w) (semaphore w)).
Proof.
  unfold output_face_detection, send_output, send_bytes. mstep.
  cbn [input sent shut_wr closed stats semaphore].
  f_equal. f_equal. rewrite <- !app_assoc. f_equal.
  rewrite <- file_frame. unfold FOUR_BYTES.
  change (Z.to_nat 4) with 4%nat. change (Z.to_nat 1) with 1%nat.
  rewrite (take_ge (le32_bytes PREFIX)) by (rewrite length_le32_bytes; lia).
  rewrite (take_ge (le32_bytes (wrap32 _))) by (rewrite length_le32_bytes; lia).
  reflexivity.
Qed.

Ltac reply_with n r :=
  exists n, r; split; [|split; [|split]];
  [ | | cbn; tauto | cbn [continues]; try discriminate ].

(** Every turn of the loop reads a prefix of what is unread and sends
    exactly one reply: the operation-2 frame of a served request (the loop
    goes on, at least ten bytes were read), or one of the six error frames
    or the response file (the socket is closed, the loop breaks). *)
Lemma serve_request_turn w :
  exists n r,
    serve_request responsefile info w = (continues r, turn responsefile n r w)
    /\ (n <= length (input w))%nat
    /\ expected r
    /\ (continues r = true -> (10 <= n)%nat).
Proof.
  unfold serve_request. mstep.
  unfold check_prefix. mstep. change FOUR_BYTES with 4.
  destruct (read_bytes_cases 4 w ltac:(lia)) as [[H4 ->]|[H4 ->]].
  2:{ rewrite invalid_message_run.
      reply_with (length (input w)) (Failure "invalid message").
      - cbn [continues turn]. rewrite drop_all. reflexivity.
      - lia. }
  change (Z.to_nat 4) with 4%nat.
  destruct (Z.eqb_spec (le32toh (take 4 (input w))) PREFIX) as [Hm|Hm];
    cbn [negb].
  2:{ rewrite bad_request_run.
      reply_with 4%nat Canned.
      - reflexivity.
      - unfold blen in H4. lia. }
  set (w1 := with_input (drop 4 (input w)) w).
  unfold check_operation. mstep.
  destruct (read_bytes_cases 1 w1 ltac:(lia)) as [[H1 ->]|[H1 ->]].
  2:{ rewrite invalid_message_run. cbn [Z.eqb OPERATION_ERROR].
      reply_with (length (input w)) (Failure "invalid message").
      - cbn [continues turn]. rewrite drop_all. reflexivity.
      - lia. }
  change (Z.to_nat 1) with 1%nat.
  subst w1. rewrite ?input_with_input in *. rewrite ?with_input_twice, ?drop_drop.
  unfold blen in H1, H4. rewrite length_drop in H1.
  destruct (take 1 (drop 4 (input w))) as [|op [|]] eqn:Eop.
  { apply (f_equal length) in Eop. rewrite length_take, length_drop in Eop.
    cbn [length] in Eop. lia. }
  2:{ apply (f_equal length) in Eop. rewrite length_take, length_drop in Eop.
      cbn [length] in Eop. lia. }
  destruct (Z.gtb_spec (byte_to_Z op) 1) as [Hop|Hop].
  { unfold wrong_operation.
    rewrite error_reply_run by (vm_compute; discriminate).
    cbn [Z.eqb OPERATION_ERROR].
    reply_with 5%nat (Failure "invalid operation type").
    - reflexivity.
    - lia. }
  pose proof (byte_to_Z_range op) as Hopr.
  destruct (Z.eqb_spec (byte_to_Z op) OPERATION_ERROR) as [E|_];
    [unfold OPERATION_ERROR in E; lia|].
  unfold determine_image_size. mstep. change FOUR_BYTES with 4.
  set (w2 := with_input (drop (4 + 1) (input w)) w).
  destruct (read_bytes_cases 4 w2 ltac:(lia)) as [[H4' ->]|[H4' ->]].
  2:{ rewrite invalid_message_run. cbn [Z.eqb].
      reply_with (length (input w)) (Failure "invalid message").
      - cbn [continues turn]. rewrite drop_all. reflexivity.
      - lia. }
  change (Z.to_nat 4) with 4%nat.
  subst w2. rewrite ?input_with_input in *. rewrite ?with_input_twice, ?drop_drop.
  unfold blen in H4'. rewrite length_drop in H4'.
  set (size := le32toh (take 4 (drop (4 + 1) (input w)))).
  pose proof (le32toh_range (take 4 (drop (4 + 1) (input w)))) as Hsize.
  fold size in Hsize.
  unfold check_image_size.
  destruct (Z.eqb_spec size 0) as [Hz|Hz].
  { mstep. rewrite error_reply_run by (vm_compute; discriminate).
    cbn [Z.eqb].
    reply_with 9%nat (Failure "image is 0 bytes").
    - reflexivity.
    - lia. }
  destruct (negb (info_maxSize info =? 0) && (size >? info_maxSize info)).
  { mstep. rewrite error_reply_run by (vm_compute; discriminate).
    cbn [Z.eqb].
    reply_with 9%nat (Failure "image too large").
    - reflexivity.
    - lia. }
  mstep.
  destruct (Z.eqb_spec 0 size) as [Hz'|_]; [lia|].
  set (w3 := with_input (drop (4 + 1 + 4) (input w)) w).
  destruct (read_bytes_cases size w3 ltac:(lia)) as [[Hs ->]|[Hs ->]].
  2:{ rewrite invalid_message_run.
      reply_with (length (input w)) (Failure "invalid message").
      - cbn [continues turn]. rewrite drop_all. reflexivity.
      - lia. }
  subst w3. rewrite ?input_with_input in *. rewrite ?with_input_twice, ?drop_drop.
  unfold blen in Hs. rewrite length_drop in Hs.
  set (image := take (Z.to_nat size) _).
  set (k := (4 + 1 + 4 + Z.to_nat size)%nat).
  assert (Hk : (10 <= k <= length (input w))%nat) by (unfold k; lia).
  set (w4 := with_input (drop k (input w)) w).
  unfold image_executor.
  destruct (load_color image) as [frame|].
  2:{ mstep. unfold invalid_image.
      rewrite error_reply_run by (vm_compute; discriminate).
      reply_with k (Failure "invalid image").
      - reflexivity.
      - lia. }
  destruct (find_faces frame) as [total|].
  2:{ mstep. unfold no_faces.
      rewrite error_reply_run by (vm_compute; discriminate).
      reply_with k (Failure "no faces detected in image").
      - reflexivity.
      - lia. }
  destruct (total =? 0).
  { mstep. unfold no_faces.
    rewrite error_reply_run by (vm_compute; discriminate).
    reply_with k (Failure "no faces detected in image").
    - reflexivity.
    - lia. }
  destruct (Z.eqb_spec (byte_to_Z op) 0) as [Hop0|Hop0].
  { mstep. rewrite output_face_detection_run.
    unfold bump_faceDetections, get_world, set_stats. mstep.
    reply_with k (Success 0 (detect_file frame)).
    - reflexivity.
    - lia.
    - lia. }
  unfold execute_replacement, create_replacement, read_replacement. mstep.
  change FOUR_BYTES with 4.
  destruct (read_bytes_cases 4 w4 ltac:(lia)) as [[H4'' ->]|[H4'' ->]].
  2:{ rewrite invalid_message_run.
      reply_with (length (input w)) (Failure "invalid message").
      - cbn [continues turn]. rewrite drop_all. reflexivity.
      - lia. }
  change (Z.to_nat 4) with 4%nat.
  subst w4. rewrite ?input_with_input in *. rewrite ?with_input_twice, ?drop_drop.
  unfold blen in H4''. rewrite length_drop in H4''.
  set (size2 := le32toh (take 4 (drop k (input w)))).
  pose proof (le32toh_range (take 4 (drop k (input w)))) as Hsize2.
  fold size2 in Hsize2.
  unfold check_image_size.
  destruct (Z.eqb_spec size2 0) as [Hz2|Hz2].
  { mstep. rewrite error_reply_run by (vm_compute; discriminate).
    reply_with (k + 4)%nat (Failure "image is 0 bytes").
    - reflexivity.
    - lia. }
  destruct (negb (info_maxSize info =? 0) && (size2 >? info_maxSize info)).
  { mstep. rewrite error_reply_run by (vm_compute; discriminate).
    reply_with (k + 4)%nat (Failure "image too large").
    - reflexivity.
    - lia. }
  mstep.
  set (w5 := with_input (drop (k + 4) (input w)) w).
  destruct (read_bytes_cases size2 w5 ltac:(lia)) as [[Hs2 ->]|[Hs2 ->]].
  2:{ rewrite invalid_message_run.
      reply_with (length (input w)) (Failure "invalid message").
      - cbn [continues turn]. rewrite drop_all. reflexivity.
      - lia. }
  subst w5. rewrite ?input_with_input in *. rewrite ?with_input_twice, ?drop_drop.
  unfold blen in Hs2. rewrite length_drop in Hs2.
  destruct (load_unchanged _) as [replacement|].
  2:{ mstep. unfold invalid_image.
      rewrite error_reply_run by (vm_compute; discriminate).
      reply_with (k + 4 + Z.to_nat size2)%nat (Failure "invalid image").
      - reflexivity.
      - lia. }
  mstep. rewrite output_face_detection_run.
  unfold bump_faceReplacements, get_world, set_stats. mstep.
  reply_with (k + 4 + Z.to_nat size2)%nat
    (Success 1 (replace_file frame replacement)).
  - reflexivity.
  - lia.
  - lia.
Qed.

End Turn.

(* ===================================================================== *)
(** * A whole connection: the loop ends, and what its turns add up to *)
(* ===================================================================== *)

Section ConnectionFacts.
Import Wire Server.
Context `{V : Vision}.
Variable responsefile : list byte.
Variable info : ClientInfo.

Ltac mstep := unfold mbind, M_bind, mret, M_ret; cbn beta iota.

Lemma input_turn n r w : input (turn responsefile n r w) = drop n (input w).
Proof. destruct r; reflexivity. Qed.

Lemma loop_ends_det n w w1 : loop_ends responsefile info n w w1 ->
  forall m w2, loop_ends responsefile info m w w2 -> n = m /\ w1 = w2.
Proof.
  induction 1 as [w w' H|n w w1 w' H Hl IH]; intros m w2 H2.
  - inversion H2; subst; [split; congruence | congruence].
  - inversion H2 as [|m' ? w1' ? H' Hl']; subst; [congruence|].
    assert (w1' = w1) by congruence. subst.
    destruct (IH _ _ Hl'). split; congruence.
Qed.

(** With more turns allowed than bytes are unread, the loop ends by a
    [break]. *)
Lemma serve_loop_enough f : forall w,
  (length (input w) < f)%nat ->
  exists n, loop_ends responsefile info n w (snd (serve_loop responsefile info f w))
            /\ (10 * n <= length (input w))%nat.
Proof.
  induction f as [|f IH]; intros w Hf; [lia|].
  cbn [serve_loop]. mstep.
  destruct (serve_request_turn responsefile info w)
    as (k & r & Hturn & Hk & _ & Hten).
  rewrite Hturn. destruct (continues r) eqn:Hc.
  - specialize (Hten eq_refl).
    destruct (IH (turn responsefile k r w)) as (n & Hn & Hbound).
    { rewrite input_turn, length_drop. lia. }
    exists (S n). split.
    + eapply loop_again; [exact Hturn | exact Hn].
    + rewrite input_turn, length_drop in Hbound. lia.
  - exists 0%nat. split; [|lia]. apply loop_break. exact Hturn.
Qed.

Lemma serve_loop_result f n w w' :
  (length (input w) < f)%nat -> loop_ends responsefile info n w w' ->
  snd (serve_loop responsefile info f w) = w'.
Proof.
  intros Hf Hl. destruct (serve_loop_enough f w Hf) as (m & Hm & _).
  destruct (loop_ends_det _ _ _ Hl _ _ Hm). congruence.
Qed.


Lemma wrap32_add_succ a d :
  wrap32 (wrap32 (a + 1) + Z.of_nat d) = wrap32 (a + Z.of_nat (S d)).
Proof.
  unfold wrap32. rewrite Zplus_mod_idemp_l. f_equal. lia.
Qed.

Lemma loop_ends_transcript n w w' : loop_ends responsefile info n w w' -> Transcript responsefile n w w'.
Proof.
  induction 1 as [w w' H|n w w1 w' H Hl IH].
  - destruct (serve_request_turn responsefile info w)
      as (k & r & Hturn & Hk & Hexp & _).
    rewrite Hturn in H. injection H as Hc <-.
    destruct r as [? ?|text|]; [discriminate| |].
    + constructor.
      * split; reflexivity.
      * repeat split; reflexivity.
      * exists [], (error_frame text), 0%nat, 0%nat.
        cbn [map concat app length Z.of_nat]. rewrite !Z.add_0_r.
        do 5 (split; [reflexivity|]).
        right. exists text. auto.
    + constructor.
      * split; reflexivity.
      * repeat split; reflexivity.
      * exists [], (file_bytes_u32 responsefile), 0%nat, 0%nat.
        cbn [map concat app length Z.of_nat]. rewrite !Z.add_0_r.
        do 5 (split; [reflexivity|]).
        left. split; reflexivity.
  - destruct (serve_request_turn responsefile info w)
      as (k & r & Hturn & Hk & Hexp & _).
    rewrite Hturn in H. injection H as Hc <-.
    destruct r as [op file| |]; try discriminate.
    destruct IH as [Hclosed Hslot (files & final & d & r & Hs & Hlen & Hsum & Hd & Hr & Hfinal)].
    constructor.
    + exact Hclosed.
    + revert Hslot. cbn. unfold count_success. destruct (op =? 0); cbn; auto.
    + cbn [turn sent stats with_input] in *.
      destruct Hexp as [-> | ->].
      * exists (file :: files), final, (S d), r.
        cbn [count_success Z.eqb faceDetections faceReplacements badRequests
             map concat length] in *.
        rewrite Hs, <- !app_assoc.
        repeat split; auto; try lia.
        rewrite Hd. apply wrap32_add_succ.
      * exists (file :: files), final, d, (S r).
        cbn [count_success Z.eqb faceDetections faceReplacements badRequests
             map concat length] in *.
        rewrite Hs, <- !app_assoc.
        repeat split; auto; try lia.
        rewrite Hr. apply wrap32_add_succ.
Qed.

Lemma task_executor_run w :
  run (task_executor responsefile info) w
  = run (((if limitConnections info then sem_post else mret tt);;
          update_client_stats))
      (snd (serve_loop responsefile info (S (length (input w))) w)).
Proof.
  unfold run, task_executor, get_world. mstep.
  destruct (serve_loop responsefile info _ w) as [[] w1]. cbn [snd].
  destruct (limitConnections info); reflexivity.
Qed.

(** Whatever the peer sent, a worker ends with its socket half-closed and
    closed, posts the admission semaphore once if there is one, and moves
    its connection from [currClients] to [prevClients] (both 32-bit
    counters). *)
Theorem worker_exit_releases_its_slot w :
  let w' := run (task_executor responsefile info) w in
  closed w' = true /\ shut_wr w' = true
  /\ currClients (stats w') = wrap32 (currClients (stats w) - 1)
  /\ prevClients (stats w') = wrap32 (prevClients (stats w) + 1)
  /\ semaphore w'
     = semaphore w + (if limitConnections info then 1 else 0).
Proof.
  cbn zeta. rewrite task_executor_run.
  destruct (serve_loop_enough (S (length (input w))) w ltac:(lia))
    as (n & Hn & _).
  destruct (loop_ends_transcript _ _ _ Hn) as [[Hc Hs] (Hcurr & Hprev & Hsem) _].
  set (w1 := snd (serve_loop responsefile info _ w)) in *.
  unfold run, sem_post, update_client_stats, get_world, set_stats. mstep.
  destruct (limitConnections info); cbn;
    rewrite Hc, Hs, Hcurr, Hprev, Hsem; repeat split; lia.
Qed.

(** Everything a worker sends on a connection is the operation-2 frames of
    the requests it served, in order, followed by exactly one last reply:
    one of the six error frames, or the response file.  The served requests
    are as many as the worker added to [faceDetections] and
    [faceReplacements] together, and [badRequests] went up by one exactly
    when the last reply is the response file. *)
Theorem connection_transcript w :
  let w' := run (task_executor responsefile info) w in
  exists files final detections replacements,
    sent w' = sent w ++ concat (map success_frame files) ++ final
    /\ (10 * length files <= length (input w))%nat
    /\ (detections + replacements = length files)%nat
    /\ wrap32 (faceDetections (stats w'))
       = wrap32 (faceDetections (stats w) + Z.of_nat detections)
    /\ wrap32 (faceReplacements (stats w'))
       = wrap32 (faceReplacements (stats w) + Z.of_nat replacements)
    /\ ((final = file_bytes_u32 responsefile
         /\ badRequests (stats w') = wrap32 (badRequests (stats w) + 1))
        \/ (exists text, In text error_texts /\ final = error_frame text
                         /\ badRequests (stats w') = badRequests (stats w))).
Proof.
  cbn zeta. rewrite task_executor_run.
  destruct (serve_loop_enough (S (length (input w))) w ltac:(lia))
    as (n & Hn & Hb).
  destruct (loop_ends_transcript _ _ _ Hn)
    as [_ _ (files & final & d & r & Hs & Hlen & Hsum & Hd & Hr & Hfinal)].
  set (w1 := snd (serve_loop responsefile info _ w)) in *.
  exists files, final, d, r.
  unfold run, sem_post, update_client_stats, get_world, set_stats. mstep.
  destruct (limitConnections info); cbn;
    (split; [exact Hs|]); (split; [lia|]); (split; [lia|]); auto.
Qed.

End ConnectionFacts.

(* ===================================================================== *)
(** * Requests on one connection, and the replace path *)
(* ===================================================================== *)

Section Pipeline.
Import Wire Server.
Context `{V : Vision}.
Variable responsefile : list byte.
Variable info : ClientInfo.

Ltac mstep := unfold mbind, M_bind, mret, M_ret; cbn beta iota.

Lemma serve_detect_request image rest w decoded total :
  input w = detect_request image ++ rest ->
  acceptable info image ->
  load_color image = Some decoded -> find_faces decoded = Some total ->
  total <> 0 ->
  serve_request responsefile info w
  = (true, turn responsefile (9 + length image)
             (Success 0 (detect_file decoded)) w).
Proof.
  intros Hin [Hlen Hcap] Hload Hfaces Htotal.
  unfold detect_request, frame in Hin. rewrite <- !app_assoc in Hin.
  unfold serve_request. mstep.
  rewrite (check_prefix_magic _ _ _ Hin).
  rewrite (check_operation_valid _ Byte.x00 (le32_bytes (blen image) ++ image ++ rest))
    by (reflexivity || (vm_compute; discriminate)).
  change (byte_to_Z Byte.x00) with 0.
  change (0 =? OPERATION_ERROR) with false. cbn beta iota.
  rewrite (determine_image_size_run _ _ (le32_bytes (blen image)) (image ++ rest))
    by reflexivity.
  rewrite le32toh_le32_bytes, wrap32_small by lia.
  rewrite check_image_size_valid by lia.
  destruct (Z.eqb_spec 0 (blen image)); [lia|].
  rewrite (read_bytes_enough _ image rest) by reflexivity.
  unfold image_executor. rewrite Hload, Hfaces.
  destruct (Z.eqb_spec total 0); [contradiction|].
  change (0 =? 0) with true. cbn iota.
  mstep. rewrite output_face_detection_run.
  unfold bump_faceDetections, get_world, set_stats. mstep.
  cbn [negb]. f_equal. unfold turn, with_input, count_success.
  cbn [input sent shut_wr closed stats semaphore Z.eqb].
  rewrite Hin.
  replace (drop (9 + length image) _) with rest; [reflexivity|].
  change (magic ++ [Byte.x00] ++ le32_bytes (blen image) ++ image ++ rest)
    with ((magic ++ [Byte.x00] ++ le32_bytes (blen image)) ++ image ++ rest).
  rewrite app_assoc.
  rewrite drop_app_length'; [reflexivity|].
  rewrite length_app. reflexivity.
Qed.

Lemma detect_requests_loop images : forall w,
  Forall (fun image => acceptable info image /\ shows_face image) images ->
  input w = concat (map detect_request images) ->
  exists w',
    loop_ends responsefile info (length images) w w'
    /\ sent w' = sent w ++ concat (map detect_reply images)
                   ++ error_frame "invalid message"
    /\ wrap32 (faceDetections (stats w'))
       = wrap32 (faceDetections (stats w) + Z.of_nat (length images))
    /\ faceReplacements (stats w') = faceReplacements (stats w)
    /\ badRequests (stats w') = badRequests (stats w).
Proof.
  induction images as [|image images IH]; intros w Hok Hin.
  - exists (replied "invalid message" w). split.
    + apply loop_break. unfold serve_request. mstep.
      rewrite check_prefix_short by (rewrite Hin; reflexivity).
      cbn in Hin. rewrite <- Hin, with_input_same. reflexivity.
    + cbn [map concat app length Z.of_nat replied sent stats].
      rewrite Z.add_0_r. auto.
  - inversion Hok as [|? ? [Hacc (decoded & total & Hload & Hfaces & Htotal)] Hrest];
      subst.
    cbn [map concat] in Hin.
    pose proof (serve_detect_request image _ w decoded total Hin Hacc Hload
                  Hfaces Htotal) as Hturn.
    destruct (IH (turn responsefile (9 + length image)
                    (Success 0 (detect_file decoded)) w) Hrest) as (w' & Hl & Hs & Hd & Hr & Hb).
    { rewrite input_turn, Hin.
      unfold detect_request, frame. rewrite <- !app_assoc.
      change (magic ++ [Byte.x00] ++ le32_bytes (blen image) ++ image ++ ?r)
        with ((magic ++ [Byte.x00] ++ le32_bytes (blen image)) ++ image ++ r).
      rewrite app_assoc. apply drop_app_length'.
      rewrite length_app. reflexivity. }
    exists w'. split; [eapply loop_again; eassumption|].
    cbn [turn sent stats with_input count_success Z.eqb faceDetections
         faceReplacements badRequests] in *.
    cbn [map concat length].
    unfold detect_reply at 1. rewrite Hload.
    rewrite Hs, <- !app_assoc. repeat split; auto.
    rewrite Hd. apply wrap32_add_succ.
Qed.

(** Requests that follow each other on one connection are answered in
    order: for detect requests whose images pass the size checks, decode
    and show a face, the worker sends the operation-2 frame of each image's
    output file, one after the other, then, at the end of the stream, the
    error frame 'invalid message'; [faceDetections] went up by the number
    of requests, the other request counters did not move. *)
Theorem detect_requests_answered_in_order images w :
  Forall (fun image => acceptable info image /\ shows_face image) images ->
  input w = concat (map detect_request images) ->
  let w' := run (task_executor responsefile info) w in
  sent w' = sent w ++ concat (map detect_reply images)
              ++ error_frame "invalid message"
  /\ wrap32 (faceDetections (stats w'))
     = wrap32 (faceDetections (stats w) + Z.of_nat (length images))
  /\ faceReplacements (stats w') = faceReplacements (stats w)
  /\ badRequests (stats w') = badRequests (stats w).
Proof.
  intros Hok Hin. cbn zeta. rewrite task_executor_run.
  destruct (detect_requests_loop images w Hok Hin)
    as (w' & Hl & Hs & Hd & Hr & Hb).
  rewrite (serve_loop_result responsefile info (S (length (input w))) _ w w'
             ltac:(lia) Hl).
  unfold run, sem_post, update_client_stats, get_world, set_stats. mstep.
  destruct (limitConnections info); cbn; auto.
Qed.

(** The checks of a replace request after its primary image was read, in
    the order the code makes them: the primary image does not decode
    ('invalid image'), shows no face ('no faces detected in image'), both
    before any byte of the replacement is read; then the replacement's
    length does not arrive ('invalid message'), is 0 ('image is 0 bytes'),
    is above the cap ('image too large'), its bytes fall short ('invalid
    message'), it does not decode ('invalid image'); otherwise the reply is
    the operation-2 frame of the composited file and [faceReplacements]
    is counted up. *)
Theorem replace_validation_order image w :
  (load_color image = None ->
   image_executor info image 1 w = (true, replied "invalid image" w))
  /\ (forall decoded, load_color image = Some decoded ->
      (find_faces decoded = None \/ find_faces decoded = Some 0) ->
      image_executor info image 1 w
      = (true, replied "no faces detected in image" w))
  /\ (forall decoded total, load_color image = Some decoded ->
      find_faces decoded = Some total -> total <> 0 ->
      (blen (input w) < 4 ->
       image_executor info image 1 w
       = (true, replied "invalid message" (with_input [] w)))
      /\ forall len payload, input w = len ++ payload -> length len = 4%nat ->
         (le32toh len = 0 ->
          image_executor info image 1 w
          = (true, replied "image is 0 bytes" (with_input payload w)))
         /\ (0 < info_maxSize info < le32toh len ->
             image_executor info image 1 w
             = (true, replied "image too large" (with_input payload w)))
         /\ (le32toh len <> 0 ->
             (info_maxSize info = 0 \/ le32toh len <= info_maxSize info) ->
             (blen payload < le32toh len ->
              image_executor info image 1 w
              = (true, replied "invalid message" (with_input [] w)))
             /\ forall replacement rest,
                  payload = replacement ++ rest ->
                  blen replacement = le32toh len ->
                  (load_unchanged replacement = None ->
                   image_executor info image 1 w
                   = (true, replied "invalid image" (with_input rest w)))
                  /\ forall overlay,
                       load_unchanged replacement = Some overlay ->
                       image_executor info image 1 w
                       = (false,
                          turn responsefile 0
                            (Success 1 (replace_file decoded overlay))
                            (with_input rest w)))).
Proof.
  unfold image_executor. split; [|split].
  - intros ->. mstep. unfold invalid_image.
    rewrite error_reply_run by (vm_compute; discriminate). reflexivity.
  - intros decoded -> [-> | ->]; cbn [Z.eqb]; mstep; unfold no_faces;
      rewrite error_reply_run by (vm_compute; discriminate); reflexivity.
  - intros decoded total -> -> Htotal.
    destruct (Z.eqb_spec total 0); [contradiction|].
    cbn [Z.eqb].
    unfold execute_replacement, create_replacement, read_replacement. mstep.
    change FOUR_BYTES with 4.
    split.
    + intros Hshort. rewrite read_bytes_short by exact Hshort.
      rewrite invalid_message_run. reflexivity.
    + intros len payload Hin Hlen.
      rewrite (read_bytes_enough 4 len payload)
        by (exact Hin || (unfold blen; rewrite Hlen; reflexivity)).
      split; [|split].
      * intros ->. rewrite check_image_size_zero. reflexivity.
      * intros Hbig.
        rewrite check_image_size_large by lia. reflexivity.
      * intros Hnz Hcap.
        rewrite check_image_size_valid by assumption.
        split.
        -- intros Hshort.
           rewrite read_bytes_short by exact Hshort.
           rewrite invalid_message_run. reflexivity.
        -- intros replacement rest -> Hsize.
           rewrite (read_bytes_enough _ replacement rest)
             by (reflexivity || exact Hsize).
           split.
           ++ intros ->. mstep. unfold invalid_image.
              rewrite error_reply_run by (vm_compute; discriminate).
              reflexivity.
           ++ intros overlay ->. mstep.
              rewrite output_face_detection_run.
              unfold bump_faceReplacements, get_world, set_stats. mstep.
              reflexivity.
Qed.

End Pipeline.

Section PipelineExamples.
Import Wire Server.

Lemma detect_requests_answered_in_order_witness :
  sent (run (task_executor (V:=echo_vision) canned_response uncapped)
          two_requests_connection)
  = sent two_requests_connection
      ++ concat (map (detect_reply (V:=echo_vision)) two_detect_requests)
      ++ error_frame "invalid message"
  /\ wrap32 (faceDetections
               (stats (run (task_executor (V:=echo_vision) canned_response
                              uncapped) two_requests_connection)))
     = wrap32 (faceDetections (stats two_requests_connection)
               + Z.of_nat (length two_detect_requests))
  /\ faceReplacements
       (stats (run (task_executor (V:=echo_vision) canned_response uncapped)
                 two_requests_connection))
     = faceReplacements (stats two_requests_connection)
  /\ badRequests
       (stats (run (task_executor (V:=echo_vision) canned_response uncapped)
                 two_requests_connection))
     = badRequests (stats two_requests_connection).
Proof.
  apply (detect_requests_answered_in_order (V:=echo_vision) canned_response
           uncapped two_detect_requests two_requests_connection);
    [|reflexivity].
  assert (Hok : forall image, 0 < blen image <= 1000 ->
            acceptable uncapped image /\ shows_face (V:=echo_vision) image).
  { intros image H. split.
    - split; [unfold UINT32_MAX; lia|].
      right. change (info_maxSize uncapped) with 4294967295. lia.
    - exists image, 1. repeat split. discriminate. }
  unfold two_detect_requests.
  repeat (apply List.Forall_cons;
          [apply Hok; vm_compute; split; [reflexivity | discriminate]|]).
  apply List.Forall_nil.
Defined.

Lemma replace_validation_order_witness :
  image_executor (V:=echo_vision) uncapped [Byte.xff; Byte.xd8] 1
    (accepted_connection
       [Byte.x01; Byte.x00; Byte.x00; Byte.x00; Byte.x89])
  = (false,
     turn canned_response 0 (Success 1 [Byte.x89])
       (with_input []
          (accepted_connection
             [Byte.x01; Byte.x00; Byte.x00; Byte.x00; Byte.x89]))).
Proof.
  pose proof (replace_validation_order (V:=echo_vision) canned_response
                uncapped [Byte.xff; Byte.xd8]
                (accepted_connection
                   [Byte.x01; Byte.x00; Byte.x00; Byte.x00; Byte.x89]))
    as (_ & _ & Hfaces).
  destruct (Hfaces [Byte.xff; Byte.xd8] 1 eq_refl eq_refl
              ltac:(discriminate)) as [_ Hlength].
  destruct (Hlength [Byte.x01; Byte.x00; Byte.x00; Byte.x00] [Byte.x89]
              eq_refl eq_refl) as (_ & _ & Hvalid).
  destruct (Hvalid ltac:(vm_compute; discriminate)
              ltac:(right; vm_compute; discriminate)) as [_ Hpayload].
  destruct (Hpayload [Byte.x89] [] eq_refl eq_refl) as [_ Hdecoded].
  exact (Hdecoded [Byte.x89] eq_refl).
Defined.

End PipelineExamples.

(* ===================================================================== *)
(** * The client's reading of a reply *)
(* ===================================================================== *)

Section ClientReply.
Import Wire Client.

Ltac prun := unfold mbind, P_bind, mret, P_ret; cbn beta iota.

Lemma client_read_bytes_enough n pre post :
  blen pre = n -> read_bytes n (pre ++ post) = Some (pre, post).
Proof.
  intros <-. unfold read_bytes. rewrite blen_app.
  pose proof (blen_nonneg post).
  destruct (Z.leb_spec (blen pre) (blen pre + blen post)); [|lia].
  unfold blen. rewrite Nat2Z.id, take_app_length, drop_app_length.
  reflexivity.
Qed.

Lemma client_read_bytes_short n stream :
  blen stream < n -> read_bytes n stream = None.
Proof.
  intros H. unfold read_bytes.
  destruct (Z.leb_spec n (blen stream)); [lia | reflexivity].
Qed.

Lemma communication_error_run w :
  communication_error w
  = (Exit COMMUNICATION_ERROR,
     mkWorld (files w) (stdout w) (stderr w ++ communication_report) (log w)).
Proof. reflexivity. Qed.

(** The reads of [recieve_response] on a whole frame. *)
Lemma recieve_frame op payload extra params w :
  blen payload <= UINT32_MAX ->
  recieve_response (frame op payload ++ extra) params w
  = (if bool_decide ([op] = [Byte.x02]) then
       if outputFileNameGiven params then
         fs ← get_files;
         let name := name_of (outputFileName params) in
         match fs !! name with
         | Some f =>
             if writable f
             then set_file name (mkFile payload (readable f) (writable f))
             else fault (A:=unit)
         | None => set_file name (mkFile payload true true)
         end
       else print payload
     else if bool_decide ([op] = [Byte.x03]) then
       eprint (bytes_of_string
                 ("uqfaceclient: received the following error message: "
                  ++ quote));;
       eprint payload;;
       eprint (bytes_of_string (quote ++ newline));;
       exit (A:=unit) ERROR_MESSAGE
     else communication_error) w.
Proof.
  intros Hlen. pose proof (blen_nonneg payload).
  unfold recieve_response, frame. rewrite <- !app_assoc.
  rewrite (client_read_bytes_enough 4 magic) by reflexivity.
  change (le32toh magic =? PREFIX) with true. cbn [negb].
  rewrite (client_read_bytes_enough 1 [op]) by reflexivity.
  rewrite (client_read_bytes_enough 4 (le32_bytes (blen payload)))
    by reflexivity.
  rewrite le32toh_le32_bytes, wrap32_small by lia.
  rewrite (client_read_bytes_enough (blen payload) payload) by reflexivity.
  reflexivity.
Qed.


(** An operation-3 reply: the client prints the line
    'uqfaceclient: received the following error message: ' with the payload
    between double quotes to standard error, the payload as it came, writes
    no file and nothing to standard output, and exits with code 11. *)
Theorem client_reports_the_error payload extra params w :
  blen payload <= UINT32_MAX ->
  recieve_response (frame Byte.x03 payload ++ extra) params w
  = (Exit ERROR_MESSAGE,
     mkWorld (files w) (stdout w) (stderr w ++ error_report payload) (log w)).
Proof.
  intros Hlen. rewrite recieve_frame by exact Hlen.
  rewrite bool_decide_false by discriminate.
  rewrite bool_decide_true by reflexivity.
  unfold eprint, exit, error_report. prun. cbn [files stdout stderr log].
  rewrite <- !app_assoc. reflexivity.
Qed.

(** Every other reply is a communication error: fewer than four bytes,
    four bytes other than the magic, no operation byte or no full length
    field after the magic, fewer payload bytes than the length field says,
    or an operation other than 2 and 3.  The client prints
    'uqfaceclient: unexpected communication error' to standard error,
    writes no file and nothing to standard output, and exits with code
    9. *)
Theorem client_rejects_a_malformed_reply stream params w :
  (blen stream < 4
   \/ (exists p rest, stream = p ++ rest /\ length p = 4%nat /\ p <> magic)
   \/ (exists rest, stream = magic ++ rest /\ blen rest < 5)
   \/ (exists op len body,
         stream = magic ++ [op] ++ len ++ body /\ length len = 4%nat
         /\ (blen body < le32toh len
             \/ (op <> Byte.x02 /\ op <> Byte.x03)))) ->
  recieve_response stream params w
  = (Exit COMMUNICATION_ERROR,
     mkWorld (files w) (stdout w) (stderr w ++ communication_report) (log w)).
Proof.
  intros [Hshort|[(p & rest & -> & Hp & Hne)|[(rest & -> & Hrest)
          |(op & len & body & -> & Hlen & Hbad)]]];
    unfold recieve_response.
  - rewrite client_read_bytes_short by exact Hshort. reflexivity.
  - rewrite (client_read_bytes_enough 4 p)
      by (unfold blen; rewrite Hp; reflexivity).
    destruct (Z.eqb_spec (le32toh p) PREFIX) as [E|_]; [|reflexivity].
    apply le32toh_magic in E; [contradiction | exact Hp].
  - rewrite (client_read_bytes_enough 4 magic) by reflexivity.
    change (le32toh magic =? PREFIX) with true. cbn [negb].
    destruct rest as [|op rest]; [reflexivity|].
    change (op :: rest) with ([op] ++ rest).
    rewrite (client_read_bytes_enough 1 [op] rest) by reflexivity.
    rewrite client_read_bytes_short; [reflexivity|].
    unfold blen in *. cbn [length] in Hrest. lia.
  - rewrite (client_read_bytes_enough 4 magic) by reflexivity.
    change (le32toh magic =? PREFIX) with true. cbn [negb].
    rewrite (client_read_bytes_enough 1 [op]) by reflexivity.
    rewrite (client_read_bytes_enough 4 len)
      by (unfold blen; rewrite Hlen; reflexivity).
    destruct Hbad as [Hshort|[H2 H3]].
    + rewrite client_read_bytes_short by exact Hshort. reflexivity.
    + destruct (read_bytes (le32toh len) body) as [[image ?]|];
        [|reflexivity].
      rewrite bool_decide_false by congruence.
      rewrite bool_decide_false by congruence. reflexivity.
Qed.

End ClientReply.

Section ClientReplyExamples.
Import Wire Client.


Lemma client_reports_the_error_witness :
  recieve_response
    (frame Byte.x03 (bytes_of_string "invalid image") ++ []) output_params
    old_output
  = (Exit ERROR_MESSAGE,
     mkWorld (files old_output) (stdout old_output)
       (stderr old_output ++ error_report (bytes_of_string "invalid image"))
       (log old_output)).
Proof.
  apply client_reports_the_error. vm_compute. discriminate.
Defined.

Lemma client_rejects_a_malformed_reply_witness :
  recieve_response [Byte.x31; Byte.x72] output_params old_output
  = (Exit COMMUNICATION_ERROR,
     mkWorld (files old_output) (stdout old_output)
       (stderr old_output ++ communication_report) (log old_output)).
Proof.
  apply client_rejects_a_malformed_reply. left. vm_compute. reflexivity.
Defined.

End ClientReplyExamples.

(* ===================================================================== *)
(** * A detect request from the client to the server and back *)
(* ===================================================================== *)

Section SessionFacts.
Import Wire Server.
Context `{V : Vision}.
Variable responsefile : list byte.
Variable info : ClientInfo.

Ltac mstep := unfold mbind, M_bind, mret, M_ret; cbn beta iota.





End SessionFacts.

Section SessionExamples.
Import Wire Server.


End SessionExamples.

(* ===================================================================== *)
(** * The client's checks before it sends *)
(* ===================================================================== *)

Section ClientPreflight.
Import Wire Client.

Ltac prun := unfold mbind, P_bind, mret, P_ret; cbn beta iota.

Lemma app_nil_log w : logged [] w = w.
Proof. destruct w. unfold logged. cbn. rewrite app_nil_r. reflexivity. Qed.

Lemma check_input_ready given name w :
  input_ready w given name ->
  check_input given (name_of name) w
  = (Return tt,
     logged (if given then [EvOpenRead (name_of name)] else []) w).
Proof.
  intros Hready. unfold check_input. destruct given.
  - destruct (Hready eq_refl) as (f & Hf & Hr).
    unfold fopen_r, emit, get_files, logged. prun.
    cbn [files stdout stderr log]. rewrite Hf, Hr. reflexivity.
  - prun. rewrite app_nil_log. reflexivity.
Qed.

Lemma check_input_fails name w :
  fails_to_open w name ->
  check_input true name w
  = (Exit INPUT_FILE_ERROR,
     mkWorld (files w) (stdout w) (stderr w ++ input_report name)
       (log w ++ [EvOpenRead name])).
Proof.
  intros Hfail. unfold check_input, fopen_r, emit, get_files. prun.
  cbn [files stdout stderr log].
  destruct (files w !! name) as [f|] eqn:E.
  - rewrite (Hfail f E). reflexivity.
  - reflexivity.
Qed.

Ltac as_checks params :=
  unfold check_files;
  change (if detectFileGiven params then _ else mret tt)
    with (check_input (detectFileGiven params) (name_of (detectFile params)));
  change (if replaceFileGiven params then _ else mret tt)
    with (check_input (replaceFileGiven params)
            (name_of (replaceFile params)));
  prun.

Lemma log_inputs params (w : World) :
  log (logged (if replaceFileGiven params
               then [EvOpenRead (name_of (replaceFile params))] else [])
         (logged (if detectFileGiven params
                  then [EvOpenRead (name_of (detectFile params))] else [])
            w))
  = log w ++ input_opens params.
Proof.
  unfold logged, input_opens. cbn [log]. rewrite <- app_assoc. reflexivity.
Qed.

Lemma check_files_detect_fails env params w :
  detectFileGiven params = true ->
  fails_to_open w (name_of (detectFile params)) ->
  check_files env params w
  = (Exit INPUT_FILE_ERROR,
     mkWorld (files w) (stdout w)
       (stderr w ++ input_report (name_of (detectFile params)))
       (log w ++ [EvOpenRead (name_of (detectFile params))])).
Proof.
  intros Hd Hfail. as_checks params. rewrite Hd.
  rewrite check_input_fails by exact Hfail. reflexivity.
Qed.

Lemma check_files_replace_fails env params w :
  input_ready w (detectFileGiven params) (detectFile params) ->
  replaceFileGiven params = true ->
  fails_to_open w (name_of (replaceFile params)) ->
  check_files env params w
  = (Exit INPUT_FILE_ERROR,
     mkWorld (files w) (stdout w)
       (stderr w ++ input_report (name_of (replaceFile params)))
       (log w ++ input_opens params)).
Proof.
  intros Hready Hr Hfail. as_checks params.
  rewrite check_input_ready by exact Hready.
  rewrite Hr. rewrite check_input_fails by exact Hfail.
  unfold input_opens, logged. rewrite Hr.
  cbn [files stdout stderr log]. rewrite <- app_assoc. reflexivity.
Qed.

Lemma check_files_output_fails env params w :
  input_ready w (detectFileGiven params) (detectFile params) ->
  input_ready w (replaceFileGiven params) (replaceFile params) ->
  outputFileNameGiven params = true ->
  fails_to_create env w (name_of (outputFileName params)) ->
  check_files env params w
  = (Exit OUTPUT_FILE_ERROR,
     mkWorld (files w) (stdout w)
       (stderr w ++ output_report (name_of (outputFileName params)))
       (log w ++ input_opens params
          ++ [EvOpenWrite (name_of (outputFileName params))])).
Proof.
  intros Hready1 Hready2 Ho Hfail. as_checks params.
  rewrite check_input_ready by exact Hready1.
  rewrite check_input_ready by exact Hready2.
  rewrite Ho.
  unfold fopen_w, emit, get_files, set_file, output_file_error, eprint,
    exit. prun. cbn [files stdout stderr log logged].
  unfold fails_to_create in Hfail.
  destruct (files w !! name_of (outputFileName params)) as [f|];
    rewrite Hfail; prun; cbn [files stdout stderr log];
    unfold input_opens; rewrite <- !app_assoc; reflexivity.
Qed.

Lemma check_files_pass env params w :
  input_ready w (detectFileGiven params) (detectFile params) ->
  input_ready w (replaceFileGiven params) (replaceFile params) ->
  (outputFileNameGiven params = true ->
   ~ fails_to_create env w (name_of (outputFileName params))) ->
  check_files env params w
  = (Return tt,
     mkWorld (truncated params w) (stdout w) (stderr w)
       (log w ++ input_opens params ++ output_opens params)).
Proof.
  intros Hready1 Hready2 Hok. as_checks params.
  rewrite check_input_ready by exact Hready1.
  rewrite check_input_ready by exact Hready2.
  unfold truncated, output_opens, fails_to_create in *.
  destruct (outputFileNameGiven params).
  - unfold fopen_w, emit, get_files, set_file. prun.
    cbn [files stdout stderr log logged].
    destruct (files w !! name_of (outputFileName params)) as [f|].
    + destruct (writable f) eqn:Ew;
        [|exfalso; apply (Hok eq_refl); reflexivity].
      prun. cbn [files stdout stderr log].
      unfold input_opens. rewrite <- !app_assoc. reflexivity.
    + destruct (creatable env _) eqn:Ec;
        [|exfalso; apply (Hok eq_refl); reflexivity].
      prun. cbn [files stdout stderr log].
      unfold input_opens. rewrite <- !app_assoc. reflexivity.
  - unfold logged, input_opens. cbn [files stdout stderr log].
    rewrite app_nil_r, <- !app_assoc. reflexivity.
Qed.

(** The client's checks before it sends, in the order it makes them.  A
    detect file that does not open: exit code 13 with its name in the
    message, after one open.  Else a replace file that does not open: exit
    code 13 with its name.  In both cases no file was changed.  Else an
    output file that cannot be opened for writing: exit code 5, no file
    changed, no connection tried.  Else a connection that fails: exit code
    19, with the output file, if one was named, already truncated. *)
Theorem client_preflight_failures env argv params w :
  parse_args argv = Some params ->
  let detect := name_of (detectFile params) in
  let replace := name_of (replaceFile params) in
  let output := name_of (outputFileName params) in
  let port := name_of (portnum params) in
  (detectFileGiven params = true -> fails_to_open w detect ->
   main env argv w
   = (Exit INPUT_FILE_ERROR,
      mkWorld (files w) (stdout w) (stderr w ++ input_report detect)
        (log w ++ [EvOpenRead detect])))
  /\ (input_ready w (detectFileGiven params) (detectFile params) ->
      replaceFileGiven params = true -> fails_to_open w replace ->
      main env argv w
      = (Exit INPUT_FILE_ERROR,
         mkWorld (files w) (stdout w) (stderr w ++ input_report replace)
           (log w ++ input_opens params)))
  /\ (input_ready w (detectFileGiven params) (detectFile params) ->
      input_ready w (replaceFileGiven params) (replaceFile params) ->
      (outputFileNameGiven params = true -> fails_to_create env w output ->
       main env argv w
       = (Exit OUTPUT_FILE_ERROR,
          mkWorld (files w) (stdout w) (stderr w ++ output_report output)
            (log w ++ input_opens params ++ [EvOpenWrite output])))
      /\ ((outputFileNameGiven params = true ->
           ~ fails_to_create env w output) ->
          connects env = false ->
          main env argv w
          = (Exit PORT_ERROR,
             mkWorld (truncated params w) (stdout w)
               (stderr w ++ port_report port)
               (log w ++ input_opens params ++ output_opens params
                  ++ [EvConnect port])))).
Proof.
  intros Hparse. cbn zeta.
  unfold main, parse_command_line. rewrite Hparse. prun.
  split; [|split].
  - intros Hd Hfail.
    rewrite check_files_detect_fails by assumption. reflexivity.
  - intros Hready Hr Hfail.
    rewrite check_files_replace_fails by assumption. reflexivity.
  - intros Hready1 Hready2. split.
    + intros Ho Hfail.
      rewrite check_files_output_fails by assumption. reflexivity.
    + intros Hok Hconn.
      rewrite check_files_pass by assumption.
      unfold check_port, port_error, emit, eprint, exit. prun.
      cbn [files stdout stderr log]. rewrite Hconn.
      rewrite <- !app_assoc. reflexivity.
Qed.

End ClientPreflight.

Section ClientPreflightExamples.
Import Wire Client.

Lemma client_preflight_failures_witness :
  main rejecting_env missing_input_argv old_output
  = (Exit INPUT_FILE_ERROR,
     mkWorld (files old_output) (stdout old_output)
       (stderr old_output
        ++ input_report (name_of (detectFile missing_input_params)))
       (log old_output
        ++ [EvOpenRead (name_of (detectFile missing_input_params))])).
Proof.
  apply (proj1 (client_preflight_failures rejecting_env missing_input_argv
                  missing_input_params old_output eq_refl)).
  - reflexivity.
  - intros f Hf. vm_compute in Hf. discriminate Hf.
Defined.

End ClientPreflightExamples.

(* ===================================================================== *)
(** * The client's command line *)
(* ===================================================================== *)

Section ClientCommandLine.
Import Wire Client.

Lemma parse_flags_cons a v rest params :
  parse_flags (a :: v :: rest) params
  = (if String.eqb a "--replacefile" && negb (replaceFileGiven params)
        && negb (String.eqb v "")
     then parse_flags rest
            (mkParams (portnum params) (detectFileGiven params)
               (detectFile params) true (Some v)
               (outputFileNameGiven params) (outputFileName params))
     else if String.eqb a "--outputfilename"
             && negb (outputFileNameGiven params)
             && negb (String.eqb v "")
     then parse_flags rest
            (mkParams (portnum params) (detectFileGiven params)
               (detectFile params) (replaceFileGiven params)
               (replaceFile params) true (Some v))
     else if String.eqb a "--detectfile"
             && negb (detectFileGiven params)
             && negb (String.eqb v "")
     then parse_flags rest
            (mkParams (portnum params) true (Some v)
               (replaceFileGiven params) (replaceFile params)
               (outputFileNameGiven params) (outputFileName params))
     else None).
Proof. reflexivity. Qed.

Lemma parse_flags_shape n : forall args params params',
  (length args <= n)%nat ->
  parse_flags args params = Some params' ->
  portnum params' = portnum params
  /\ (length args + 2 * options_given params
      = 2 * options_given params')%nat
  /\ (well_formed params -> well_formed params').
Proof.
  induction n as [|n IH]; intros args params params' Hn Hparse.
  - destruct args; [|cbn in Hn; lia]. cbn in Hparse.
    injection Hparse as <-. auto.
  - destruct args as [|a [|v rest]]; [| discriminate |].
    + cbn in Hparse. injection Hparse as <-. auto.
    + rewrite parse_flags_cons in Hparse. cbn [length] in *.
      destruct params as [port dg d rg r og o].
      cbn [replaceFileGiven outputFileNameGiven detectFileGiven portnum
           detectFile replaceFile outputFileName] in Hparse.
      repeat match type of Hparse with
      | (if ?b then _ else _) = _ => destruct b eqn:?
      end; try discriminate;
      apply IH in Hparse; try lia;
      destruct Hparse as (Hport & Hlen & Hwf);
      repeat match goal with
      | H : _ && _ = true |- _ => apply andb_prop in H as [? ?]
      | H : negb _ = true |- _ => apply negb_true_iff in H
      | H : String.eqb _ _ = false |- _ => apply String.eqb_neq in H
      end; subst;
      (split; [exact Hport|]);
      (split; [unfold options_given in *; cbn in *;
               repeat match goal with b : bool |- _ => destruct b end;
               cbn in *; lia|]);
      intros (Hp & Hd & Hr & Ho); apply Hwf;
      unfold well_formed; cbn; repeat split; eauto.
Qed.

(** What an accepted client command line looks like: the port is the
    first argument and is not empty; each of the three options is recorded
    with a non-empty value or not recorded at all; and the arguments are
    the program name, the port and one pair per recorded option, so at
    most eight strings. *)
Theorem client_command_line_shape argv params :
  parse_args argv = Some params ->
  well_formed params
  /\ portnum params = argv !! 1%nat
  /\ length argv = (2 + 2 * options_given params)%nat
  /\ (length argv <= 8)%nat.
Proof.
  unfold parse_args. destruct argv as [|prog [|port flags]]; try discriminate.
  destruct (String.eqb_spec port "") as [|Hport]; [discriminate|].
  intros Hparse.
  apply (parse_flags_shape (length flags)) in Hparse; [|lia].
  destruct Hparse as (Hp & Hlen & Hwf). cbn in Hp, Hlen.
  assert (Hcount : (options_given params <= 3)%nat)
    by (unfold options_given;
        destruct (detectFileGiven params), (replaceFileGiven params),
          (outputFileNameGiven params); cbn; lia).
  split; [|split; [|split]].
  - apply Hwf. unfold well_formed. cbn. repeat split; eauto.
  - exact Hp.
  - cbn [length]. lia.
  - cbn [length]. lia.
Qed.

(** Two options that follow each other can change places. *)
Lemma parse_flags_swap a v b u rest params :
  parse_flags (a :: v :: b :: u :: rest) params
  = parse_flags (b :: u :: a :: v :: rest) params.
Proof.
  rewrite !parse_flags_cons.
  destruct params as [port dg d rg r og o].
  cbn [replaceFileGiven outputFileNameGiven detectFileGiven portnum
       detectFile replaceFile outputFileName].
  rewrite ?parse_flags_cons.
  cbn [replaceFileGiven outputFileNameGiven detectFileGiven portnum
       detectFile replaceFile outputFileName].
  destruct (String.eqb_spec a "--replacefile") as [->|?];
    [|destruct (String.eqb_spec a "--outputfilename") as [->|?];
      [|destruct (String.eqb_spec a "--detectfile") as [->|?]]];
  (destruct (String.eqb_spec b "--replacefile") as [->|?];
    [|destruct (String.eqb_spec b "--outputfilename") as [->|?];
      [|destruct (String.eqb_spec b "--detectfile") as [->|?]]]);
  cbn [String.eqb Ascii.eqb Bool.eqb andb negb];
  destruct dg, rg, og, (String.eqb v ""), (String.eqb u "");
  reflexivity.
Qed.

Lemma parse_flags_flatten_cons a v rest params :
  parse_flags (flatten ((a, v) :: rest)) params
  = parse_flags (a :: v :: flatten rest) params.
Proof. reflexivity. Qed.

(** An option in front decides by itself whether the parse goes on, and
    with which parameters. *)
Lemma parse_flags_head a v params :
  exists next : option CmdLineParams, forall rest,
    parse_flags (a :: v :: rest) params
    = match next with Some p => parse_flags rest p | None => None end.
Proof.
  destruct (String.eqb a "--replacefile" && negb (replaceFileGiven params)
            && negb (String.eqb v "")) eqn:E1;
    [|destruct (String.eqb a "--outputfilename"
                && negb (outputFileNameGiven params)
                && negb (String.eqb v "")) eqn:E2;
      [|destruct (String.eqb a "--detectfile"
                  && negb (detectFileGiven params)
                  && negb (String.eqb v "")) eqn:E3]].
  all: [> eexists (Some _) | eexists (Some _) | eexists (Some _)
        | exists None ];
       intros rest; rewrite parse_flags_cons, ?E1, ?E2, ?E3; reflexivity.
Qed.

(** The options of the client may come in any order: two command lines
    with the same pairs of an option and its value, in different orders,
    give the same parameters, or both the usage error. *)
Theorem client_options_in_any_order options options' prog port :
  Permutation options options' ->
  parse_args (prog :: port :: flatten options)
  = parse_args (prog :: port :: flatten options').
Proof.
  intros Hperm. unfold parse_args.
  destruct (String.eqb port ""); [reflexivity|].
  generalize (mkParams (Some port) false None false None false None).
  induction Hperm as [|[a v] l l' _ IH|[a v] [b u] l|l l' l'' _ IH1 _ IH2];
    intros params.
  - reflexivity.
  - rewrite !parse_flags_flatten_cons.
    destruct (parse_flags_head a v params) as [[p|] Hnext];
      rewrite !Hnext; [apply IH | reflexivity].
  - cbn [flatten]. apply parse_flags_swap.
  - rewrite IH1. apply IH2.
Qed.

End ClientCommandLine.

Section ClientCommandLineExamples.
Import Wire Client.

Lemma client_command_line_shape_witness :
  well_formed output_params
  /\ portnum output_params = output_argv !! 1%nat
  /\ length output_argv = (2 + 2 * options_given output_params)%nat
  /\ (length output_argv <= 8)%nat.
Proof.
  exact (client_command_line_shape output_argv output_params eq_refl).
Defined.

Lemma client_options_in_any_order_witness :
  parse_args ("uqfaceclient" :: "8080" :: flatten detect_then_output)%string
  = parse_args ("uqfaceclient" :: "8080" :: flatten output_then_detect)%string.
Proof.
  apply client_options_in_any_order. apply perm_swap.
Defined.

End ClientCommandLineExamples.

(* ===================================================================== *)
(** * The client reads its images: [create_image_buffer] *)
(* ===================================================================== *)

Section ImageBufferFacts.
Import Wire Client.

Lemma wrap64_small z : 0 <= z < 18446744073709551616 -> wrap64 z = z.
Proof. intros. unfold wrap64. apply Z.mod_small. assumption. Qed.

Lemma image_buffer_loop_reads fuel : forall capacity done junk stream,
  0 < capacity -> blen done <= capacity ->
  blen (done ++ junk) = capacity ->
  blen (done ++ stream) <= SIZE_LIMIT ->
  capacity <= 2 * SIZE_LIMIT ->
  (length stream < fuel)%nat ->
  image_buffer_loop fuel capacity (blen done) (done ++ junk) stream
  = Some (done ++ stream).
Proof.
  induction fuel as [|fuel IH]; intros capacity done junk stream
    Hcap Hdone Hlen Hlimit Hbig Hfuel; [lia|].
  cbn [image_buffer_loop]. unfold SIZE_LIMIT in *.
  pose proof (blen_nonneg done). pose proof (blen_nonneg stream).
  rewrite blen_app in Hlen, Hlimit.
  pose proof (blen_nonneg junk).
  (* the buffer after the possible realloc *)
  assert (Hgrow : exists capacity' junk',
    (if blen done =? capacity then wrap64 (capacity * 2) else capacity)
    = capacity'
    /\ (if blen done =? capacity
        then realloc (done ++ junk) capacity'
        else done ++ junk) = done ++ junk'
    /\ blen done < capacity' /\ blen done + blen junk' = capacity'
    /\ capacity' <= 2 * 4611686018427387904).
  { destruct (Z.eqb_spec (blen done) capacity) as [Hfull|Hroom].
    - exists (capacity * 2), (replicate (Z.to_nat capacity) Byte.x00).
      rewrite wrap64_small by lia.
      assert (junk = []) as ->
        by (destruct junk; [reflexivity | unfold blen in *; cbn in *; lia]).
      rewrite app_nil_r. unfold realloc.
      rewrite take_ge by (unfold blen in *; lia).
      split; [reflexivity|]. split.
      { do 2 f_equal. unfold blen in *. lia. }
      unfold blen at 3. rewrite length_replicate. lia.
    - exists capacity, junk. repeat split; lia. }
  destruct Hgrow as (capacity' & junk' & -> & -> & Hroom & Hlen' & Hbig').
  unfold fread. rewrite wrap64_small by lia.
  set (n := Z.to_nat (capacity' - blen done)).
  assert (Hn : (0 < n)%nat) by (unfold n; lia).
  assert (Hjunk : length junk' = n) by (unfold n, blen in *; lia).
  (* the bytes fread stores *)
  rewrite <- (take_drop (length (take n stream)) junk').
  rewrite (memcpy_middle (take n stream) done);
    [|reflexivity| rewrite !length_take; lia].
  cbn [mbind option_bind].
  assert (Hgot : blen (take n stream) = Z.of_nat (n `min` length stream))
    by (unfold blen; rewrite length_take; reflexivity).
  rewrite length_take.
  destruct (Z.eqb_spec (blen (take n stream)) 0) as [Hz|Hnz].
  - (* end of the stream *)
    assert (stream = []) as ->
      by (destruct stream; [reflexivity | cbn [length] in *; lia]).
    rewrite take_nil. cbn [length app]. rewrite app_nil_r.
    change (blen []) with 0. rewrite Z.add_0_r.
    rewrite wrap64_small by (unfold blen in *; lia).
    unfold blen. rewrite Nat2Z.id, take_app_length. reflexivity.
  - rewrite wrap64_small by (unfold blen in *; lia).
    rewrite app_assoc, <- blen_app.
    rewrite IH.
    + rewrite <- app_assoc, take_drop. reflexivity.
    + lia.
    + rewrite blen_app. unfold blen in *. lia.
    + rewrite !blen_app. unfold blen in *.
      rewrite length_drop. lia.
    + rewrite <- app_assoc, take_drop, blen_app. lia.
    + lia.
    + rewrite length_drop. unfold blen in *. lia.
Qed.

(** [create_image_buffer] returns the bytes of the stream, all of them and
    in order, whatever their number (below 2^62): the doubling of the
    capacity keeps every [fread] inside the allocated block. *)
Theorem create_image_buffer_reads_the_stream stream :
  blen stream <= SIZE_LIMIT ->
  create_image_buffer stream = Some stream.
Proof.
  intros Hlimit. unfold create_image_buffer, malloc.
  apply (image_buffer_loop_reads (S (length stream)) DEFAULT_CAPACITY []
           (replicate (Z.to_nat DEFAULT_CAPACITY) Byte.x00) stream).
  - reflexivity.
  - discriminate.
  - rewrite app_nil_l. unfold blen.
    rewrite length_replicate, Z2Nat.id; [reflexivity | discriminate].
  - rewrite app_nil_l. exact Hlimit.
  - discriminate.
  - lia.
Qed.

Lemma create_image_buffer_reads_the_stream_witness :
  create_image_buffer [Byte.xff; Byte.xd8] = Some [Byte.xff; Byte.xd8].
Proof.
  apply create_image_buffer_reads_the_stream. vm_compute. discriminate.
Defined.

End ImageBufferFacts.

(* ===================================================================== *)
(** * The server's command line, argument by argument *)
(* ===================================================================== *)

Section ServerCommandLine.
Import Wire Server.

Lemma digits_value_ge s : forall acc, 0 <= acc -> acc <= digits_value acc s.
Proof.
  induction s as [|c s IH]; intros acc Hacc; cbn [digits_value]; [lia|].
  destruct (isdigit c) eqn:Hd; [|lia].
  unfold isdigit in Hd. apply andb_prop in Hd as [H1 H2].
  apply Z.leb_le in H1, H2.
  specialize (IH (10 * acc + (Z.of_N (N_of_ascii c) - 48)) ltac:(lia)). lia.
Qed.

Lemma decimal_nonneg s : 0 <= decimal s.
Proof.
  unfold decimal.
  destruct s as [|c s]; [cbn; lia|].
  destruct (Ascii.eqb_spec c "+"%char) as [->|Hc].
  - apply (digits_value_ge s 0). lia.
  - assert (H : 0 <= digits_value 0 (String c s))
      by (apply (digits_value_ge (String c s) 0); lia).
    destruct c as [[] [] [] [] [] [] [] []];
      first [exact H | exfalso; apply Hc; reflexivity].
Qed.

Lemma atoi_small s : decimal s <= INT_MAX -> atoi s = decimal s.
Proof.
  intros H. pose proof (decimal_nonneg s). unfold atoi, LONG_MAX, INT_MAX in *.
  rewrite Z.min_l by lia. apply wrap_int_small. unfold INT_MAX. lia.
Qed.

Lemma strtoul_fits s :
  decimal s <= UINT32_MAX -> strtoul s = (decimal s, false).
Proof.
  intros H. unfold strtoul, ULONG_MAX, UINT32_MAX in *.
  destruct (Z.gtb_spec (decimal s) 18446744073709551615); [lia|reflexivity].
Qed.

Lemma strtoul_large s :
  UINT32_MAX < decimal s ->
  snd (strtoul s) || (fst (strtoul s) >? UINT32_MAX) = true.
Proof.
  intros H. unfold strtoul, ULONG_MAX, UINT32_MAX in *.
  destruct (Z.gtb_spec (decimal s) 18446744073709551615); [reflexivity|].
  cbn [fst snd orb]. apply Z.gtb_lt. lia.
Qed.

(** The server's command line, for a connection limit whose digits give
    a value that fits [int].  With two arguments it is accepted exactly
    when both are an optional '+' followed by one or more decimal digits,
    the limit is at most 10000 and the size at most 2^32 - 1; the
    parameters are then the two values, with the cap 2^32 - 1 for the size
    0, and the ephemeral port.  A third argument that is not empty changes
    nothing about acceptance; it is taken as the port as it stands, unless
    it is a number of value 0, which stands for the ephemeral port. *)
Theorem server_command_line prog limit size :
  decimal limit <= INT_MAX ->
  let accepted :=
    valid_cmd_line_number (Some limit) && valid_cmd_line_number (Some size)
    && (decimal limit <=? MAX_CONNECTIONS) && (decimal size <=? UINT32_MAX) in
  let cap := if decimal size =? 0 then UINT32_MAX else decimal size in
  parse_command_line [prog; limit; size]
  = (if accepted then Return (mkParams (decimal limit) cap "0" false)
     else command_line_error)
  /\ forall port,
       port <> EmptyString ->
       (valid_cmd_line_number (Some port) = true -> decimal port <= INT_MAX) ->
       parse_command_line [prog; limit; size; port]
       = (if accepted
          then Return (if ephemeral port
                       then mkParams (decimal limit) cap "0" false
                       else mkParams (decimal limit) cap port true)
          else command_line_error).
Proof.
  intros Hlimit. cbn zeta.
  assert (Hboth : forall (argv : list string) (argc : Z)
                    (k : CmdLineParams -> Outcome CmdLineParams),
    argv !! 1%nat = Some limit -> argv !! 2%nat = Some size ->
    (if negb (valid_cmd_line_number (argv !! 1%nat)) then command_line_error
     else
       let connectionLimit := atoi (arg argv 1) in
       if connectionLimit >? MAX_CONNECTIONS then command_line_error
       else if negb (valid_cmd_line_number (argv !! 2%nat))
       then command_line_error
       else
         let '(test, erange) := strtoul (arg argv 2) in
         if erange || (test >? UINT32_MAX) then command_line_error
         else
           let maxSize := wrap32 test in
           let maxSize := if maxSize =? 0 then UINT32_MAX else maxSize in
           k (mkParams connectionLimit maxSize "0" false))
    = (if valid_cmd_line_number (Some limit)
          && valid_cmd_line_number (Some size)
          && (decimal limit <=? MAX_CONNECTIONS)
          && (decimal size <=? UINT32_MAX)
       then k (mkParams (decimal limit)
                 (if decimal size =? 0 then UINT32_MAX else decimal size)
                 "0" false)
       else command_line_error)).
  { intros argv argc k H1 H2. unfold arg. rewrite H1, H2. cbn [from_option id].
    cbn zeta. rewrite atoi_small by exact Hlimit.
    destruct (valid_cmd_line_number (Some limit)); [|reflexivity].
    cbn [negb andb].
    destruct (Z.gtb_spec (decimal limit) MAX_CONNECTIONS);
      destruct (Z.leb_spec (decimal limit) MAX_CONNECTIONS); try lia;
      [rewrite andb_false_r; reflexivity|].
    destruct (valid_cmd_line_number (Some size)); [|reflexivity].
    cbn [negb andb].
    pose proof (decimal_nonneg size).
    destruct (Z.leb_spec (decimal size) UINT32_MAX) as [Hfit|Hbig].
    - rewrite strtoul_fits by exact Hfit. cbn [orb].
      destruct (Z.gtb_spec (decimal size) UINT32_MAX); [lia|].
      rewrite wrap32_small by lia. reflexivity.
    - pose proof (strtoul_large size Hbig) as Hl.
      destruct (strtoul size) as [test erange]. cbn [fst snd] in Hl.
      rewrite Hl. reflexivity. }
  split.
  - unfold parse_command_line.
    change (Z.of_nat (length [prog; limit; size])) with 3.
    change ((3 <? PORTNUM_INDEX) || (3 >? EXTRA_CMD_LINE_ARGS)) with false.
    change (3 =? PORTNUM_INCLUDED) with false. cbn iota.
    apply (Hboth [prog; limit; size] 3 (fun p => Return p)); reflexivity.
  - intros port Hport Hrange. unfold parse_command_line.
    change (Z.of_nat (length [prog; limit; size; port])) with 4.
    change ((4 <? PORTNUM_INDEX) || (4 >? EXTRA_CMD_LINE_ARGS)) with false.
    change (4 =? PORTNUM_INCLUDED) with true. cbn iota.
    change (arg [prog; limit; size; port] 3) with port.
    change ([prog; limit; size; port] !! 3%nat) with (Some port).
    destruct (String.eqb_spec port "") as [|_]; [contradiction|].
    etransitivity;
      [exact (Hboth [prog; limit; size; port] 4
                (fun p => if valid_cmd_line_number (Some port)
                             && (atoi port =? 0)
                          then Return p
                          else Return (mkParams (connectionLimit p)
                                         (maxSize p) port true))
                eq_refl eq_refl)|].
    cbn [connectionLimit maxSize].
    destruct (valid_cmd_line_number (Some limit)
              && valid_cmd_line_number (Some size)
              && (decimal limit <=? MAX_CONNECTIONS)
              && (decimal size <=? UINT32_MAX)); [|reflexivity].
    unfold ephemeral.
    destruct (valid_cmd_line_number (Some port)) eqn:Hv.
    + rewrite atoi_small by (apply Hrange; reflexivity). cbn [andb].
      destruct (decimal port =? 0); reflexivity.
    + reflexivity.
Qed.

End ServerCommandLine.

Section ServerCommandLineExamples.
Import Wire Server.

Lemma server_command_line_witness :
  parse_command_line ["./uqfacedetect"; "5"; "1000"]%string
  = Return (mkParams 5 1000 "0" false)
  /\ parse_command_line ["./uqfacedetect"; "5"; "1000"; "+0"]%string
     = Return (mkParams 5 1000 "0" false)
  /\ parse_command_line ["./uqfacedetect"; "5"; "1000"; "http"]%string
     = Return (mkParams 5 1000 "http" true).
Proof.
  assert (Hfits : decimal "5" <= INT_MAX) by (vm_compute; discriminate).
  destruct (server_command_line "./uqfacedetect" "5" "1000" Hfits)
    as [Htwo Hthree].
  split; [exact Htwo | split].
  - apply (Hthree "+0"%string); [discriminate | vm_compute; discriminate].
  - apply (Hthree "http"%string); [discriminate | discriminate].
Defined.

End ServerCommandLineExamples.

(* ===================================================================== *)
(** * Admission: the semaphore, and no deadlock on the server's locks *)
(* ===================================================================== *)

Section AdmissionMore.
Import Wire Admission.

Ltac lookup_cases :=
  repeat match goal with
  | H : context [<[?i := _]> _ !! ?j] |- _ =>
      destruct (decide (i = j)) as [->|?];
      [ rewrite lookup_insert_eq in H
      | rewrite lookup_insert_ne in H by assumption ]
  | |- context [<[?i := _]> _ !! ?j] =>
      destruct (decide (i = j)) as [->|?];
      [ rewrite lookup_insert_eq | rewrite lookup_insert_ne by assumption ]
  end.











End AdmissionMore.

Section AdmissionMoreExamples.
Import Wire Admission.




End AdmissionMoreExamples.

(* ===================================================================== *)
(** * The cascade mutex after an early return of [find_faces] *)
(* ===================================================================== *)

Section CascadeMore.
Import Cascade.

Lemma abandoned_step t s s' :
  owner_inv s -> abandoned t s -> next s s' -> abandoned t s'.
Proof.
  intros Hinv [Hown Hpc] [t' Hstep]. unfold abandoned.
  destruct Hstep; cbn in *; simplify_eq.
  all: try match goal with
       | H : ?th !! ?t' = Some ?pc |- _ =>
           assert (Hmine : holds pc = true -> Some t = Some t')
             by (intros Hh; exact (Hinv t' pc H Hh))
       end.
  all: try (specialize (Hmine eq_refl); simplify_eq;
            destruct Hpc; congruence).
  all: split; [reflexivity|].
  all: destruct (decide (t0 = t)) as [->|Hne];
       [ rewrite lookup_insert_eq; destruct Hpc; simplify_eq; auto
       | rewrite lookup_insert_ne by exact Hne; exact Hpc ].
Qed.

Lemma owner_inv_next s s' : owner_inv s -> next s s' -> owner_inv s'.
Proof. intros H [t Hs]. eapply owner_inv_step; eassumption. Qed.

Lemma abandoned_later t s s' :
  owner_inv s -> abandoned t s -> rtc next s s' ->
  owner_inv s' /\ abandoned t s'.
Proof.
  intros Hinv Hab Hrtc. induction Hrtc as [|s s1 s' H1 _ IH]; [auto|].
  apply IH; [eapply owner_inv_next | eapply abandoned_step]; eassumption.
Qed.

(** Once a thread has left [find_faces] through its early return (the
    storage is null), the cascade mutex stays locked by it for ever: in
    every later state no thread is inside the detector, and a thread that
    stands before a lock of the cascade mutex cannot take a step. *)
Theorem early_return_blocks_the_detector s t s' :
  reachable s -> threads s !! t = Some FReturnNull -> rtc next s s' ->
  cascadeLock s' = Some t
  /\ (forall t' pc, threads s' !! t' = Some pc -> in_detector pc = false)
  /\ (forall t' pc, threads s' !! t' = Some pc -> at_lock pc = true ->
        forall s'', ~ step t' s' s'').
Proof.
  intros Hr Hpc Hrtc.
  pose proof (reachable_owner_inv s Hr) as Hinv.
  assert (Hab : abandoned t s)
    by (split; [exact (Hinv t _ Hpc eq_refl) | left; exact Hpc]).
  destruct (abandoned_later t s s' Hinv Hab Hrtc) as [Hinv' [Hown Hpc']].
  split; [exact Hown | split].
  - intros t' pc Ht'. destruct (in_detector pc) eqn:Hin; [|reflexivity].
    pose proof (Hinv' t' pc Ht' (in_detector_holds _ Hin)) as E.
    rewrite Hown in E. simplify_eq.
    destruct Hpc' as [E|E]; rewrite E in Ht'; simplify_eq; discriminate.
  - intros t' pc Ht' Hat s'' Hstep.
    destruct Hstep; cbn in *; simplify_eq; discriminate.
Qed.

Lemma early_returned_reachable : reachable early_returned.
Proof.
  pose proof reach_init as H0. unfold init in H0.
  pose proof (reach_step _ _ _ H0 (spawn 0 _ _ (lookup_empty _))) as H1.
  pose proof (reach_step _ _ _ H1
                (enter_find_faces 0 _ _ (lookup_insert_eq _ _ _))) as H2.
  pose proof (reach_step _ _ _ H2
                (find_lock 0 _ (lookup_insert_eq _ _ _))) as H3.
  pose proof (reach_step _ _ _ H3
                (find_storage_null 0 _ _ (lookup_insert_eq _ _ _))) as H4.
  rewrite !insert_insert_eq in H4.
  assert (Hfree : (<[0%nat := FReturnNull]> (∅ : gmap nat Pc)) !! 1%nat = None)
    by reflexivity.
  pose proof (reach_step _ _ _ H4 (spawn 1 _ _ Hfree)) as H5.
  pose proof (reach_step _ _ _ H5
                (enter_find_faces 1 _ _ (lookup_insert_eq _ _ _))) as H6.
  rewrite insert_insert_eq in H6. exact H6.
Qed.

Lemma early_return_blocks_the_detector_witness :
  cascadeLock early_returned = Some 0%nat
  /\ (forall t' pc, threads early_returned !! t' = Some pc ->
                    in_detector pc = false)
  /\ (forall t' pc, threads early_returned !! t' = Some pc ->
        at_lock pc = true -> forall s'', ~ step t' early_returned s'').
Proof.
  exact (early_return_blocks_the_detector early_returned 0 early_returned
           early_returned_reachable eq_refl (rtc_refl _ _)).
Defined.

End CascadeMore.

(* ===================================================================== *)
(** * The scratch file is read back as it was written *)
(* ===================================================================== *)

Section ScratchFacts.
Import Wire Scratch.

Lemma Inv_init content : Inv (init content).
Proof.
  constructor; cbn; intros *; rewrite lookup_empty; discriminate.
Qed.

Lemma Inv_step t s s' : Inv s -> step t s s' -> Inv s'.
Proof.
  intros [Hown Hfile Hread] Hstep.
  destruct Hstep; constructor; cbn in *.
  all: intros t' pc'; intros;
    (destruct (decide (t = t')) as [->|Hne];
     [ rewrite lookup_insert_eq in *; simplify_eq; cbn in *;
       try discriminate; simplify_eq; try reflexivity; try exact I
     | rewrite lookup_insert_ne in * by exact Hne ]).
  all: try solve [eauto].
  all: try solve [exfalso; match goal with
       | H' : ?th !! ?t' = Some ?pc', Hh : holds ?pc' = true |- _ =>
           pose proof (Hown t' pc' H' Hh); discriminate
       end].
  all: try match goal with
       | H : ?th !! ?t = Some ?pc |- _ =>
           match goal with
           | Hne : t <> ?t', H' : ?th !! ?t' = Some ?pc' |- _ =>
               pose proof (Hown t pc H eq_refl) as E1;
               first [ pose proof (Hown t' pc' H' ltac:(assumption)) as E2
                     | assert (E2 : holds pc' = true)
                         by (destruct pc'; cbn in *; congruence);
                       apply (Hown t' pc' H') in E2 ];
               congruence
           end
       end.
Qed.

Lemma reachable_Inv content s : reachable content s -> Inv s.
Proof.
  induction 1; [apply Inv_init | eapply Inv_step; eassumption].
Qed.

(** The one scratch file is shared by all workers, yet each worker reads
    back what it wrote itself: [cvLoadImage] in [create_frame] and
    [create_replacement] reads the image bytes this worker wrote, and
    [output_face_detection] sends the bytes this worker saved; at most one
    worker is between a lock and an unlock of the file mutex. *)
Theorem scratch_file_read_back_as_written content s :
  reachable content s ->
  (forall t image loaded,
     threads s !! t = Some (CUnlock image loaded) -> loaded = image)
  /\ (forall t encoded output,
        threads s !! t = Some (OSend encoded output) -> output = encoded)
  /\ (forall t1 pc1 t2 pc2,
        threads s !! t1 = Some pc1 -> holds pc1 = true ->
        threads s !! t2 = Some pc2 -> holds pc2 = true -> t1 = t2).
Proof.
  intros Hr. destruct (reachable_Inv _ _ Hr) as [Hown _ Hread].
  split; [|split].
  - intros t image loaded H. exact (Hread _ _ H).
  - intros t encoded output H. exact (Hread _ _ H).
  - intros t1 pc1 t2 pc2 H1 C1 H2 C2.
    pose proof (Hown _ _ H1 C1). pose proof (Hown _ _ H2 C2). congruence.
Qed.

Lemma one_loading_reachable : reachable [] one_loading.
Proof.
  pose proof (reach_init []) as H0. unfold init in H0.
  pose proof (reach_step _ _ _ _ H0 (spawn 0 _ _ _ (lookup_empty _))) as H1.
  pose proof (reach_step _ _ _ _ H1
                (enter_create 0 [Byte.xff; Byte.xd8] _ _ _
                   (lookup_insert_eq _ _ _))) as H2.
  pose proof (reach_step _ _ _ _ H2
                (create_lock 0 _ _ _ (lookup_insert_eq _ _ _))) as H3.
  pose proof (reach_step _ _ _ _ H3
                (create_open 0 _ _ _ _ (lookup_insert_eq _ _ _))) as H4.
  pose proof (reach_step _ _ _ _ H4
                (create_write 0 _ _ _ _ (lookup_insert_eq _ _ _))) as H5.
  pose proof (reach_step _ _ _ _ H5
                (create_load 0 _ _ _ _ (lookup_insert_eq _ _ _))) as H6.
  rewrite !insert_insert_eq in H6.
  assert (Hfree : (<[0%nat := CUnlock [Byte.xff; Byte.xd8] [Byte.xff; Byte.xd8]]>
                     (∅ : gmap nat Pc)) !! 1%nat = None) by reflexivity.
  pose proof (reach_step _ _ _ _ H6 (spawn 1 _ _ _ Hfree)) as H7.
  pose proof (reach_step _ _ _ _ H7
                (enter_create 1 [Byte.x89] _ _ _ (lookup_insert_eq _ _ _))) as H8.
  rewrite insert_insert_eq in H8. exact H8.
Qed.

Lemma scratch_file_read_back_as_written_witness :
  (forall t image loaded,
     threads one_loading !! t = Some (CUnlock image loaded) -> loaded = image)
  /\ (forall t encoded output,
        threads one_loading !! t = Some (OSend encoded output) ->
        output = encoded)
  /\ (forall t1 pc1 t2 pc2,
        threads one_loading !! t1 = Some pc1 -> holds pc1 = true ->
        threads one_loading !! t2 = Some pc2 -> holds pc2 = true -> t1 = t2).
Proof.
  exact (scratch_file_read_back_as_written [] one_loading
           one_loading_reachable).
Defined.

End ScratchFacts.

(* ===================================================================== *)
(** * The loops over [read] and [send] against their summaries *)
(* ===================================================================== *)

Section IoFacts.
Import Wire Io.

Lemma reliable_tl kernel : reliable kernel -> reliable (tl kernel).
Proof. destruct 1; [constructor | assumption]. Qed.

Lemma next_call_reliable kernel count :
  reliable kernel -> exists limit, next_call kernel count = Chunk limit.
Proof.
  destruct 1 as [|k ks Hk _]; cbn; [eauto|].
  destruct k; [contradiction | eauto].
Qed.

Lemma read_loop_reliable fuel : forall kernel stream stored curr totalSize,
  reliable kernel -> 0 <= curr -> (Z.to_nat (totalSize - curr) <= fuel)%nat ->
  read_loop fuel kernel stream stored curr totalSize
  = Some (if totalSize - curr <=? blen stream
          then (Z.max curr totalSize,
                stored ++ take (Z.to_nat (totalSize - curr)) stream,
                drop (Z.to_nat (totalSize - curr)) stream)
          else (-1, stored ++ stream, [])).
Proof.
  induction fuel as [|fuel IH]; intros kernel stream stored curr totalSize
    Hk Hcurr Hfuel.
  - cbn [read_loop]. destruct (Z.ltb_spec curr totalSize); [lia|].
    pose proof (blen_nonneg stream).
    destruct (Z.leb_spec (totalSize - curr) (blen stream)); [|lia].
    replace (Z.to_nat (totalSize - curr)) with 0%nat by lia.
    rewrite take_0, drop_0, app_nil_r. repeat f_equal. lia.
  - cbn [read_loop]. destruct (Z.ltb_spec curr totalSize) as [Hlt|Hge].
    2:{ pose proof (blen_nonneg stream).
        destruct (Z.leb_spec (totalSize - curr) (blen stream)); [|lia].
        replace (Z.to_nat (totalSize - curr)) with 0%nat by lia.
        rewrite take_0, drop_0, app_nil_r. repeat f_equal. lia. }
    destruct (next_call_reliable kernel (totalSize - curr) Hk) as [limit ->].
    cbn [read].
    set (n := Nat.min (S limit)
                (Nat.min (Z.to_nat (totalSize - curr)) (length stream))).
    destruct (Z.leb_spec (Z.of_nat n) 0) as [Hz|Hpos].
    + (* end of the stream *)
      assert (Hlen : length stream = 0%nat) by (subst n; lia).
      destruct stream; [|discriminate]. clear Hlen.
      rewrite drop_nil.
      destruct (Z.leb_spec (totalSize - curr) (blen [])) as [Hb|_];
        [unfold blen in Hb; cbn [length] in Hb; lia|].
      rewrite app_nil_r. reflexivity.
    + rewrite IH; [|apply reliable_tl; exact Hk|lia|lia].
      f_equal. unfold blen. rewrite length_drop.
      assert (Hn : (n <= length stream)%nat) by lia.
      assert (Hn' : (n <= Z.to_nat (totalSize - curr))%nat) by lia.
      destruct (Z.leb_spec (totalSize - (curr + Z.of_nat n))
                  (Z.of_nat (length stream - n)));
        destruct (Z.leb_spec (totalSize - curr) (Z.of_nat (length stream)));
        try lia.
      * f_equal; [f_equal; [lia|]|].
        -- rewrite <- app_assoc. f_equal.
           replace (Z.to_nat (totalSize - curr))
             with (n + Z.to_nat (totalSize - (curr + Z.of_nat n)))%nat by lia.
           rewrite take_take_drop. reflexivity.
        -- rewrite drop_drop. f_equal. lia.
      * rewrite <- app_assoc, take_drop. reflexivity.
Qed.

Lemma send_loop_reliable fuel : forall kernel input taken curr totalSize,
  reliable kernel -> 0 <= curr -> (Z.to_nat (totalSize - curr) <= fuel)%nat ->
  totalSize <= blen input ->
  send_loop fuel kernel input taken curr totalSize
  = Some (Z.max curr totalSize,
          taken ++ take (Z.to_nat (totalSize - curr))
                     (drop (Z.to_nat curr) input)).
Proof.
  induction fuel as [|fuel IH]; intros kernel input taken curr totalSize
    Hk Hcurr Hfuel Hsize.
  - cbn [send_loop]. destruct (Z.ltb_spec curr totalSize); [lia|].
    replace (Z.to_nat (totalSize - curr)) with 0%nat by lia.
    rewrite take_0, app_nil_r. repeat f_equal. lia.
  - cbn [send_loop]. destruct (Z.ltb_spec curr totalSize) as [Hlt|Hge].
    2:{ replace (Z.to_nat (totalSize - curr)) with 0%nat by lia.
        rewrite take_0, app_nil_r. repeat f_equal. lia. }
    destruct (next_call_reliable kernel (totalSize - curr) Hk) as [limit ->].
    cbn [send].
    set (n := Nat.min (S limit) (Z.to_nat (totalSize - curr))).
    destruct (Z.leb_spec (Z.of_nat n) 0) as [Hz|Hpos]; [lia|].
    rewrite IH; [|apply reliable_tl; exact Hk|lia|lia|lia].
    f_equal. f_equal; [lia|].
    rewrite <- app_assoc. f_equal.
    replace (Z.to_nat (curr + Z.of_nat n)) with (Z.to_nat curr + n)%nat by lia.
    rewrite <- drop_drop, take_take_drop. f_equal. lia.
Qed.

(** [read_bytes] puts the stream together again: however the kernel
    splits the bytes over the calls of [read], as long as no call fails,
    the loop returns [totalSize] with the next [totalSize] bytes of the
    stream when that many arrive, and -1 with the stream used up when it
    ends before; this is what the summaries of [read_bytes] in the models
    of the server and the client compute. *)
Theorem read_bytes_reassembles kernel totalSize w :
  reliable kernel -> 0 <= totalSize ->
  exists result stored rest,
    read_bytes kernel (Server.input w) totalSize = Some (result, stored, rest)
    /\ (result = totalSize \/ result = -1)
    /\ (result = totalSize <-> totalSize <= blen (Server.input w))
    /\ Server.read_bytes totalSize w
       = (if result =? totalSize then Some stored else None,
          Server.with_input rest w)
    /\ Client.read_bytes totalSize (Server.input w)
       = (if result =? totalSize then Some (stored, rest) else None).
Proof.
  intros Hk Hsize. unfold read_bytes.
  rewrite read_loop_reliable by (assumption || lia).
  rewrite Z.sub_0_r, Z.max_r by lia. cbn [app].
  unfold Server.read_bytes, Client.read_bytes, Server.get_world,
    Server.set_input, Server.with_input.
  unfold mbind, Server.M_bind, mret, Server.M_ret. cbn beta iota.
  destruct (Z.leb_spec totalSize (blen (Server.input w))) as [Hle|Hgt].
  - eexists _, _, _. split; [reflexivity|].
    rewrite Z.eqb_refl. repeat split; auto.
  - eexists _, _, _. split; [reflexivity|].
    destruct (Z.eqb_spec (-1) totalSize); [lia|].
    repeat split; auto; lia.
Qed.

(** [send_bytes] (as [write_bytes] and the client's
    [send_without_signals]) hands over every byte once and in order:
    however many bytes the kernel takes per call, as long as no call
    fails, the loop returns [totalSize] and the kernel has the first
    [totalSize] bytes of the buffer, which is what the summary of
    [send_bytes] in the model of the server appends to the bytes sent. *)
Theorem send_bytes_hands_over_all kernel input totalSize w :
  reliable kernel -> 0 <= totalSize <= blen input ->
  send_bytes kernel input totalSize
  = Some (totalSize, take (Z.to_nat totalSize) input)
  /\ Server.sent (Server.run (Server.send_bytes input totalSize) w)
     = Server.sent w ++ take (Z.to_nat totalSize) input.
Proof.
  intros Hk Hsize. unfold send_bytes.
  rewrite send_loop_reliable by (assumption || lia).
  rewrite Z.sub_0_r, Z.max_r by lia. cbn [app Z.to_nat]. rewrite drop_0.
  split; reflexivity.
Qed.

End IoFacts.

Section IoExamples.
Import Wire Io.

Lemma read_bytes_reassembles_witness :
  exists result stored rest,
    read_bytes trickle
      (Server.input (Server.accepted_connection Server.small_request)) 9
    = Some (result, stored, rest)
    /\ (result = 9 \/ result = -1)
    /\ (result = 9
        <-> 9 <= blen (Server.input
                         (Server.accepted_connection Server.small_request)))
    /\ Server.read_bytes 9 (Server.accepted_connection Server.small_request)
       = (if result =? 9 then Some stored else None,
          Server.with_input rest
            (Server.accepted_connection Server.small_request))
    /\ Client.read_bytes 9
         (Server.input (Server.accepted_connection Server.small_request))
       = (if result =? 9 then Some (stored, rest) else None).
Proof.
  apply read_bytes_reassembles; [|lia].
  repeat constructor; discriminate.
Defined.

Lemma send_bytes_hands_over_all_witness :
  send_bytes trickle Server.small_request 9
  = Some (9, take (Z.to_nat 9) Server.small_request)
  /\ Server.sent (Server.run (Server.send_bytes Server.small_request 9)
                    (Server.accepted_connection []))
     = Server.sent (Server.accepted_connection [])
         ++ take (Z.to_nat 9) Server.small_request.
Proof.
  apply send_bytes_hands_over_all.
  - repeat constructor; discriminate.
  - vm_compute. split; discriminate.
Defined.

End IoExamples.

(* ===================================================================== *)
(** * What the pixel loops of [replace_face] write *)
(* ===================================================================== *)

Section PixelFacts.
Import Wire Pixels.

Lemma cell_range step rows n chan k i c :
  0 <= k < rows -> 0 <= i < n -> 0 <= c < chan -> chan * n <= step ->
  0 <= step * k + i * chan + c < step * rows
  /\ 0 <= step * k <= step * rows /\ 0 <= i * chan <= step
  /\ 0 <= step * k + i * chan <= step * rows.
Proof.
  intros Hk Hi Hc Hstep.
  assert (0 <= i * chan) by nia.
  assert (i * chan + c < step) by nia.
  assert (0 <= step * k) by nia.
  assert (step * k + step <= step * rows) by nia.
  lia.
Qed.

Lemma cell_inj step n chan k i c k' i' c' :
  0 <= i < n -> 0 <= c < chan -> 0 <= i' < n -> 0 <= c' < chan ->
  chan * n <= step ->
  step * k + i * chan + c = step * k' + i' * chan + c' ->
  k = k' /\ i = i' /\ c = c'.
Proof.
  intros Hi Hc Hi' Hc' Hstep Heq.
  assert (0 <= i * chan + c < step) by nia.
  assert (0 <= i' * chan + c' < step) by nia.
  assert (k = k') by nia. subst k'.
  assert (i = i') by nia. subst i'.
  repeat split; lia.
Qed.

Lemma int_exact z : 0 <= z <= INT_MAX -> wrap_int z = z.
Proof. intros. apply wrap_int_small. lia. Qed.

Lemma load_in data i :
  0 <= i < blen data -> load data i = data !! Z.to_nat i.
Proof. intros. unfold load. rewrite bool_decide_true by assumption. reflexivity. Qed.

Lemma lookup_in (data : list byte) i :
  0 <= i < blen data -> exists b, data !! Z.to_nat i = Some b.
Proof.
  intros Hi. apply lookup_lt_is_Some. unfold blen in Hi. lia.
Qed.

Lemma store_in data i b :
  0 <= i < blen data -> Client.store data i b = Some (<[Z.to_nat i := b]> data).
Proof.
  intros. unfold Client.store. rewrite bool_decide_true by assumption.
  reflexivity.
Qed.

Section OneFace.
Variables frame resized : IplImage.
Variable face : CvRect.
Hypothesis Hfits : Fits frame resized face.

Lemma source_range y x c :
  0 <= y < rect_height face -> 0 <= x < rect_width face ->
  0 <= c < nChannels resized ->
  0 <= source resized y x c < blen (imageData resized)
  /\ 0 <= widthStep resized * y <= INT_MAX
  /\ 0 <= x * nChannels resized <= INT_MAX
  /\ 0 <= widthStep resized * y + x * nChannels resized <= INT_MAX
  /\ source resized y x c <= INT_MAX.
Proof.
  intros Hy Hx Hc. destruct Hfits as [_ _ (H3 & Hstep & Hlen & Hmax)].
  unfold source. rewrite Hlen.
  pose proof (cell_range (widthStep resized) (rect_height face)
                (rect_width face) (nChannels resized) y x c Hy Hx Hc Hstep)
    as (Ha & Hb & Hc' & Hd).
  assert (widthStep resized <= widthStep resized * rect_height face) by nia.
  repeat split; lia.
Qed.

Lemma target_range y x c :
  in_face face y x c ->
  0 <= target frame face y x c < blen (imageData frame)
  /\ 0 <= rect_y face + y <= INT_MAX
  /\ 0 <= rect_x face + x <= INT_MAX
  /\ 0 <= widthStep frame * (rect_y face + y) <= INT_MAX
  /\ 0 <= (rect_x face + x) * nChannels frame <= INT_MAX
  /\ 0 <= widthStep frame * (rect_y face + y)
          + (rect_x face + x) * nChannels frame <= INT_MAX
  /\ target frame face y x c <= INT_MAX.
Proof.
  intros (Hy & Hx & Hc).
  destruct Hfits as [(Hx0 & Hy0 & Hw & Hh & Hxw & Hyh)
                       (H3 & Hwi & Hhi & Hstep & Hlen & Hmax) _].
  unfold target. rewrite Hlen.
  pose proof (cell_range (widthStep frame) (height frame) (width frame)
                (nChannels frame) (rect_y face + y) (rect_x face + x) c
                ltac:(lia) ltac:(lia) ltac:(lia) Hstep)
    as (Ha & Hb & Hc' & Hd).
  assert (1 <= width frame) by lia.
  assert (3 <= widthStep frame) by nia.
  assert (widthStep frame <= widthStep frame * height frame) by nia.
  assert (height frame <= widthStep frame * height frame) by nia.
  assert (width frame <= widthStep frame) by nia.
  repeat split; lia.
Qed.

Lemma target_inj y x c y' x' c' :
  in_face face y x c -> in_face face y' x' c' ->
  target frame face y x c = target frame face y' x' c' ->
  y = y' /\ x = x' /\ c = c'.
Proof.
  intros (Hy & Hx & Hc) (Hy' & Hx' & Hc') Heq.
  destruct Hfits as [(Hx0 & Hy0 & Hw & Hh & Hxw & Hyh)
                       (H3 & Hwi & Hhi & Hstep & Hlen & Hmax) _].
  unfold target in Heq.
  destruct (cell_inj (widthStep frame) (width frame) (nChannels frame)
              (rect_y face + y) (rect_x face + x) c
              (rect_y face + y') (rect_x face + x') c')
    as (E1 & E2 & E3); try lia.
Qed.

Lemma paste_pixel_run y x data :
  0 <= y < rect_height face -> 0 <= x < rect_width face ->
  length data = length (imageData frame) ->
  paste_pixel frame resized face y x data
  = Some (if opaque resized y x
          then <[Z.to_nat (target frame face y x 2) := colour resized y x 2]>
                 (<[Z.to_nat (target frame face y x 1) := colour resized y x 1]>
                    (<[Z.to_nat (target frame face y x 0) := colour resized y x 0]>
                       data))
          else data).
Proof.
  intros Hy Hx Hlen.
  pose proof Hfits as [_ _ (H3 & _)].
  unfold paste_pixel, int_add, int_mul.
  destruct (source_range y x 0 Hy Hx ltac:(lia)) as (Hs0 & Hm1 & Hm2 & Hm3 & _).
  destruct (source_range y x 1 Hy Hx ltac:(lia)) as (Hs1 & _).
  destruct (source_range y x 2 Hy Hx ltac:(lia)) as (Hs2 & _).
  destruct (target_range y x 0 ltac:(unfold in_face; lia))
    as (Ht0 & Hn1 & Hn2 & Hn3 & Hn4 & Hn5 & _).
  destruct (target_range y x 1 ltac:(unfold in_face; lia)) as (Ht1 & _).
  destruct (target_range y x 2 ltac:(unfold in_face; lia)) as (Ht2 & _).
  assert (Hdata : blen data = blen (imageData frame))
    by (unfold blen; rewrite Hlen; reflexivity).
  unfold source, target in *.
  rewrite (int_exact (widthStep resized * y)) by lia.
  rewrite (int_exact (x * nChannels resized)) by lia.
  rewrite (int_exact (widthStep resized * y + x * nChannels resized)) by lia.
  rewrite (int_exact (rect_y face + y)) by lia.
  rewrite (int_exact (rect_x face + x)) by lia.
  rewrite (int_exact (widthStep frame * (rect_y face + y))) by lia.
  rewrite (int_exact ((rect_x face + x) * nChannels frame)) by lia.
  rewrite (int_exact (widthStep frame * (rect_y face + y)
                      + (rect_x face + x) * nChannels frame)) by lia.
  assert (Hrmax : blen (imageData resized) <= INT_MAX)
    by (destruct Hfits as [_ _ (_ & _ & -> & ?)]; assumption).
  assert (Hfmax : blen (imageData frame) <= INT_MAX)
    by (destruct Hfits as [_ (_ & _ & _ & _ & -> & ?) _]; assumption).
  rewrite (int_exact (_ + 0)), (int_exact (_ + 1)), (int_exact (_ + 2))
    by lia.
  rewrite (int_exact (_ + 0)), (int_exact (_ + 1)), (int_exact (_ + 2))
    by lia.
  (* the test of the alpha channel *)
  assert (Halpha :
    (if nChannels resized =? bgraChannels
     then alpha ← load (imageData resized)
                  (wrap_int (widthStep resized * y + x * nChannels resized
                             + alphaIndex));
          Some (bool_decide (alpha = Byte.x00))
     else Some false) = Some (negb (opaque resized y x))).
  { unfold opaque, source.
    destruct (Z.eqb_spec (nChannels resized) bgraChannels) as [E|E];
      [|reflexivity].
    destruct (source_range y x alphaIndex Hy Hx
                ltac:(unfold alphaIndex, bgraChannels in *; lia))
      as (Hs3 & _).
    unfold source in Hs3. rewrite int_exact by lia.
    rewrite load_in by exact Hs3.
    destruct (lookup_in _ _ Hs3) as [a ->]. cbn [mbind option_bind andb].
    rewrite negb_involutive. f_equal.
    apply bool_decide_ext. split; congruence. }
  rewrite Halpha. cbn [mbind option_bind].
  destruct (opaque resized y x); cbn [negb]; [|reflexivity].
  unfold colour, source.
  rewrite !load_in by lia.
  destruct (lookup_in _ _ Hs0) as [b0 E0].
  destruct (lookup_in _ _ Hs1) as [b1 E1].
  destruct (lookup_in _ _ Hs2) as [b2 E2].
  rewrite E0, E1, E2. cbn [mbind option_bind default].
  rewrite store_in by lia. cbn [mbind option_bind].
  rewrite store_in by (unfold blen in *; rewrite length_insert; lia).
  cbn [mbind option_bind].
  rewrite store_in by (unfold blen in *; rewrite !length_insert; lia).
  reflexivity.
Qed.

Lemma before_next y x y' x' :
  before y (x + 1) y' x' <-> before y x y' x' \/ (y' = y /\ x' = x).
Proof. unfold before. lia. Qed.

Lemma Pasted_pixel y x data :
  0 <= y < rect_height face -> 0 <= x < rect_width face ->
  Pasted frame resized face y x data ->
  Pasted frame resized face y (x + 1)
    (if opaque resized y x
     then <[Z.to_nat (target frame face y x 2) := colour resized y x 2]>
            (<[Z.to_nat (target frame face y x 1) := colour resized y x 1]>
               (<[Z.to_nat (target frame face y x 0) := colour resized y x 0]> data))
     else data).
Proof.
  intros Hy Hx [Hlen Hdone Hrest].
  assert (Hin : forall c, 0 <= c < 3 -> in_face face y x c)
    by (intros c Hc; unfold in_face; lia).
  assert (Hnew : forall y' x' c c', in_face face y' x' c -> 0 <= c' < 3 ->
            before y x y' x' ->
            Z.to_nat (target frame face y x c')
            <> Z.to_nat (target frame face y' x' c)).
  { intros y' x' c c' Hf Hc' Hb E.
    destruct (target_range y x c' (Hin c' Hc')) as (Ht & _).
    destruct (target_range y' x' c Hf) as (Ht' & _).
    apply Z2Nat.inj in E; try lia.
    destruct (target_inj y x c' y' x' c (Hin c' Hc') Hf E) as (-> & -> & _).
    unfold before in Hb. lia. }
  destruct (opaque resized y x) eqn:Hop.
  - constructor.
    + rewrite !length_insert. exact Hlen.
    + intros y' x' c Hf Hb. apply before_next in Hb as [Hb|[-> ->]].
      * rewrite !list_lookup_insert_ne by (apply Hnew; (assumption || lia)).
        apply Hdone; assumption.
      * rewrite Hop. destruct Hf as (_ & _ & Hc).
        destruct (target_range y x 0 (Hin 0 ltac:(lia))) as (Ht0 & _).
        destruct (target_range y x 2 (Hin 2 ltac:(lia))) as (Ht2 & _).
        destruct (source_range y x c Hy Hx) as (Hs & _);
          [destruct Hfits as [_ _ (? & _)]; lia|].
        unfold colour. destruct (lookup_in _ _ Hs) as [b Eb].
        unfold blen in *. unfold target in *.
        assert (c = 0 \/ c = 1 \/ c = 2) as [->|[->| ->]] by lia.
        -- rewrite !list_lookup_insert_ne by lia.
           rewrite list_lookup_insert_eq by lia. rewrite Eb. reflexivity.
        -- rewrite list_lookup_insert_ne by lia.
           rewrite list_lookup_insert_eq by (rewrite length_insert; lia).
           rewrite Eb. reflexivity.
        -- rewrite list_lookup_insert_eq by (rewrite !length_insert; lia).
           rewrite Eb. reflexivity.
    + intros i Hi.
      assert (Hne : forall c, 0 <= c < 3 ->
                Z.to_nat (target frame face y x c) <> i).
      { intros c Hc E. apply (Hi y x c (Hin c Hc)).
        - apply before_next. right. auto.
        - exact Hop.
        - destruct (target_range y x c (Hin c Hc)) as (Ht & _). lia. }
      rewrite !list_lookup_insert_ne by (apply Hne; lia).
      apply Hrest. intros y' x' c Hf Hb. apply Hi; [exact Hf|].
      apply before_next. left. exact Hb.
  - constructor.
    + exact Hlen.
    + intros y' x' c Hf Hb. apply before_next in Hb as [Hb|[-> ->]].
      * apply Hdone; assumption.
      * rewrite Hop. apply Hrest. intros y' x' c' Hf' Hb' _ E.
        destruct (target_range y x c Hf) as (Ht & _).
        rewrite Z2Nat.id in E by lia.
        destruct (target_inj y x c y' x' c' Hf Hf' E) as (-> & -> & _).
        unfold before in Hb'. lia.
    + intros i Hi. apply Hrest. intros y' x' c Hf Hb. apply Hi; [exact Hf|].
      apply before_next. left. exact Hb.
Qed.

Lemma paste_row_run y n : forall x data,
  0 <= y < rect_height face -> 0 <= x ->
  x + Z.of_nat n = rect_width face ->
  Pasted frame resized face y x data ->
  exists data',
    paste_row frame resized face y n x data = Some data'
    /\ Pasted frame resized face y (rect_width face) data'.
Proof.
  induction n as [|n IH]; intros x data Hy Hx Hn Hp.
  - exists data. split; [reflexivity|].
    replace (rect_width face) with x by lia. exact Hp.
  - cbn [paste_row].
    rewrite paste_pixel_run by (lia || apply Hp).
    cbn [mbind option_bind].
    assert (Hw : rect_width face <= INT_MAX)
      by (destruct Hfits as [? (? & ? & ?) _]; lia).
    unfold int_add. rewrite int_exact by lia.
    apply IH; try lia.
    apply Pasted_pixel; (lia || exact Hp).
Qed.

Lemma Pasted_next_row y data :
  Pasted frame resized face y (rect_width face) data ->
  Pasted frame resized face (y + 1) 0 data.
Proof.
  intros [Hlen Hdone Hrest].
  assert (Hb : forall y' x' c, in_face face y' x' c ->
            before (y + 1) 0 y' x' -> before y (rect_width face) y' x')
    by (unfold before, in_face; lia).
  constructor; [exact Hlen | |].
  - intros y' x' c Hf Hb'. apply Hdone; eauto.
  - intros i Hi. apply Hrest. intros y' x' c Hf Hb'. apply Hi; [exact Hf|].
    unfold before, in_face in *. lia.
Qed.

Lemma paste_rows_run m : forall y data,
  0 <= y -> y + Z.of_nat m = rect_height face ->
  Pasted frame resized face y 0 data ->
  exists data',
    paste_rows frame resized face m y data = Some data'
    /\ Pasted frame resized face (rect_height face) 0 data'.
Proof.
  induction m as [|m IH]; intros y data Hy Hm Hp.
  - exists data. split; [reflexivity|].
    replace (rect_height face) with y by lia. exact Hp.
  - cbn [paste_rows].
    pose proof Hfits as [(_ & _ & Hw & _) _ _].
    destruct (paste_row_run y (Z.to_nat (rect_width face)) 0 data)
      as (data1 & -> & Hp1); try lia; [exact Hp|].
    cbn [mbind option_bind].
    assert (Hh : rect_height face <= INT_MAX)
      by (destruct Hfits as [? (? & ? & ? & ?) _]; lia).
    unfold int_add. rewrite int_exact by lia.
    apply IH; try lia. apply Pasted_next_row. exact Hp1.
Qed.

Lemma Pasted_start : Pasted frame resized face 0 0 (imageData frame).
Proof.
  constructor; [reflexivity | | reflexivity].
  intros y' x' c (Hy & Hx & _) Hb. unfold before in Hb. lia.
Qed.

End OneFace.

(** The pixel loops of [replace_face] for one face, with images laid out
    as OpenCV lays them out, the face inside the frame and a resized image
    of three or four channels: no access leaves the two images; in the
    frame, the three colour bytes of every pixel under an opaque pixel of
    the resized image (no alpha channel, or alpha other than 0) are those
    of that pixel, the pixels under transparent ones are as before, and so
    is every other byte of the frame, a fourth channel of the frame
    included. *)
Theorem replace_face_pastes_the_opaque_pixels frame resized face :
  Fits frame resized face ->
  exists data,
    paste_face frame resized face = Some data
    /\ length data = length (imageData frame)
    /\ (forall y x c, in_face face y x c ->
          data !! Z.to_nat (target frame face y x c)
          = if opaque resized y x
            then imageData resized !! Z.to_nat (source resized y x c)
            else imageData frame !! Z.to_nat (target frame face y x c))
    /\ (forall i : nat,
          (forall y x c, in_face face y x c -> opaque resized y x = true ->
                         Z.of_nat i <> target frame face y x c) ->
          data !! i = imageData frame !! i).
Proof.
  intros Hfits. unfold paste_face.
  pose proof Hfits as [(_ & _ & _ & Hh & _) _ _].
  destruct (paste_rows_run frame resized face Hfits
              (Z.to_nat (rect_height face)) 0 (imageData frame))
    as (data & Hrun & [Hlen Hdone Hrest]);
    [lia | lia | apply Pasted_start |].
  exists data. split; [exact Hrun|]. split; [exact Hlen|]. split.
  - intros y x c Hf. apply Hdone; [exact Hf|].
    destruct Hf as (Hy & _). unfold before. lia.
  - intros i Hi. apply Hrest. intros y x c Hf _. apply Hi. exact Hf.
Qed.



Lemma replace_face_pastes_the_opaque_pixels_witness :
  exists data,
    paste_face two_pixel_frame one_pixel_overlay first_pixel = Some data
    /\ length data = length (imageData two_pixel_frame)
    /\ (forall y x c, in_face first_pixel y x c ->
          data !! Z.to_nat (target two_pixel_frame first_pixel y x c)
          = if opaque one_pixel_overlay y x
            then imageData one_pixel_overlay
                   !! Z.to_nat (source one_pixel_overlay y x c)
            else imageData two_pixel_frame
                   !! Z.to_nat (target two_pixel_frame first_pixel y x c))
    /\ (forall i : nat,
          (forall y x c, in_face first_pixel y x c ->
                         opaque one_pixel_overlay y x = true ->
                         Z.of_nat i <> target two_pixel_frame first_pixel y x c) ->
          data !! i = imageData two_pixel_frame !! i).
Proof.
  apply replace_face_pastes_the_opaque_pixels.
  constructor; vm_compute; intuition discriminate.
Defined.


End PixelFacts.
